(** * TODO Lister: the extractor and the index of [main.ts]

    A shallow embedding of the [ToDoReader] class of the plugin (the
    recognition rules [TODO_REGEXES], [loadFile], [getFilesInOrder],
    [getFileFor], [deleteFile], [renameFile], [updateFile]) together with
    the small part of the JavaScript runtime it relies on: strings as
    sequences of UTF-16 code units, [String.prototype.trim], the
    backtracking matcher of regular expressions, [split], [replace] and
    [Array.prototype.sort]. *)

From Stdlib Require Import String Ascii.
From Stdlib Require Import List NArith ZArith Bool Arith Lia.
From Stdlib Require Import Sorting.Sorted Sorting.Permutation.
Import ListNotations.
Local Open Scope list_scope.

(* ================================================================== *)
(** ** JavaScript strings *)
(* ================================================================== *)

Module JS.

(** A string is a sequence of UTF-16 code units. *)
Definition jsstring := list N.

(** A string literal of the source, one code unit per ASCII character. *)
Definition js (s : string) : jsstring :=
  map N_of_ascii (list_ascii_of_string s).

(** An array element as [lines[i]] reads it: a string, or [undefined] when
    the index is out of range. *)
Inductive jsval :=
| Undefined
| Str (s : jsstring).

(** [a === b] on strings. *)
Fixpoint str_eqb (a b : jsstring) : bool :=
  match a, b with
  | [], [] => true
  | x :: a', y :: b' => N.eqb x y && str_eqb a' b'
  | _, _ => false
  end.

(** [a > b] on strings: the first differing code unit decides, and a proper
    prefix is the smaller string. *)
Fixpoint str_gtb (a b : jsstring) : bool :=
  match a, b with
  | [], _ => false
  | _ :: _, [] => true
  | x :: a', y :: b' =>
      if N.ltb y x then true
      else if N.ltb x y then false
      else str_gtb a' b'
  end.

(** Truthiness of a string: the empty string is the only falsy one. *)
Definition truthy (s : jsstring) : bool :=
  match s with [] => false | _ => true end.

(** LineTerminator code points: LF, CR, LS, PS. *)
Definition isLineTerminator (c : N) : bool :=
  (N.eqb c 10 || N.eqb c 13 || N.eqb c 8232 || N.eqb c 8233)%N.

(** WhiteSpace and LineTerminator code points: what [trim] strips and what
    the class escape [\s] matches. *)
Definition isWhiteSpace (c : N) : bool :=
  (N.eqb c 9 || N.eqb c 11 || N.eqb c 12 || N.eqb c 32 || N.eqb c 160
   || N.eqb c 5760 || (N.leb 8192 c && N.leb c 8202)
   || N.eqb c 8239 || N.eqb c 8287 || N.eqb c 12288 || N.eqb c 65279
   || isLineTerminator c)%N.

Fixpoint trimStart (s : jsstring) : jsstring :=
  match s with
  | c :: s' => if isWhiteSpace c then trimStart s' else s
  | [] => []
  end.

Definition trimEnd (s : jsstring) : jsstring := rev (trimStart (rev s)).

(** [s.trim()] *)
Definition trim (s : jsstring) : jsstring := trimEnd (trimStart s).

End JS.
Import JS.

(* ================================================================== *)
(** ** Regular expressions: the backtracking matcher *)
(* ================================================================== *)

Module RegExp.

(** The patterns of [main.ts] use atoms and classes, concatenation,
    quantifiers (greedy and lazy), one capture group and the two
    assertions [^] and [$] (no flag [m]: start and end of the input). *)
Inductive regex :=
| Empty
| Char (p : N -> bool)
| Seq (r1 r2 : regex)
| Quant (min : nat) (max : option nat) (greedy : bool) (r : regex)
| Group (r : regex)
| Bol
| Eol.

(** The state of a match in progress: the index reached, the input from
    that index on, and the text of capture group 1 if it has matched. *)
Record MatchState := mkState {
  endIndex : nat;
  rest : jsstring;
  cap1 : option jsstring
}.

Definition Continuation := MatchState -> option MatchState.

Definition orElse (a b : option MatchState) : option MatchState :=
  match a with Some _ => a | None => b end.

Definition decMax (max : option nat) : option nat :=
  match max with Some k => Some (pred k) | None => None end.

(** RepeatMatcher: [mr] matches one iteration, [c] continues after the
    last one.  An iteration that is not required ([min = 0]) and consumes
    nothing is refused, so every such iteration shortens the input;
    [fuel] starts at [min + length (rest x)].  For the quantifiers of the
    patterns below, each over one class, [repeat_greedy_char] and
    [repeat_lazy_char] show that the fuel is never the reason to stop:
    any fuel that covers the input gives the same result. *)
Fixpoint repeatMatcher (mr : MatchState -> Continuation -> option MatchState)
  (greedy : bool) (c : Continuation) (fuel min : nat) (max : option nat)
  (x : MatchState) {struct fuel} : option MatchState :=
  match max with
  | Some 0 => c x
  | _ =>
      match fuel with
      | 0 => c x
      | S fuel' =>
          let d : Continuation := fun y =>
            if Nat.eqb min 0 && Nat.eqb (endIndex y) (endIndex x) then None
            else repeatMatcher mr greedy c fuel' (pred min) (decMax max) y in
          if negb (Nat.eqb min 0) then mr x d
          else if greedy then orElse (mr x d) (c x)
          else orElse (c x) (mr x d)
      end
  end.

(** [m r x c]: match [r] at state [x], then continue with [c]; alternatives
    are tried in the order the language fixes, the first success wins. *)
Fixpoint m (r : regex) (x : MatchState) (c : Continuation)
  : option MatchState :=
  match r with
  | Empty => c x
  | Char p =>
      match rest x with
      | ch :: s =>
          if p ch then c (mkState (S (endIndex x)) s (cap1 x)) else None
      | [] => None
      end
  | Seq r1 r2 => m r1 x (fun y => m r2 y c)
  | Quant min max greedy r' =>
      repeatMatcher (m r') greedy c (min + List.length (rest x)) min max x
  | Group r' =>
      m r' x (fun y =>
        c (mkState (endIndex y) (rest y)
             (Some (firstn (endIndex y - endIndex x) (rest x)))))
  | Bol => if Nat.eqb (endIndex x) 0 then c x else None
  | Eol => match rest x with [] => c x | _ :: _ => None end
  end.

(** The result of a successful match: where it starts, where it ends and
    capture group 1 ([undefined] when the group took no part). *)
Record MatchResult := mkResult {
  index : nat;
  lastIndex : nat;
  group1 : option jsstring
}.

(** One attempt at a fixed start index. *)
Definition matchAt (r : regex) (i : nat) (s : jsstring) : option MatchResult :=
  match m r (mkState i s None) Some with
  | Some y => Some (mkResult i (endIndex y) (cap1 y))
  | None => None
  end.

(** [exec] without flag [g]: the start index moves right from [i] until an
    attempt succeeds. *)
Fixpoint execFrom (r : regex) (i : nat) (s : jsstring) : option MatchResult :=
  match matchAt r i s with
  | Some res => Some res
  | None =>
      match s with
      | [] => None
      | _ :: s' => execFrom r (S i) s'
      end
  end.

(** [str.match(r)] for a pattern without flag [g]. *)
Definition match_ (r : regex) (str : jsstring) : option MatchResult :=
  execFrom r 0 str.

(** [str.replace(r, "$1")] for a pattern with flag [g]: each match, found
    left to right from the end of the one before, is replaced by the text
    of its group 1.  [skip] counts the code units still inside the match
    just replaced. *)
Fixpoint replaceFrom (r : regex) (i : nat) (s : jsstring) (skip : nat)
  : jsstring :=
  let copy := match s with
              | [] => []
              | ch :: s' => ch :: replaceFrom r (S i) s' 0
              end in
  match skip with
  | S k =>
      match s with
      | [] => []
      | _ :: s' => replaceFrom r (S i) s' k
      end
  | 0 =>
      match matchAt r i s with
      | Some res =>
          let sub := match group1 res with Some t => t | None => [] end in
          match lastIndex res - i with
          | 0 => sub ++ copy
          | S k =>
              sub ++ match s with
                     | [] => []
                     | _ :: s' => replaceFrom r (S i) s' k
                     end
          end
      | None => copy
      end
  end.

Definition replace_g_dollar1 (r : regex) (str : jsstring) : jsstring :=
  replaceFrom r 0 str 0.

(** [str.split(r)]: the separator is tried at every index [q] before the
    end; a match that ends where the current piece starts (an empty match
    at its start) does not split.  [piece] is the current piece, reversed;
    [skip] as in [replaceFrom]. *)
Fixpoint splitFrom (r : regex) (q : nat) (s : jsstring)
  (piece : jsstring) (skip : nat) : list jsstring :=
  match s with
  | [] => [rev piece]
  | ch :: s' =>
      match skip with
      | S k => splitFrom r (S q) s' piece k
      | 0 =>
          match matchAt r q s with
          | Some res =>
              match lastIndex res - q, piece with
              | 0, [] => splitFrom r (S q) s' [ch] 0
              | 0, _ :: _ => rev piece :: splitFrom r (S q) s' [ch] 0
              | S k, _ => rev piece :: splitFrom r (S q) s' [] k
              end
          | None => splitFrom r (S q) s' (ch :: piece) 0
          end
      end
  end.

Definition split (r : regex) (str : jsstring) : list jsstring :=
  match str with
  | [] => match matchAt r 0 [] with Some _ => [] | None => [[]] end
  | _ :: _ => splitFrom r 0 str [] 0
  end.

(** Pattern atoms. *)
Definition lit (a : ascii) : regex := Char (N.eqb (N_of_ascii a)).
Definition dot : regex := Char (fun c => negb (isLineTerminator c)).
Definition ws : regex := Char isWhiteSpace.
Definition star (r : regex) : regex := Quant 0 None true r.       (* r*  *)
Definition plus (r : regex) : regex := Quant 1 None true r.       (* r+  *)
Definition plusLazy (r : regex) : regex := Quant 1 None false r.  (* r+? *)
Definition opt (r : regex) : regex := Quant 0 (Some 1) true r.    (* r?  *)

Fixpoint seqs (rs : list regex) : regex :=
  match rs with
  | [] => Empty
  | [r] => r
  | r :: rs' => Seq r (seqs rs')
  end.

(** The literal [TODO] inside a pattern. *)
Definition TODO : regex := seqs [lit "T"; lit "O"; lit "D"; lit "O"].

End RegExp.
Import RegExp.

(* ================================================================== *)
(** ** The reader: recognition rules and [loadFile] *)
(* ================================================================== *)

(** [TAbstractFile] of the host: the vault path of a file and its name (the
    last segment of the path, extension included). *)
Record TAbstractFile := mkFile {
  path : jsstring;
  name : jsstring
}.

(** [interface IToDoGroup { file: TAbstractFile; items: string[] }].  The
    elements of [items] are what [loadFile] pushes, and one of its pushes
    reads [lines[lineIdx - 1]], hence [jsval]. *)
Record IToDoGroup := mkGroup {
  file : TAbstractFile;
  items : list jsval
}.

(** [/^.*TODO\s*:\s*(.+?)$/] *)
Definition REGEX_LABELED : regex :=
  seqs [Bol; star dot; TODO; star ws; lit ":"; star ws;
        Group (plusLazy dot); Eol].

(** [/^(.+?)\s+TODO\s*$/] *)
Definition REGEX_TRAILING : regex :=
  seqs [Bol; Group (plusLazy dot); plus ws; TODO; star ws; Eol].

(** [/^(.+?[\s(]TODO[)\s].+?)$/] *)
Definition REGEX_EMBEDDED : regex :=
  seqs [Bol;
        Group (seqs [plusLazy dot;
                     Char (fun c => isWhiteSpace c || N.eqb c (N_of_ascii "("));
                     TODO;
                     Char (fun c => N.eqb c (N_of_ascii ")") || isWhiteSpace c);
                     plusLazy dot]);
        Eol].

Definition TODO_REGEXES : list regex :=
  [REGEX_LABELED; REGEX_TRAILING; REGEX_EMBEDDED].

(** [/\[\[([^\]]+)\]\]/g] *)
Definition REGEX_LINK : regex :=
  seqs [lit "["; lit "[";
        Group (plus (Char (fun c => negb (N.eqb c (N_of_ascii "]")))));
        lit "]"; lit "]"].

(** [/\r?\n/] *)
Definition REGEX_NEWLINE : regex :=
  seqs [opt (Char (N.eqb 13)); Char (N.eqb 10)].

(** [match && match[1]?.trim()], kept when it is a non-empty string:
    [Some t] is a truthy [matchText]. *)
Definition matchText (r : regex) (lineText : jsstring) : option jsstring :=
  match match_ r lineText with
  | Some res =>
      match group1 res with
      | Some g => if truthy (trim g) then Some (trim g) else None
      | None => None
      end
  | None => None
  end.

(** The loop over the patterns: the first one with a truthy [matchText]
    decides (the [break]). *)
Fixpoint firstMatch (regexes : list regex) (lineText : jsstring)
  : option jsstring :=
  match regexes with
  | [] => None
  | r :: regexes' =>
      match matchText r lineText with
      | Some t => Some t
      | None => firstMatch regexes' lineText
      end
  end.

(** [lines[i]] for an index that may be [-1]. *)
Definition lineAt (lines : list jsstring) (i : Z) : jsval :=
  if (i <? 0)%Z then Undefined
  else match nth_error lines (Z.to_nat i) with
       | Some s => Str s
       | None => Undefined
       end.

(** [v !== ""] *)
Definition notEmptyString (v : jsval) : bool :=
  match v with
  | Undefined => true
  | Str s => negb (str_eqb s [])
  end.

(** The read-ahead loop over the lines after a bare marker: truthy lines
    are pushed, the first falsy one (or the end of [lines]) stops it. *)
Fixpoint readahead (following : list jsstring) (items : list jsval)
  : list jsval :=
  match following with
  | [] => items
  | readaheadText :: following' =>
      if truthy readaheadText && negb (str_eqb readaheadText [])
      then readahead following' (items ++ [Str readaheadText])
      else items
  end.

(** One turn of the loop over [lineIdx]: [items] after the turn. *)
Definition lineStep (lines : list jsstring) (items : list jsval)
  (lineIdx : nat) : list jsval :=
  let lineText := nth lineIdx lines [] in
  match firstMatch TODO_REGEXES lineText with
  | Some t => items ++ [Str t]
  | None =>
      if str_eqb lineText (js "TODO") then
        if notEmptyString (lineAt lines (Z.of_nat lineIdx - 1))
        then items ++ [lineAt lines (Z.of_nat lineIdx - 1)]
        else readahead (skipn (lineIdx + 1) lines) items
      else items
  end.

(** [for (lineIdx = 0; lineIdx < lines.length; lineIdx++)] *)
Definition scanLines (lines : list jsstring) : list jsval :=
  fold_left (lineStep lines) (seq 0 (List.length lines)) [].

Section Extractor.

(** [removeMd], the function of the package [remove-markdown]. *)
Variable removeMd : jsstring -> jsstring.

(** [txt.split(/\r?\n/).map(x => x.trim())] after links are stripped and
    markdown removed. *)
Definition linesOf (md : jsstring) : list jsstring :=
  map trim (split REGEX_NEWLINE (removeMd (replace_g_dollar1 REGEX_LINK md))).

(** The [items] that [loadFile] builds from the text [md]. *)
Definition extract (md : jsstring) : list jsval :=
  scanLines (linesOf md).

End Extractor.

(* ================================================================== *)
(** ** The module [path] of the host *)
(* ================================================================== *)

Module Path.

(** [path.extname] and [path.basename] belong to the runtime, not to the
    plugin; they are written here after their documentation (POSIX
    flavour): the last portion of a path is what follows its last
    separator, trailing separators ignored; the extension runs from the
    last [.] of that portion to its end, and is empty when the portion has
    no [.], starts with its only [.], or is [..]. *)

Definition SLASH : N := 47.
Definition DOT : N := 46.

Fixpoint dropWhile (p : N -> bool) (s : jsstring) : jsstring :=
  match s with
  | c :: s' => if p c then dropWhile p s' else s
  | [] => []
  end.

Fixpoint takeWhile (p : N -> bool) (s : jsstring) : jsstring :=
  match s with
  | c :: s' => if p c then c :: takeWhile p s' else []
  | [] => []
  end.

(** The last portion of [p], reversed. *)
Definition lastPortionRev (p : jsstring) : jsstring :=
  takeWhile (fun c => negb (N.eqb c SLASH))
    (dropWhile (N.eqb SLASH) (rev p)).

Definition lastPortion (p : jsstring) : jsstring := rev (lastPortionRev p).

Definition extname (p : jsstring) : jsstring :=
  let portionRev := lastPortionRev p in
  let afterDotRev := takeWhile (fun c => negb (N.eqb c DOT)) portionRev in
  let dotIndex := List.length portionRev - List.length afterDotRev - 1 in
  if existsb (N.eqb DOT) portionRev
     && negb (Nat.eqb dotIndex 0)
     && negb (str_eqb (rev portionRev) [DOT; DOT])
  then DOT :: rev afterDotRev
  else [].

(** [s] ends with [suffix]: what is left of [s] in front of it. *)
Definition stripSuffix (suffix s : jsstring) : option jsstring :=
  let n := List.length s - List.length suffix in
  if str_eqb (skipn n s) suffix then Some (firstn n s) else None.

Definition basename (p suffix : jsstring) : jsstring :=
  let portion := lastPortion p in
  if truthy suffix && Nat.leb (List.length suffix) (List.length p) then
    if str_eqb suffix p then []
    else match stripSuffix suffix portion with
         | Some [] => portion
         | Some stem => stem
         | None => portion
         end
  else portion.

End Path.

(** [getBaseName] of [main.ts]: the name a group is displayed under. *)
Definition getBaseName (filename : jsstring) : jsstring :=
  Path.basename filename (Path.extname filename).

(* ================================================================== *)
(** ** The index: [_dict] and the methods of [ToDoReader] *)
(* ================================================================== *)

(** [_dict : { [path: string]: IToDoGroup | null }].  An object keeps its
    string keys in the order they were first set, which is the order of
    [Object.values]; the keys are vault paths of markdown files, which end
    in [.md], so none is an array index, which would come first.  A value
    [None] is [null]. *)
Definition Dict := list (jsstring * option IToDoGroup).

(** [d[p]] among the keys of [d] itself: [None] is no such key, [Some None]
    is [null].  What [_dict] inherits is in [inheritedName] below. *)
Fixpoint dictGet (d : Dict) (p : jsstring) : option (option IToDoGroup) :=
  match d with
  | [] => None
  | (k, v) :: d' => if str_eqb k p then Some v else dictGet d' p
  end.

(** [d[p] = v]: an existing key keeps its place, a new one goes last. *)
Fixpoint dictSet (d : Dict) (p : jsstring) (v : option IToDoGroup) : Dict :=
  match d with
  | [] => [(p, v)]
  | (k, w) :: d' =>
      if str_eqb k p then (k, v) :: d' else (k, w) :: dictSet d' p v
  end.

(** [delete d[p]] *)
Fixpoint dictDelete (d : Dict) (p : jsstring) : Dict :=
  match d with
  | [] => []
  | (k, w) :: d' =>
      if str_eqb k p then dictDelete d' p else (k, w) :: dictDelete d' p
  end.

(** [Object.values(d).filter((x) => x !== null)] *)
Fixpoint presentValues (d : Dict) : list IToDoGroup :=
  match d with
  | [] => []
  | (_, Some g) :: d' => g :: presentValues d'
  | (_, None) :: d' => presentValues d'
  end.

Definition toDoGroupSorter (us them : IToDoGroup) : Z :=
  if str_eqb (name (file us)) (name (file them)) then 0%Z
  else if str_gtb (name (file us)) (name (file them)) then 1%Z
  else (-1)%Z.

(** [Array.prototype.sort(comparefn)]: the sort is stable, so with a
    consistent [comparefn] its result is that of a stable insertion sort:
    an element goes in front of the first one it does not compare greater
    than. *)
Section Sort.
Variable A : Type.
Variable comparefn : A -> A -> Z.

Fixpoint insertSorted (x : A) (l : list A) : list A :=
  match l with
  | [] => [x]
  | y :: l' =>
      if (comparefn x y >? 0)%Z then y :: insertSorted x l' else x :: l
  end.

Fixpoint sort (l : list A) : list A :=
  match l with
  | [] => []
  | x :: l' => insertSorted x (sort l')
  end.
End Sort.

Arguments insertSorted {A} comparefn x l.
Arguments sort {A} comparefn l.

Definition getFilesInOrder (d : Dict) : list IToDoGroup :=
  sort toDoGroupSorter (presentValues d).

(** [this._dict[path] || undefined], the group under the key [path] of
    [_dict] itself, if any.  [getFileForValue] below is the value at run
    time for every string, the names [_dict] inherits included. *)
Definition getFileFor (d : Dict) (p : jsstring) : option IToDoGroup :=
  match dictGet d p with
  | Some (Some g) => Some g
  | _ => None
  end.

(** [_dict] is made by [{}], so a name that is not a key of its own is
    looked up in [Object.prototype].  Its property names (the standard's,
    with those of its annex B). *)
Definition inheritedNames : list jsstring :=
  [js "constructor"; js "hasOwnProperty"; js "isPrototypeOf";
   js "propertyIsEnumerable"; js "toLocaleString"; js "toString";
   js "valueOf"; js "__proto__"; js "__defineGetter__";
   js "__defineSetter__"; js "__lookupGetter__"; js "__lookupSetter__"].

Definition inheritedName (p : jsstring) : bool :=
  existsb (str_eqb p) inheritedNames.

(** The value of [this._dict[path] || undefined] at run time: a group,
    [undefined], or what is inherited under the name, a function or, for
    [__proto__], the prototype: a truthy value without a property [file].
    A key of [_dict] itself hides an inherited name. *)
Inductive FileForValue :=
| IsGroup (g : IToDoGroup)
| IsUndefined
| IsInherited.

Definition getFileForValue (d : Dict) (p : jsstring) : FileForValue :=
  match dictGet d p with
  | Some (Some g) => IsGroup g
  | Some None => IsUndefined
  | None => if inheritedName p then IsInherited else IsUndefined
  end.

(** [delete this._dict[file.path]] *)
Definition deleteFile (d : Dict) (f : TAbstractFile) : Dict :=
  dictDelete d (path f).

(** What the methods see of the host [app]. *)
Record App := mkApp {
  (** the content of the first markdown view that shows the path
      ([getMatchingLeaf] and [editor.getValue()]) *)
  openContent : jsstring -> option jsstring;
  (** [app.vault.adapter.read]; [None] when the promise is rejected *)
  read : jsstring -> option jsstring
}.

(** The methods that read from disk are [async]: they return at their
    [await], before [loadFile] has run.  What a call has left to do when
    it returns: nothing, or the rest of [loadFileFromDisk] for a file. *)
Inductive Pending :=
| NoRead
| ReadOf (f : TAbstractFile).

Section Reader.

Variable removeMd : jsstring -> jsstring.

(** The group [loadFile] stores for [f]: [null] when nothing was found. *)
Definition groupOf (f : TAbstractFile) (found : list jsval)
  : option IToDoGroup :=
  if Nat.ltb 0 (List.length found) then Some (mkGroup f found) else None.

Definition loadFile (d : Dict) (f : TAbstractFile) (md : jsstring) : Dict :=
  dictSet d (path f) (groupOf f (extract removeMd md)).

(** [loadFileFromDisk] up to its [await]: [_dict] is not touched. *)
Definition loadFileFromDisk (f : TAbstractFile) : Pending :=
  if negb (str_eqb (Path.extname (path f)) (js ".md")) then NoRead
  else ReadOf f.

(** [loadFileFromDisk] from its [await] on, in the state [d] that [_dict]
    is in by then; [result] is what the read delivers. *)
Definition afterRead (d : Dict) (pending : Pending)
  (result : option jsstring) : Dict :=
  match pending, result with
  | ReadOf f, Some md => loadFile d f md
  | _, _ => d
  end.

Definition loadFileFromWorkspace (app : App) (d : Dict) (f : TAbstractFile)
  : Dict * Pending :=
  match openContent app (path f) with
  | Some viewContent =>
      if truthy viewContent then (loadFile d f viewContent, NoRead)
      else (d, loadFileFromDisk f)
  | None => (d, loadFileFromDisk f)
  end.

Definition updateFile (app : App) (d : Dict) (f : TAbstractFile)
  : Dict * Pending :=
  loadFileFromWorkspace app d f.

Definition renameFile (app : App) (d : Dict) (f : TAbstractFile)
  (filename : jsstring) : Dict * Pending :=
  updateFile app (dictDelete d filename) f.

(** A call run to completion: the read it awaits, if any, is delivered
    before any other call touches [_dict]. *)
Definition settle (app : App) (r : Dict * Pending) : Dict :=
  match snd r with
  | NoRead => fst r
  | ReadOf f => afterRead (fst r) (ReadOf f) (read app (path f))
  end.

(** The text an update of [f] extracts from: the live content when a view
    shows the file with a non-empty content, else what the disk returns
    for a markdown path. *)
Definition contentFor (app : App) (f : TAbstractFile) : option jsstring :=
  let fromDisk :=
    if str_eqb (Path.extname (path f)) (js ".md") then read app (path f)
    else None in
  match openContent app (path f) with
  | Some viewContent => if truthy viewContent then Some viewContent else fromDisk
  | None => fromDisk
  end.

(** The states of [_dict] the class can be in: [{}] at construction, then
    only [loadFile] and [delete] write it. *)
Inductive reachable : Dict -> Prop :=
| reach_new : reachable []
| reach_loadFile d f md : reachable d -> reachable (loadFile d f md)
| reach_delete d p : reachable d -> reachable (dictDelete d p).

End Reader.


(* ================================================================== *)
(** ** Vocabulary of the properties *)
(* ================================================================== *)

(** An item as the data model wants it: a string, non-empty, equal to its
    own trim. *)
Definition trimmedItem (v : jsval) : Prop :=
  match v with
  | Str s => s <> [] /\ trim s = s
  | Undefined => False
  end.

(** A string that is empty or starts with a code unit that is not
    whitespace: what [trimStart] leaves, and leaves alone. *)
Definition headNotSpace (s : jsstring) : Prop :=
  match s with
  | [] => True
  | c :: _ => isWhiteSpace c = false
  end.

(** [a <= b] on strings, the order [toDoGroupSorter] sorts by. *)
Definition str_leb (a b : jsstring) : bool := negb (str_gtb a b).

Definition byName (a b : IToDoGroup) : Prop :=
  str_leb (name (file a)) (name (file b)) = true.

(** The name a group is shown under: [getBaseName(grp.file.name)]. *)
Definition displayName (g : IToDoGroup) : jsstring :=
  getBaseName (name (file g)).

Definition byDisplayName (a b : IToDoGroup) : Prop :=
  str_leb (displayName a) (displayName b) = true.

(** What holds of [_dict] in every state: a key occurs once, and a group
    is stored under the path of its own file and has items. *)
Definition wfDict (d : Dict) : Prop :=
  NoDup (map fst d) /\
  forall p g, In (p, Some g) d -> path (file g) = p /\ items g <> [].

(** The entry at [q], raw and as [getFileFor] shows it, is the same in
    [d'] as in [d]. *)
Definition unchangedAt (q : jsstring) (d d' : Dict) : Prop :=
  dictGet d' q = dictGet d q /\ getFileFor d' q = getFileFor d q.

(** [s] starts with [prefix]: what follows it. *)
Fixpoint stripPrefix (prefix s : jsstring) : option jsstring :=
  match prefix, s with
  | [], _ => Some s
  | a :: prefix', b :: s' => if N.eqb a b then stripPrefix prefix' s' else None
  | _ :: _, [] => None
  end.

Definition COLON : N := 58.

(** [s] starts with an occurrence of the labeled pattern, the marker, then
    whitespace if any, then a colon: what follows the colon. *)
Definition afterLabel (s : jsstring) : option jsstring :=
  match stripPrefix (js "TODO") s with
  | Some s1 =>
      match Path.dropWhile isWhiteSpace s1 with
      | c :: s2 => if N.eqb c COLON then Some s2 else None
      | [] => None
      end
  | None => None
  end.

(** The indices of [line] where the labeled pattern occurs. *)
Definition labelIndices (line : jsstring) : list nat :=
  filter (fun n => match afterLabel (skipn n line) with
                   | Some _ => true
                   | None => false
                   end)
         (seq 0 (List.length line)).

(** Some occurrence of the labeled pattern right of index [k] in [line] has
    at least one code unit after its colon. *)
Definition laterLabelWithText (line : jsstring) (k : nat) : bool :=
  existsb (fun n => match afterLabel (skipn n line) with
                    | Some (_ :: _) => true
                    | _ => false
                    end)
          (seq (S k) (List.length line)).

(** The text group 1 of the labeled rule holds when the rule matches. *)
Definition labeledCapture (line : jsstring) : option jsstring :=
  match match_ REGEX_LABELED line with
  | Some res => group1 res
  | None => None
  end.

(** The labeled pattern from the marker on: [TODO\s*:\s*(.+?)$]. *)
Definition LABEL_TAIL : regex :=
  seqs [TODO; star ws; lit ":"; star ws; Group (plusLazy dot); Eol].

Definition isDot (c : N) : bool := negb (isLineTerminator c).

(** What a greedy and a lazy [*] over one class try, in order. *)
Fixpoint greedyStar (p : N -> bool) (c : Continuation) (i : nat)
  (s : jsstring) (cap : option jsstring) : option MatchState :=
  match s with
  | ch :: s' =>
      if p ch
      then orElse (greedyStar p c (S i) s' cap) (c (mkState i s cap))
      else c (mkState i s cap)
  | [] => c (mkState i [] cap)
  end.

Fixpoint lazyStar (p : N -> bool) (c : Continuation) (i : nat)
  (s : jsstring) (cap : option jsstring) : option MatchState :=
  orElse (c (mkState i s cap))
    match s with
    | ch :: s' => if p ch then lazyStar p c (S i) s' cap else None
    | [] => None
    end.

(** The labeled rule yields the text after the last occurrence of the
    labeled pattern in [line]. *)
Definition capturesAfterLastLabel (line : jsstring) : Prop :=
  exists t,
    afterLabel (skipn (last (labelIndices line) 0) line) = Some t /\
    matchText REGEX_LABELED line = Some (trim t).

(** Documents and files of the examples.  [plain] stands for [removeMd] on
    texts without markup, which it leaves as they are. *)
Definition plain (md : jsstring) : jsstring := md.

Definition LF : N := 10.

Definition file_a : TAbstractFile := mkFile (js "a.md") (js "a.md").
Definition file_a_b : TAbstractFile := mkFile (js "a-b.md") (js "a-b.md").
Definition file_b : TAbstractFile := mkFile (js "b.md") (js "b.md").

(** Two notes with one item each, [a.md] loaded before [a-b.md]. *)
Definition twoNotes : Dict :=
  loadFile plain (loadFile plain [] file_a (js "TODO: x"))
    file_a_b (js "TODO: y").

(** A host with no view open and [b.md] on disk. *)
Definition diskOnly : App :=
  mkApp (fun _ => None)
        (fun p => if str_eqb p (js "b.md") then Some (js "TODO: y") else None).

(** Runs [extract] on a text that [removeMd] leaves unchanged ([H]) and
    that holds no link. *)
Ltac run_extract H :=
  unfold extract, linesOf;
  match type of H with
  | _ ?s = _ =>
      replace (replace_g_dollar1 REGEX_LINK s) with s
        by (vm_compute; reflexivity)
  end;
  rewrite H; vm_compute; reflexivity.

(* ================================================================== *)
(** ** Further vocabulary: shapes of lines, links and line breaks *)
(* ================================================================== *)

(** [pat] occurs somewhere in [s]. *)
Fixpoint occurs (pat s : jsstring) : bool :=
  match stripPrefix pat s with
  | Some _ => true
  | None =>
      match s with
      | [] => false
      | _ :: s' => occurs pat s'
      end
  end.

(** The marker occurs in the line. *)
Definition containsMarker (line : jsstring) : bool := occurs (js "TODO") line.

(** The trailing pattern after its group: [\s+TODO\s*$]. *)
Definition TRAILING_TAIL : regex := seqs [plus ws; TODO; star ws; Eol].

(** The two classes around the marker in the embedded pattern. *)
Definition isOpening (c : N) : bool := isWhiteSpace c || N.eqb c (N_of_ascii "(").
Definition isClosing (c : N) : bool := N.eqb c (N_of_ascii ")") || isWhiteSpace c.

(** The leading lines that are not empty. *)
Fixpoint takeNonEmpty (following : list jsstring) : list jsstring :=
  match following with
  | l :: following' => if truthy l then l :: takeNonEmpty following' else []
  | [] => []
  end.

Definition LBRACKET : N := 91.
Definition RBRACKET : N := 93.
Definition CR : N := 13.

(** The class [[^\]]]. *)
Definition notRBracket (c : N) : bool := negb (N.eqb c (N_of_ascii "]")).

(** A link [[[target]]] at the start of [s]: its target and its length. *)
Definition linkAt (s : jsstring) : option (jsstring * nat) :=
  match s with
  | a :: b :: s1 =>
      if N.eqb a LBRACKET && N.eqb b LBRACKET then
        let target := Path.takeWhile (fun c => negb (N.eqb c RBRACKET)) s1 in
        match target, skipn (List.length target) s1 with
        | _ :: _, c :: d :: _ =>
            if N.eqb c RBRACKET && N.eqb d RBRACKET
            then Some (target, 4 + List.length target)
            else None
        | _, _ => None
        end
      else None
  | _ => None
  end.

(** The number of line feeds in a text. *)
Fixpoint countLF (s : jsstring) : nat :=
  match s with
  | [] => 0
  | c :: s' => (if N.eqb c LF then 1 else 0) + countLF s'
  end.

(* ================================================================== *)
(** ** The rest of the reader and the stateless listing *)
(* ================================================================== *)

Section Listing.

Variable removeMd : jsstring -> jsstring.

(** [loadAllFiles]: [files.map] starts [loadFileFromDisk] for every file,
    in the order of the array; each call returns at its [await]. *)
Definition loadAllFiles (files : list TAbstractFile) : list Pending :=
  map loadFileFromDisk files.

(** The read a pending call awaits is delivered: the rest of
    [loadFileFromDisk] runs on [_dict] as it is then. *)
Definition deliver (app : App) (d : Dict) (pending : Pending) : Dict :=
  match pending with
  | NoRead => d
  | ReadOf f => afterRead removeMd d (ReadOf f) (read app (path f))
  end.

(** The reads are delivered one after the other, in the order [order]. *)
Definition deliverAll (app : App) (d : Dict) (order : list Pending) : Dict :=
  fold_left (deliver app) order d.

(** What [loadFileFromDisk] reads for [f]: nothing unless the path has the
    extension [.md]. *)
Definition contentFromDisk (app : App) (f : TAbstractFile)
  : option jsstring :=
  if str_eqb (Path.extname (path f)) (js ".md") then read app (path f)
  else None.

(** [getToDoGroupFromFile] of the listing without index (the function and
    the loop of [loadFile], the group returned instead of stored); [None]
    when the read is rejected. *)
Definition getToDoGroupFromFile (app : App) (f : TAbstractFile)
  : option IToDoGroup :=
  match read app (path f) with
  | Some md => Some (mkGroup f (extract removeMd md))
  | None => None
  end.

(** [Promise.all] of a list: rejected as soon as one of them is. *)
Fixpoint promiseAll {A} (l : list (option A)) : option (list A) :=
  match l with
  | [] => Some []
  | None :: _ => None
  | Some a :: l' =>
      match promiseAll l' with
      | Some r => Some (a :: r)
      | None => None
      end
  end.

(** [getToDoGroupsFromFiles]: the groups of all files, those without items
    filtered out. *)
Definition getToDoGroupsFromFiles (app : App) (files : list TAbstractFile)
  : option (list IToDoGroup) :=
  match promiseAll (map (getToDoGroupFromFile app) files) with
  | Some groups =>
      Some (filter (fun grp => Nat.ltb 0 (List.length (items grp))) groups)
  | None => None
  end.

End Listing.

(* ================================================================== *)
(** ** The view and the handlers of the plugin *)
(* ================================================================== *)

(** A child of [containerEl]: the message shown when nothing is found, or
    the [div] of a group with its attribute [data-todolister-id], the text
    of its header and the texts of its list. *)
Inductive ViewNode :=
| ErrorMessage
| GroupNode (id header : jsstring) (entries : list jsval).

Definition View := list ViewNode.

Definition buildNodeFor (grp : IToDoGroup) : ViewNode :=
  GroupNode (path (file grp)) (getBaseName (name (file grp))) (items grp).

Definition hasId (p : jsstring) (node : ViewNode) : bool :=
  match node with
  | GroupNode id _ _ => str_eqb id p
  | ErrorMessage => false
  end.

Definition QUOTE : N := 39.
Definition BACKSLASH : N := 92.

(** The code units that stand for themselves between the single quotes of
    the selector: not the quote, which ends the value, not the backslash,
    which starts an escape, not a line break, which ends the value badly,
    and neither [NUL] nor a surrogate, which the parser replaces. *)
Definition selectorSafeUnit (c : N) : bool :=
  negb (N.eqb c 0) && negb (N.eqb c 10) && negb (N.eqb c 12)
  && negb (N.eqb c 13) && negb (N.eqb c QUOTE) && negb (N.eqb c BACKSLASH)
  && negb (N.leb 55296 c && N.leb c 57343).

Definition selectorSafe (p : jsstring) : bool := forallb selectorSafeUnit p.

(** [getHtmlNodeFor]: [querySelector] with the path between single quotes
    as the value the attribute is tested for.  The nodes that carry the
    attribute are children of the container, so for a path of code units
    that stand for themselves the first child whose id is the path is
    found.  For any other path the selector tests for another value, or is
    no selector at all: what it finds is not modelled ([None]). *)
Definition getHtmlNodeFor (view : View) (p : jsstring)
  : option (option ViewNode) :=
  if selectorSafe p then Some (find (hasId p) view) else None.

(** [removeChild] and [replaceChild] of the node [getHtmlNodeFor] found. *)
Fixpoint removeChild (p : jsstring) (view : View) : View :=
  match view with
  | [] => []
  | node :: view' =>
      if hasId p node then view' else node :: removeChild p view'
  end.

Fixpoint replaceChild (newNode : ViewNode) (p : jsstring) (view : View)
  : View :=
  match view with
  | [] => []
  | node :: view' =>
      if hasId p node then newNode :: view'
      else node :: replaceChild newNode p view'
  end.

(** The loop that looks for the sibling, and [insertBefore]: the new node
    goes in front of the first group node whose header text is truthy and
    [>= sortedName], at the end when there is none. *)
Fixpoint insertBefore (newNode : ViewNode) (sortedName : jsstring)
  (view : View) : View :=
  match view with
  | [] => [newNode]
  | elm :: view' =>
      match elm with
      | GroupNode _ header _ =>
          if truthy header && negb (str_gtb sortedName header)
          then newNode :: view
          else elm :: insertBefore newNode sortedName view'
      | ErrorMessage => elm :: insertBefore newNode sortedName view'
      end
  end.

(** How a call of [updateContentsFor] ends: it returns with the view as it
    is then, or it throws a [TypeError] with the view untouched. *)
Inductive Outcome :=
| Returns (view : View)
| Throws.

(** [updateContentsFor]; [None] when the selector is not modelled.  With an
    inherited value for [data], [data.file] is [undefined]: the branch that
    inserts throws at [data.file.name], the branch that replaces throws in
    [buildNodeFor] at [grp.file.path], both before the container is
    touched. *)
Definition updateContentsFor (d : Dict) (view : View) (p : jsstring)
  : option Outcome :=
  match getHtmlNodeFor view p with
  | None => None
  | Some node =>
      Some match node, getFileForValue d p with
           | Some _, IsUndefined => Returns (removeChild p view)
           | None, IsGroup data =>
               Returns
                 (insertBefore (buildNodeFor data) (name (file data)) view)
           | Some _, IsGroup data =>
               Returns (replaceChild (buildNodeFor data) p view)
           | None, IsUndefined => Returns view
           | _, IsInherited => Throws
           end
  end.

(** [reloadContents]: the container is emptied and filled again. *)
Definition reloadContents (d : Dict) : View :=
  match getFilesInOrder d with
  | [] => [ErrorMessage]
  | toDoItems => map buildNodeFor toDoItems
  end.

(** [updateViewFor] of the plugin, when the view is there: the call of
    [updateContentsFor] has no [await] in it and runs to its end at once;
    it is not awaited, so when it throws the promise is rejected, the
    caller goes on and the view is as it was.  The view after the call. *)
Definition updateViewFor (d : Dict) (view : View) (p : jsstring)
  : option View :=
  match updateContentsFor d view p with
  | Some (Returns view') => Some view'
  | Some Throws => Some view
  | None => None
  end.

(** The ids of the group nodes, in order. *)
Fixpoint nodeIds (view : View) : list jsstring :=
  match view with
  | [] => []
  | GroupNode id _ _ :: view' => id :: nodeIds view'
  | ErrorMessage :: view' => nodeIds view'
  end.

(** The view shows for [p] what the index holds for [p]. *)
Definition inSync (d : Dict) (view : View) (p : jsstring) : Prop :=
  find (hasId p) view = option_map buildNodeFor (getFileFor d p).

Section Handlers.

Variable removeMd : jsstring -> jsstring.

(** The handlers of [create] and [modify]: the update is started, and the
    view is updated when the call returns, before a read it awaits is
    delivered. *)
Definition onModify (app : App) (d : Dict) (view : View) (f : TAbstractFile)
  : Dict * option View * Pending :=
  let r := updateFile removeMd app d f in
  (fst r, updateViewFor (fst r) view (path f), snd r).

Definition onDelete (d : Dict) (view : View) (f : TAbstractFile)
  : Dict * option View :=
  (deleteFile d f, updateViewFor (deleteFile d f) view (path f)).

Definition onRename (app : App) (d : Dict) (view : View) (f : TAbstractFile)
  (filename : jsstring) : Dict * option View * Pending :=
  let r := renameFile removeMd app d f filename in
  (fst r,
   match updateViewFor (fst r) view filename with
   | Some view' => updateViewFor (fst r) view' (path f)
   | None => None
   end,
   snd r).

End Handlers.

(** A host in which a view shows [a.md] with one item, nothing on disk. *)
Definition liveNote : App :=
  mkApp (fun p => if str_eqb p (js "a.md") then Some (js "TODO: z") else None)
        (fun _ => None).

(* ================================================================== *)
(** ** Strings: equality, order, trim *)
(* ================================================================== *)

Lemma str_eqb_eq (a b : jsstring) : str_eqb a b = true <-> a = b.
Proof.
  revert b; induction a as [|x a IH]; intros [|y b]; simpl;
    try (split; [discriminate | congruence]); try tauto.
  rewrite andb_true_iff, N.eqb_eq, IH. split.
  - intros [-> ->]; reflexivity.
  - intros H; injection H; auto.
Qed.

Lemma str_eqb_refl (a : jsstring) : str_eqb a a = true.
Proof. apply str_eqb_eq; reflexivity. Qed.

Lemma str_eqb_neq (a b : jsstring) : a <> b -> str_eqb a b = false.
Proof.
  intros H. destruct (str_eqb a b) eqn:E; [|reflexivity].
  apply str_eqb_eq in E; contradiction.
Qed.

Lemma str_gtb_irrefl (a : jsstring) : str_gtb a a = false.
Proof.
  induction a as [|x a IH]; simpl; [reflexivity|].
  rewrite N.ltb_irrefl; exact IH.
Qed.

Lemma str_gtb_asym (a b : jsstring) :
  str_gtb a b = true -> str_gtb b a = false.
Proof.
  revert b; induction a as [|x a IH]; intros [|y b]; simpl; try congruence.
  destruct (N.ltb_spec y x), (N.ltb_spec x y); try lia; auto; congruence.
Qed.

Lemma str_leb_total (a b : jsstring) :
  str_leb a b = false -> str_leb b a = true.
Proof.
  unfold str_leb; intros H. apply negb_false_iff in H.
  rewrite (str_gtb_asym _ _ H); reflexivity.
Qed.

Lemma str_leb_trans (a b c : jsstring) :
  str_leb a b = true -> str_leb b c = true -> str_leb a c = true.
Proof.
  unfold str_leb; rewrite !negb_true_iff.
  revert b c; induction a as [|x a IH]; intros [|y b] [|z c]; simpl;
    try congruence.
  destruct (N.ltb_spec y x), (N.ltb_spec x y), (N.ltb_spec z y),
    (N.ltb_spec y z), (N.ltb_spec z x), (N.ltb_spec x z);
    try lia; try congruence; eauto.
Qed.

Lemma trimStart_head (s : jsstring) : headNotSpace (trimStart s).
Proof.
  induction s as [|c s IH]; simpl; [exact I|].
  destruct (isWhiteSpace c) eqn:E; [exact IH | exact E].
Qed.

Lemma trimStart_fixed (s : jsstring) : headNotSpace s -> trimStart s = s.
Proof. destruct s as [|c s]; simpl; [reflexivity | intros ->; reflexivity]. Qed.

Lemma trimStart_app_keep (s t : jsstring) :
  trimStart s <> [] -> trimStart (s ++ t) = trimStart s ++ t.
Proof.
  induction s as [|c s IH]; simpl; [congruence|].
  destruct (isWhiteSpace c); [exact IH | reflexivity].
Qed.

Lemma trimEnd_cons_keep (c : N) (s : jsstring) :
  isWhiteSpace c = false -> exists s', trimEnd (c :: s) = c :: s'.
Proof.
  intros Hc. unfold trimEnd. simpl.
  destruct (trimStart (rev s)) as [|y u] eqn:E.
  - exists []. 
    assert (H : trimStart (rev s ++ [c]) = [c]).
    { clear -E Hc. induction (rev s) as [|z w IH]; simpl in *.
      - rewrite Hc; reflexivity.
      - destruct (isWhiteSpace z); [auto | discriminate]. }
    rewrite H; reflexivity.
  - rewrite trimStart_app_keep by (rewrite E; discriminate).
    rewrite E, rev_app_distr. simpl. eexists; reflexivity.
Qed.

Lemma trimEnd_head (s : jsstring) : headNotSpace s -> headNotSpace (trimEnd s).
Proof.
  destruct s as [|c s]; [intros _; exact I|]. simpl. intros Hc.
  destruct (trimEnd_cons_keep c s Hc) as [s' ->]. exact Hc.
Qed.

Lemma trimEnd_idem (s : jsstring) : trimEnd (trimEnd s) = trimEnd s.
Proof.
  unfold trimEnd. rewrite rev_involutive.
  rewrite (trimStart_fixed _ (trimStart_head (rev s))). reflexivity.
Qed.

Lemma trim_idem (s : jsstring) : trim (trim s) = trim s.
Proof.
  unfold trim.
  rewrite (trimStart_fixed _ (trimEnd_head _ (trimStart_head s))).
  apply trimEnd_idem.
Qed.

(** A string that starts with a code unit that is not whitespace keeps it
    through [trim]. *)
Lemma trim_cons_keep (c : N) (s : jsstring) :
  isWhiteSpace c = false -> exists s', trim (c :: s) = c :: s'.
Proof.
  intros Hc. unfold trim. simpl. rewrite Hc. apply trimEnd_cons_keep, Hc.
Qed.

(* ================================================================== *)
(** ** The matcher on the quantifiers of the patterns *)
(* ================================================================== *)

Lemma orElse_None_r (a : option MatchState) : orElse a None = a.
Proof. destruct a; reflexivity. Qed.

Lemma repeatMatcher_eq mr greedy c fuel min max x :
  repeatMatcher mr greedy c fuel min max x
  = match max with
    | Some 0 => c x
    | _ =>
        match fuel with
        | 0 => c x
        | S fuel' =>
            let d : Continuation := fun y =>
              if Nat.eqb min 0 && Nat.eqb (endIndex y) (endIndex x) then None
              else repeatMatcher mr greedy c fuel' (pred min) (decMax max) y in
            if negb (Nat.eqb min 0) then mr x d
            else if greedy then orElse (mr x d) (c x)
            else orElse (c x) (mr x d)
        end
    end.
Proof. destruct fuel; reflexivity. Qed.

Lemma m_Quant_eq min max greedy r x c :
  m (Quant min max greedy r) x c
  = repeatMatcher (m r) greedy c (min + List.length (rest x)) min max x.
Proof. reflexivity. Qed.

Lemma m_Char_eq p x c :
  m (Char p) x c
  = match rest x with
    | ch :: s =>
        if p ch then c (mkState (S (endIndex x)) s (cap1 x)) else None
    | [] => None
    end.
Proof. reflexivity. Qed.

(** With any fuel that covers the input, a [*] over a class does what
    [greedyStar] and [lazyStar] say. *)
Lemma repeat_greedy_char (p : N -> bool) (c : Continuation) :
  forall fuel s i cap, List.length s <= fuel ->
    repeatMatcher (m (Char p)) true c fuel 0 None (mkState i s cap)
    = greedyStar p c i s cap.
Proof.
  induction fuel as [|fuel IH]; intros s i cap Hlen.
  - destruct s; [reflexivity | simpl in Hlen; lia].
  - rewrite repeatMatcher_eq. cbv zeta. rewrite m_Char_eq.
    change (Nat.eqb 0 0) with true. cbn [negb andb rest endIndex cap1 pred decMax].
    destruct s as [|ch s]; [reflexivity|]. cbn [greedyStar].
    destruct (p ch); [|reflexivity].
    assert (E : (S i =? i) = false) by (apply Nat.eqb_neq; lia).
    rewrite E. rewrite IH by (simpl in Hlen; lia). reflexivity.
Qed.

Lemma repeat_lazy_char (p : N -> bool) (c : Continuation) :
  forall fuel s i cap, List.length s <= fuel ->
    repeatMatcher (m (Char p)) false c fuel 0 None (mkState i s cap)
    = lazyStar p c i s cap.
Proof.
  induction fuel as [|fuel IH]; intros s i cap Hlen.
  - destruct s; [simpl | simpl in Hlen; lia].
    destruct (c (mkState i [] cap)); reflexivity.
  - rewrite repeatMatcher_eq. cbv zeta. rewrite m_Char_eq.
    change (Nat.eqb 0 0) with true. cbn [negb andb rest endIndex cap1 pred decMax].
    destruct s as [|ch s]; [reflexivity|]. cbn [lazyStar].
    destruct (p ch); [|reflexivity].
    assert (E : (S i =? i) = false) by (apply Nat.eqb_neq; lia).
    rewrite E. rewrite IH by (simpl in Hlen; lia). reflexivity.
Qed.

Lemma m_star_char (p : N -> bool) (c : Continuation) i s cap :
  m (star (Char p)) (mkState i s cap) c = greedyStar p c i s cap.
Proof. apply repeat_greedy_char; simpl; lia. Qed.

Lemma m_plusLazy_char (p : N -> bool) (c : Continuation) i s cap :
  m (plusLazy (Char p)) (mkState i s cap) c
  = match s with
    | ch :: s' => if p ch then lazyStar p c (S i) s' cap else None
    | [] => None
    end.
Proof.
  unfold plusLazy. rewrite m_Quant_eq, repeatMatcher_eq. cbn [Nat.add]. cbv zeta.
  rewrite m_Char_eq.
  change (Nat.eqb 1 0) with false. cbn [negb andb rest endIndex cap1 pred decMax].
  destruct s as [|ch s]; [reflexivity|].
  destruct (p ch); [|reflexivity].
  apply repeat_lazy_char; simpl; lia.
Qed.

Lemma m_plus_char (p : N -> bool) (c : Continuation) i s cap :
  m (plus (Char p)) (mkState i s cap) c
  = match s with
    | ch :: s' => if p ch then greedyStar p c (S i) s' cap else None
    | [] => None
    end.
Proof.
  unfold plus. rewrite m_Quant_eq, repeatMatcher_eq. cbn [Nat.add]. cbv zeta.
  rewrite m_Char_eq.
  change (Nat.eqb 1 0) with false. cbn [negb andb rest endIndex cap1 pred decMax].
  destruct s as [|ch s]; [reflexivity|].
  destruct (p ch); [|reflexivity].
  apply repeat_greedy_char; simpl; lia.
Qed.

Lemma m_opt_char (p : N -> bool) (c : Continuation) i s cap :
  m (opt (Char p)) (mkState i s cap) c
  = match s with
    | ch :: s' =>
        if p ch
        then orElse (c (mkState (S i) s' cap)) (c (mkState i s cap))
        else c (mkState i s cap)
    | [] => c (mkState i [] cap)
    end.
Proof.
  unfold opt. rewrite m_Quant_eq, repeatMatcher_eq. cbn [Nat.add rest].
  destruct s as [|ch s]; [reflexivity|]. cbn [List.length]. cbv zeta.
  rewrite m_Char_eq.
  change (Nat.eqb 0 0) with true. cbn [negb andb rest endIndex cap1 pred decMax].
  destruct (p ch); [|reflexivity].
  assert (E : (S i =? i) = false) by (apply Nat.eqb_neq; lia).
  rewrite E, repeatMatcher_eq. reflexivity.
Qed.

(** A greedy [*] stops at the first code unit outside the class and tries
    the continuation there first. *)
Lemma greedyStar_run p c : forall u v i cap r,
  Forall (fun ch => p ch = true) u ->
  c (mkState (i + List.length u) v cap) = Some r ->
  match v with [] => True | ch :: _ => p ch = false end ->
  greedyStar p c i (u ++ v) cap = Some r.
Proof.
  induction u as [|a u IH]; intros v i cap r Hu Hc Hv; simpl in *.
  - rewrite Nat.add_0_r in Hc.
    destruct v as [|ch v]; simpl; [exact Hc|]. rewrite Hv. exact Hc.
  - inversion Hu as [|? ? Ha Hu']; subst. rewrite Ha.
    rewrite (IH v (S i) cap r Hu'); [reflexivity | | exact Hv].
    rewrite Nat.add_succ_comm. exact Hc.
Qed.

(** When the continuation fails at every index further right, a greedy [*]
    comes back to where it started. *)
Lemma greedyStar_back p c : forall v i cap,
  (forall n, 0 < n <= List.length v ->
             c (mkState (i + n) (skipn n v) cap) = None) ->
  greedyStar p c i v cap = c (mkState i v cap).
Proof.
  induction v as [|ch v IH]; intros i cap H; simpl; [reflexivity|].
  destruct (p ch); [|reflexivity].
  rewrite IH.
  - specialize (H 1). simpl in H. rewrite Nat.add_1_r in H.
    rewrite H by lia. reflexivity.
  - intros n Hn. specialize (H (S n)). simpl in H.
    rewrite Nat.add_succ_comm. apply H. lia.
Qed.

(** The last index where the continuation succeeds is the one a greedy
    [*] returns, when it can reach it. *)
Lemma greedyStar_last p c : forall u v i cap r,
  Forall (fun ch => p ch = true) u ->
  c (mkState (i + List.length u) v cap) = Some r ->
  (forall n, 0 < n <= List.length v ->
             c (mkState (i + List.length u + n) (skipn n v) cap) = None) ->
  greedyStar p c i (u ++ v) cap = Some r.
Proof.
  induction u as [|a u IH]; intros v i cap r Hu Hc Hv; simpl in *.
  - rewrite Nat.add_0_r in *. rewrite greedyStar_back; assumption.
  - inversion Hu as [|? ? Ha Hu']; subst. rewrite Ha.
    rewrite (IH v (S i) cap r Hu'); [reflexivity | |].
    + rewrite Nat.add_succ_comm. exact Hc.
    + intros n Hn. rewrite Nat.add_succ_comm. apply Hv, Hn.
Qed.

(** A lazy [*] followed by something that only succeeds at the end of the
    input runs to the end. *)
Lemma lazyStar_end p c : forall s i cap,
  Forall (fun ch => p ch = true) s ->
  (forall j ch t, c (mkState j (ch :: t) cap) = None) ->
  lazyStar p c i s cap = c (mkState (i + List.length s) [] cap).
Proof.
  induction s as [|a s IH]; intros i cap Hs Hc; simpl.
  - rewrite Nat.add_0_r. apply orElse_None_r.
  - inversion Hs as [|? ? Ha Hs']; subst. rewrite Hc, Ha. simpl.
    rewrite IH by assumption. rewrite Nat.add_succ_comm. reflexivity.
Qed.

(* ================================================================== *)
(** ** The labeled rule and the occurrences of its pattern *)
(* ================================================================== *)

Lemma m_Seq_eq r1 r2 x c : m (Seq r1 r2) x c = m r1 x (fun y => m r2 y c).
Proof. reflexivity. Qed.

Lemma m_Group_eq r x c :
  m (Group r) x c
  = m r x (fun y =>
      c (mkState (endIndex y) (rest y)
           (Some (firstn (endIndex y - endIndex x) (rest x))))).
Proof. reflexivity. Qed.

Lemma execFrom_hit r i s res :
  matchAt r i s = Some res -> execFrom r i s = Some res.
Proof. intros H. destruct s; simpl; rewrite H; reflexivity. Qed.

Lemma dropWhile_app p : forall u v,
  Forall (fun ch => p ch = true) u ->
  match v with [] => True | ch :: _ => p ch = false end ->
  Path.dropWhile p (u ++ v) = v.
Proof.
  induction u as [|a u IH]; intros v Hu Hv; simpl.
  - destruct v as [|ch v]; simpl; [reflexivity | rewrite Hv; reflexivity].
  - inversion Hu as [|? ? Ha Hu']; subst. rewrite Ha. apply IH; assumption.
Qed.

(** A success of a greedy [*] also tells that what it consumed is in the
    class. *)
Lemma greedyStar_consumed p c : forall s i cap r,
  greedyStar p c i s cap = Some r ->
  exists n, Forall (fun ch => p ch = true) (firstn n s) /\
            c (mkState (i + n) (skipn n s) cap) = Some r.
Proof.
  induction s as [|ch s IH]; intros i cap r H; simpl in H.
  - exists 0. rewrite Nat.add_0_r. split; [constructor | exact H].
  - destruct (p ch) eqn:Ep.
    + destruct (greedyStar p c (S i) s cap) eqn:E.
      * simpl in H. rewrite <- H. destruct (IH _ _ _ E) as [n [Hn Hc]].
        exists (S n). simpl. rewrite <- Nat.add_succ_comm.
        split; [constructor; assumption | exact Hc].
      * simpl in H. exists 0. rewrite Nat.add_0_r.
        split; [constructor | exact H].
    + exists 0. rewrite Nat.add_0_r. split; [constructor | exact H].
Qed.

Lemma m_TODO_sound x c r :
  m TODO x c = Some r ->
  exists s, rest x = js "TODO" ++ s /\
            c (mkState (4 + endIndex x) s (cap1 x)) = Some r.
Proof.
  destruct x as [i s cap]. unfold TODO, lit. cbn [seqs].
  rewrite m_Seq_eq, m_Char_eq. cbn [rest endIndex cap1].
  destruct s as [|a1 s]; [discriminate|].
  destruct (N.eqb_spec (N_of_ascii "T") a1) as [<-|]; [|discriminate].
  rewrite m_Seq_eq, m_Char_eq. cbn [rest endIndex cap1].
  destruct s as [|a2 s]; [discriminate|].
  destruct (N.eqb_spec (N_of_ascii "O") a2) as [<-|]; [|discriminate].
  rewrite m_Seq_eq, m_Char_eq. cbn [rest endIndex cap1].
  destruct s as [|a3 s]; [discriminate|].
  destruct (N.eqb_spec (N_of_ascii "D") a3) as [<-|]; [|discriminate].
  rewrite m_Char_eq. cbn [rest endIndex cap1].
  destruct s as [|a4 s]; [discriminate|].
  destruct (N.eqb_spec (N_of_ascii "O") a4) as [<-|]; [|discriminate].
  intros H. exists s. split; [reflexivity | exact H].
Qed.

(** Group 1 of [(.+?)$] is the rest of the line. *)
Lemma capture_to_end j ch t cap c :
  Forall (fun a => isDot a = true) (ch :: t) ->
  m (Seq (Group (plusLazy dot)) Eol) (mkState j (ch :: t) cap) c
  = c (mkState (j + List.length (ch :: t)) [] (Some (ch :: t))).
Proof.
  intros Hdot. rewrite m_Seq_eq, m_Group_eq. unfold dot.
  rewrite m_plusLazy_char. cbn [rest endIndex].
  inversion Hdot as [|? ? Hch Ht]; subst. unfold isDot in Hch. rewrite Hch.
  rewrite lazyStar_end; [| exact Ht | reflexivity].
  cbn [endIndex rest m].
  replace (S j + List.length t - j) with (S (List.length t)) by lia.
  cbn [firstn]. rewrite firstn_all.
  replace (S j + List.length t) with (j + List.length (ch :: t))
    by (simpl; lia).
  reflexivity.
Qed.

(** From an occurrence of the pattern with text after it, [LABEL_TAIL]
    matches and captures that text. *)
Lemma tail_run i gap1 gap2 ch t cap :
  Forall (fun a => isWhiteSpace a = true) gap1 ->
  Forall (fun a => isWhiteSpace a = true) gap2 ->
  isWhiteSpace ch = false ->
  Forall (fun a => isDot a = true) (ch :: t) ->
  exists e,
    m LABEL_TAIL (mkState i (js "TODO" ++ gap1 ++ COLON :: gap2 ++ ch :: t) cap)
      Some
    = Some (mkState e [] (Some (ch :: t))).
Proof.
  intros H1 H2 Hch Hdot. eexists.
  unfold LABEL_TAIL. cbn [seqs]. rewrite m_Seq_eq.
  change (m TODO (mkState i (js "TODO" ++ gap1 ++ COLON :: gap2 ++ ch :: t) cap)
            ?k)
    with (k (mkState (4 + i) (gap1 ++ COLON :: gap2 ++ ch :: t) cap)).
  cbv beta. rewrite m_Seq_eq. unfold ws at 1. rewrite m_star_char.
  apply greedyStar_run; [exact H1 | | reflexivity].
  rewrite m_Seq_eq. unfold lit at 1. rewrite m_Char_eq. cbn [rest endIndex cap1].
  change (N.eqb (N_of_ascii ":") COLON) with true. cbv iota.
  rewrite m_Seq_eq. unfold ws at 1. rewrite m_star_char.
  apply greedyStar_run; [exact H2 | | exact Hch].
  rewrite capture_to_end by exact Hdot. reflexivity.
Qed.

(** Where [LABEL_TAIL] matches, the pattern occurs and its colon is not
    the last code unit. *)
Lemma tail_sound x r :
  m LABEL_TAIL x Some = Some r ->
  exists a t, afterLabel (rest x) = Some (a :: t).
Proof.
  unfold LABEL_TAIL. cbn [seqs]. rewrite m_Seq_eq. intros H.
  apply m_TODO_sound in H. destruct H as [s1 [Hx H]].
  rewrite m_Seq_eq in H. unfold ws at 1 in H. rewrite m_star_char in H.
  apply greedyStar_consumed in H. destruct H as [n [Hws H]].
  rewrite m_Seq_eq in H. unfold lit at 1 in H. rewrite m_Char_eq in H.
  cbn [rest endIndex cap1] in H.
  destruct (skipn n s1) as [|a s2] eqn:Es; [discriminate|].
  destruct (N.eqb_spec (N_of_ascii ":") a) as [<-|]; [|discriminate].
  destruct s2 as [|b s2]; [discriminate|].
  exists b, s2. rewrite Hx. unfold afterLabel.
  change (stripPrefix (js "TODO") (js "TODO" ++ s1)) with (Some s1).
  rewrite <- (firstn_skipn n s1), Es.
  rewrite dropWhile_app; [reflexivity | exact Hws | reflexivity].
Qed.

Lemma laterLabel_none line k n :
  laterLabelWithText line k = false ->
  k < n -> n <= List.length line ->
  forall a t, afterLabel (skipn n line) <> Some (a :: t).
Proof.
  unfold laterLabelWithText. intros H Hk Hn a t E.
  assert (X : existsb
    (fun n => match afterLabel (skipn n line) with
              | Some (_ :: _) => true
              | _ => false
              end) (seq (S k) (List.length line)) = true).
  { apply existsb_exists. exists n. split.
    - apply in_seq. lia.
    - rewrite E. reflexivity. }
  congruence.
Qed.

(** The labeled rule on a line that holds an occurrence of its pattern
    with text after it and no such occurrence further right. *)
Lemma labeled_match pre gap1 gap2 ch t :
  let line := pre ++ js "TODO" ++ gap1 ++ COLON :: gap2 ++ ch :: t in
  Forall (fun a => isDot a = true) pre ->
  Forall (fun a => isWhiteSpace a = true) gap1 ->
  Forall (fun a => isWhiteSpace a = true) gap2 ->
  isWhiteSpace ch = false ->
  Forall (fun a => isDot a = true) (ch :: t) ->
  laterLabelWithText line (List.length pre) = false ->
  exists res, match_ REGEX_LABELED line = Some res /\
              group1 res = Some (ch :: t).
Proof.
  intros line Hpre H1 H2 Hch Hdot Hlast.
  destruct (tail_run (List.length pre) gap1 gap2 ch t None H1 H2 Hch Hdot)
    as [e He].
  assert (Hm : m REGEX_LABELED (mkState 0 line None) Some
               = Some (mkState e [] (Some (ch :: t)))).
  { change (m REGEX_LABELED (mkState 0 line None) Some)
      with (m (star dot) (mkState 0 line None)
              (fun z => m LABEL_TAIL z Some)).
    unfold dot. rewrite m_star_char. unfold line.
    apply greedyStar_last; [exact Hpre | exact He |].
    intros n Hn. cbn [Nat.add].
    match goal with |- ?lhs = None => destruct lhs eqn:E end; [|reflexivity].
    apply tail_sound in E. destruct E as [a [t' E]]. cbn [rest] in E.
    exfalso.
    apply (laterLabel_none line (List.length pre) (List.length pre + n) Hlast)
      with (a := a) (t := t'); [lia | unfold line; rewrite length_app; lia |].
    unfold line. rewrite skipn_app, skipn_all2 by lia.
    replace (List.length pre + n - List.length pre) with n by lia.
    exact E. }
  eexists. split.
  - unfold match_. apply execFrom_hit. unfold matchAt. rewrite Hm. reflexivity.
  - reflexivity.
Qed.

(* ================================================================== *)
(** ** The loop over the lines *)
(* ================================================================== *)

Lemma matchText_trimmed r line t :
  matchText r line = Some t -> t <> [] /\ trim t = t.
Proof.
  unfold matchText. destruct (match_ r line) as [res|]; [|discriminate].
  destruct (group1 res) as [g|]; [|discriminate].
  destruct (truthy (trim g)) eqn:E; [|discriminate].
  intros H; injection H as <-. split.
  - intros H0. rewrite H0 in E. discriminate.
  - apply trim_idem.
Qed.

Lemma firstMatch_trimmed rs line t :
  firstMatch rs line = Some t -> t <> [] /\ trim t = t.
Proof.
  induction rs as [|r rs IH]; simpl; [discriminate|].
  destruct (matchText r line) as [u|] eqn:E; [|exact IH].
  intros H; injection H as <-. eapply matchText_trimmed; eassumption.
Qed.

(** The first rule that matches decides: a later rule is not consulted. *)
Lemma firstMatch_head r rs line t :
  matchText r line = Some t -> firstMatch (r :: rs) line = Some t.
Proof. intros H. simpl. rewrite H. reflexivity. Qed.

Lemma readahead_extends following : forall acc,
  readahead following acc = acc ++ readahead following [].
Proof.
  induction following as [|l following IH]; intros acc; simpl.
  - rewrite app_nil_r. reflexivity.
  - destruct (truthy l && negb (str_eqb l [])).
    + rewrite IH. simpl. rewrite (IH [Str l]), app_assoc. reflexivity.
    + rewrite app_nil_r. reflexivity.
Qed.

(** A turn of the loop only appends. *)
Lemma lineStep_extends lines acc i :
  lineStep lines acc i = acc ++ lineStep lines [] i.
Proof.
  unfold lineStep.
  destruct (firstMatch TODO_REGEXES (nth i lines [])); [reflexivity|].
  destruct (str_eqb (nth i lines []) (js "TODO")).
  - destruct (notEmptyString (lineAt lines (Z.of_nat i - 1)));
      [reflexivity | apply readahead_extends].
  - rewrite app_nil_r. reflexivity.
Qed.

Lemma fold_lineStep_extends lines : forall idxs acc,
  fold_left (lineStep lines) idxs acc
  = acc ++ fold_left (lineStep lines) idxs [].
Proof.
  induction idxs as [|i idxs IH]; intros acc; simpl.
  - rewrite app_nil_r. reflexivity.
  - rewrite IH, (IH (lineStep lines [] i)), lineStep_extends, app_assoc.
    reflexivity.
Qed.

(** A document of one line yields what its line yields. *)
Lemma scanLines_single line :
  scanLines [line]
  = match firstMatch TODO_REGEXES line with
    | Some t => [Str t]
    | None => if str_eqb line (js "TODO") then [Undefined] else []
    end.
Proof.
  unfold scanLines, lineStep. simpl.
  destruct (firstMatch TODO_REGEXES line); [reflexivity|].
  destruct (str_eqb line (js "TODO")); reflexivity.
Qed.

(** When the bare marker is the first line, its turn reads [lines[-1]] and
    pushes it, and that is all the turn does. *)
Lemma scanLines_first_marker following :
  scanLines (js "TODO" :: following)
  = Undefined
    :: fold_left (lineStep (js "TODO" :: following))
         (seq 1 (List.length following)) [].
Proof.
  unfold scanLines. cbn [List.length seq fold_left].
  rewrite fold_lineStep_extends. reflexivity.
Qed.

Lemma readahead_trimmed following : forall acc,
  Forall (fun l => trim l = l) following ->
  Forall trimmedItem acc ->
  Forall trimmedItem (readahead following acc).
Proof.
  induction following as [|l following IH]; intros acc Hf Hacc; simpl.
  - exact Hacc.
  - inversion Hf as [|? ? Hl Hf']; subst.
    destruct (truthy l && negb (str_eqb l [])) eqn:E; [|exact Hacc].
    apply IH; [exact Hf'|]. apply Forall_app. split; [exact Hacc|].
    constructor; [|constructor]. simpl. split; [|exact Hl].
    intros ->. discriminate.
Qed.

Lemma Forall_skipn {A} (P : A -> Prop) n : forall l,
  Forall P l -> Forall P (skipn n l).
Proof.
  induction n as [|n IH]; intros l H; [exact H|].
  destruct l; [exact H|]. inversion H; subst. simpl. auto.
Qed.

(** Every turn but the one of a bare marker on the first line pushes
    trimmed, non-empty strings. *)
Lemma lineStep_trimmed lines acc i :
  Forall (fun l => trim l = l) lines ->
  Forall trimmedItem acc ->
  (i = 0 -> nth 0 lines [] <> js "TODO") ->
  Forall trimmedItem (lineStep lines acc i).
Proof.
  intros Hl Hacc Hi. unfold lineStep.
  destruct (firstMatch TODO_REGEXES (nth i lines [])) as [t|] eqn:E.
  - apply Forall_app. split; [exact Hacc|]. constructor; [|constructor].
    exact (firstMatch_trimmed _ _ _ E).
  - destruct (str_eqb (nth i lines []) (js "TODO")) eqn:Em; [|exact Hacc].
    destruct i as [|i].
    + apply str_eqb_eq in Em. exfalso. apply Hi; [reflexivity | exact Em].
    + replace (Z.of_nat (S i) - 1)%Z with (Z.of_nat i) by lia.
      unfold lineAt.
      replace (Z.of_nat i <? 0)%Z with false by (symmetry; apply Z.ltb_ge; lia).
      rewrite Nat2Z.id.
      destruct (nth_error lines i) as [s|] eqn:En; cbn [notEmptyString].
      * destruct (str_eqb s []) eqn:Es; cbn [negb].
        -- apply readahead_trimmed; [apply Forall_skipn; exact Hl | exact Hacc].
        -- apply Forall_app. split; [exact Hacc|]. constructor; [|constructor].
           simpl. split.
           ++ intros ->. discriminate.
           ++ apply nth_error_In in En. rewrite Forall_forall in Hl. auto.
      * apply nth_error_None in En.
        assert (Hn : nth (S i) lines [] = []) by (apply nth_overflow; lia).
        rewrite Hn in Em. discriminate.
Qed.

Lemma fold_lineStep_trimmed lines : forall idxs acc,
  Forall (fun l => trim l = l) lines ->
  Forall trimmedItem acc ->
  (In 0 idxs -> nth 0 lines [] <> js "TODO") ->
  Forall trimmedItem (fold_left (lineStep lines) idxs acc).
Proof.
  induction idxs as [|i idxs IH]; intros acc Hl Hacc H0; simpl; [exact Hacc|].
  apply IH; [exact Hl | | intros; apply H0; right; assumption].
  apply lineStep_trimmed; [exact Hl | exact Hacc |].
  intros ->. apply H0. left. reflexivity.
Qed.

(** Apart from a bare marker on the first line, all items are trimmed,
    non-empty strings. *)
Lemma extract_trimmed_unless_first_marker removeMd md :
  nth 0 (linesOf removeMd md) [] <> js "TODO" ->
  Forall trimmedItem (extract removeMd md).
Proof.
  intros H. unfold extract, scanLines.
  apply fold_lineStep_trimmed; [| constructor | intros _; exact H].
  unfold linesOf. apply Forall_forall. intros l Hin.
  apply in_map_iff in Hin. destruct Hin as [l0 [<- _]]. apply trim_idem.
Qed.

(* ================================================================== *)
(** ** The index: [_dict] as a map *)
(* ================================================================== *)

Lemma dictGet_set_same d p v : dictGet (dictSet d p v) p = Some v.
Proof.
  induction d as [|[k w] d IH]; simpl.
  - rewrite str_eqb_refl. reflexivity.
  - destruct (str_eqb k p) eqn:E; simpl; rewrite E; [reflexivity | exact IH].
Qed.

Lemma dictGet_set_other d p q v :
  p <> q -> dictGet (dictSet d p v) q = dictGet d q.
Proof.
  intros Hpq. induction d as [|[k w] d IH]; simpl.
  - rewrite (str_eqb_neq _ _ Hpq). reflexivity.
  - destruct (str_eqb k p) eqn:E; simpl.
    + apply str_eqb_eq in E. subst k.
      rewrite (str_eqb_neq _ _ Hpq). reflexivity.
    + rewrite IH. reflexivity.
Qed.

Lemma dictGet_delete_same d p : dictGet (dictDelete d p) p = None.
Proof.
  induction d as [|[k w] d IH]; simpl; [reflexivity|].
  destruct (str_eqb k p) eqn:E; simpl; [exact IH | rewrite E; exact IH].
Qed.

Lemma dictGet_delete_other d p q :
  p <> q -> dictGet (dictDelete d p) q = dictGet d q.
Proof.
  intros Hpq. induction d as [|[k w] d IH]; simpl; [reflexivity|].
  destruct (str_eqb k p) eqn:E; simpl.
  - apply str_eqb_eq in E. subst k. rewrite (str_eqb_neq _ _ Hpq). exact IH.
  - rewrite IH. reflexivity.
Qed.

Lemma dictDelete_absent d p : dictGet d p = None -> dictDelete d p = d.
Proof.
  induction d as [|[k w] d IH]; simpl; [reflexivity|].
  destruct (str_eqb k p); [discriminate|].
  intros H. rewrite (IH H). reflexivity.
Qed.

Lemma dictGet_In d p v : dictGet d p = Some v -> In (p, v) d.
Proof.
  induction d as [|[k w] d IH]; simpl; [discriminate|].
  destruct (str_eqb k p) eqn:E.
  - apply str_eqb_eq in E. subst k. intros H; injection H as ->. left; reflexivity.
  - intros H. right. exact (IH H).
Qed.

Lemma In_dictGet d p v : NoDup (map fst d) -> In (p, v) d -> dictGet d p = Some v.
Proof.
  induction d as [|[k w] d IH]; simpl; [contradiction|].
  intros Hnd [H|H]; inversion Hnd as [|? ? Hk Hnd']; subst.
  - injection H as -> ->. rewrite str_eqb_refl. reflexivity.
  - destruct (str_eqb k p) eqn:E.
    + apply str_eqb_eq in E. subst k. exfalso. apply Hk.
      apply in_map_iff. exists (p, v). split; [reflexivity | exact H].
    + apply IH; assumption.
Qed.

Lemma In_dictSet d p v k x :
  In (k, x) (dictSet d p v) -> (k = p /\ x = v) \/ In (k, x) d.
Proof.
  induction d as [|[k0 w] d IH]; simpl.
  - intros [H|[]]. injection H as <- <-. left; split; reflexivity.
  - destruct (str_eqb k0 p) eqn:E; simpl.
    + apply str_eqb_eq in E. subst k0. intros [H|H].
      * injection H as <- <-. left; split; reflexivity.
      * right; right; exact H.
    + intros [H|H]; [right; left; exact H|].
      destruct (IH H) as [?|?]; [left; assumption | right; right; assumption].
Qed.

Lemma keys_dictSet d p v k :
  In k (map fst (dictSet d p v)) -> k = p \/ In k (map fst d).
Proof.
  intros H. apply in_map_iff in H. destruct H as [[k0 x] [<- H]].
  destruct (In_dictSet _ _ _ _ _ H) as [[-> _]|H']; [left; reflexivity|].
  right. apply in_map_iff. exists (k0, x). split; [reflexivity | exact H'].
Qed.

Lemma NoDup_dictSet d p v : NoDup (map fst d) -> NoDup (map fst (dictSet d p v)).
Proof.
  induction d as [|[k w] d IH]; simpl; intros Hnd.
  - constructor; [intros [] | constructor].
  - inversion Hnd as [|? ? Hk Hnd']; subst.
    destruct (str_eqb k p) eqn:E; simpl.
    + constructor; assumption.
    + constructor; [|apply IH; exact Hnd'].
      intros H. destruct (keys_dictSet _ _ _ _ H) as [->|H'].
      * rewrite str_eqb_refl in E. discriminate.
      * contradiction.
Qed.

Lemma In_dictDelete d p k x :
  In (k, x) (dictDelete d p) -> k <> p /\ In (k, x) d.
Proof.
  induction d as [|[k0 w] d IH]; simpl; [contradiction|].
  destruct (str_eqb k0 p) eqn:E; simpl.
  - intros H. destruct (IH H). split; [assumption | right; assumption].
  - intros [H|H].
    + injection H as <- <-. split; [|left; reflexivity].
      intros ->. rewrite str_eqb_refl in E. discriminate.
    + destruct (IH H). split; [assumption | right; assumption].
Qed.

Lemma NoDup_dictDelete d p : NoDup (map fst d) -> NoDup (map fst (dictDelete d p)).
Proof.
  induction d as [|[k w] d IH]; simpl; intros Hnd; [constructor|].
  inversion Hnd as [|? ? Hk Hnd']; subst.
  destruct (str_eqb k p); simpl; [apply IH; exact Hnd'|].
  constructor; [|apply IH; exact Hnd'].
  intros H. apply in_map_iff in H. destruct H as [[k0 x] [Hk0 H]].
  simpl in Hk0. subst k0. apply In_dictDelete in H. destruct H as [_ H].
  apply Hk. apply in_map_iff. exists (k, x). split; [reflexivity | exact H].
Qed.

Lemma In_presentValues d g :
  In g (presentValues d) <-> exists p, In (p, Some g) d.
Proof.
  induction d as [|[k [g0|]] d IH]; simpl.
  - split; [contradiction | intros [? []]].
  - rewrite IH. split.
    + intros [->|[p H]]; [exists k; left; reflexivity | exists p; right; exact H].
    + intros [p [H|H]]; [injection H as _ ->; left; reflexivity|].
      right; exists p; exact H.
  - rewrite IH. split.
    + intros [p H]; exists p; right; exact H.
    + intros [p [H|H]]; [discriminate | exists p; exact H].
Qed.

(** Deleting a key whose value is [null] changes nothing that is present. *)
Lemma presentValues_delete_null d p :
  NoDup (map fst d) -> dictGet d p = Some None ->
  presentValues (dictDelete d p) = presentValues d.
Proof.
  induction d as [|[k w] d IH]; simpl; [discriminate|].
  intros Hnd. inversion Hnd as [|? ? Hk Hnd']; subst.
  destruct (str_eqb k p) eqn:E.
  - apply str_eqb_eq in E. subst k. intros H; injection H as ->.
    rewrite dictDelete_absent; [reflexivity|].
    destruct (dictGet d p) as [v|] eqn:G; [|reflexivity].
    exfalso. apply Hk. apply dictGet_In in G.
    apply in_map_iff. exists (p, v). split; [reflexivity | exact G].
  - intros H. simpl. rewrite (IH Hnd' H). reflexivity.
Qed.

Section ReaderFacts.

Variable removeMd : jsstring -> jsstring.

Lemma groupOf_spec f found g :
  groupOf f found = Some g -> file g = f /\ items g = found /\ found <> [].
Proof.
  unfold groupOf. destruct found as [|v found]; simpl; [discriminate|].
  intros H; injection H as <-. repeat split. discriminate.
Qed.

Lemma groupOf_nil f : groupOf f [] = None.
Proof. reflexivity. Qed.

Lemma wfDict_loadFile d f md : wfDict d -> wfDict (loadFile removeMd d f md).
Proof.
  intros [Hnd Hg]. unfold loadFile. split; [apply NoDup_dictSet; exact Hnd|].
  intros p g H. destruct (In_dictSet _ _ _ _ _ H) as [[-> Hv]|H'].
  - symmetry in Hv. apply groupOf_spec in Hv. destruct Hv as [-> [-> Hne]].
    split; [reflexivity | exact Hne].
  - apply Hg; exact H'.
Qed.

Lemma wfDict_delete d p : wfDict d -> wfDict (dictDelete d p).
Proof.
  intros [Hnd Hg]. split; [apply NoDup_dictDelete; exact Hnd|].
  intros k g H. apply In_dictDelete in H. apply Hg, H.
Qed.

Lemma reachable_wf d : reachable removeMd d -> wfDict d.
Proof.
  induction 1 as [|d f md _ IH|d p _ IH].
  - split; [constructor | intros ? ? []].
  - apply wfDict_loadFile; exact IH.
  - apply wfDict_delete; exact IH.
Qed.

(** What a call or the delivery of a read does to [_dict] is a [loadFile]
    for the file of the call, or nothing. *)
Lemma afterRead_cases d f result :
  afterRead removeMd d (loadFileFromDisk f) result = d \/
  exists md,
    afterRead removeMd d (loadFileFromDisk f) result = loadFile removeMd d f md.
Proof.
  unfold loadFileFromDisk, afterRead.
  destruct (negb (str_eqb (Path.extname (path f)) (js ".md")));
    [left; reflexivity|].
  destruct result as [md|]; [right; exists md|left]; reflexivity.
Qed.

Lemma updateFile_pending app d f :
  snd (updateFile removeMd app d f) = NoRead \/
  snd (updateFile removeMd app d f) = loadFileFromDisk f.
Proof.
  unfold updateFile, loadFileFromWorkspace.
  destruct (openContent app (path f)) as [v|];
    [destruct (truthy v)|]; simpl; auto.
Qed.

Lemma updateFile_cases app d f :
  fst (updateFile removeMd app d f) = d \/
  exists md, fst (updateFile removeMd app d f) = loadFile removeMd d f md.
Proof.
  unfold updateFile, loadFileFromWorkspace.
  destruct (openContent app (path f)) as [v|];
    [destruct (truthy v); [right; exists v; reflexivity|]|];
    left; reflexivity.
Qed.

Lemma settle_updateFile_cases app d f :
  settle removeMd app (updateFile removeMd app d f) = d \/
  exists md,
    settle removeMd app (updateFile removeMd app d f) = loadFile removeMd d f md.
Proof.
  unfold settle, updateFile, loadFileFromWorkspace, loadFileFromDisk.
  destruct (openContent app (path f)) as [v|];
    [destruct (truthy v); [right; exists v; reflexivity|]|];
    (destruct (negb (str_eqb (Path.extname (path f)) (js ".md"))); simpl;
     [left; reflexivity|];
     destruct (read app (path f)) as [md|];
     [right; exists md|left]; reflexivity).
Qed.

Lemma settle_updateFile_content app d f md :
  contentFor app f = Some md ->
  settle removeMd app (updateFile removeMd app d f) = loadFile removeMd d f md.
Proof.
  unfold contentFor, settle, updateFile, loadFileFromWorkspace,
    loadFileFromDisk.
  destruct (openContent app (path f)) as [v|];
    [destruct (truthy v); [intros H; injection H as ->; reflexivity|]|];
    (destruct (str_eqb (Path.extname (path f)) (js ".md")); simpl;
     [intros ->; reflexivity | discriminate]).
Qed.

Lemma reachable_updateFile app d f :
  reachable removeMd d ->
  reachable removeMd (fst (updateFile removeMd app d f)) /\
  reachable removeMd (settle removeMd app (updateFile removeMd app d f)).
Proof.
  intros H. split.
  - destruct (updateFile_cases app d f) as [->|[md ->]];
      [exact H | constructor; exact H].
  - destruct (settle_updateFile_cases app d f) as [->|[md ->]];
      [exact H | constructor; exact H].
Qed.

End ReaderFacts.

Lemma getFileFor_ext d d' q :
  dictGet d' q = dictGet d q -> unchangedAt q d d'.
Proof. intros H. split; [exact H | unfold getFileFor; rewrite H; reflexivity]. Qed.

(* ================================================================== *)
(** ** [sort] with [toDoGroupSorter] *)
(* ================================================================== *)

Lemma insertSorted_perm {A} (cmp : A -> A -> Z) x l :
  Permutation (insertSorted cmp x l) (x :: l).
Proof.
  induction l as [|y l IH]; simpl; [reflexivity|].
  destruct (cmp x y >? 0)%Z; [|reflexivity].
  rewrite IH. apply perm_swap.
Qed.

Lemma sort_perm {A} (cmp : A -> A -> Z) l : Permutation (sort cmp l) l.
Proof.
  induction l as [|x l IH]; simpl; [reflexivity|].
  rewrite insertSorted_perm, IH. reflexivity.
Qed.

Lemma toDoGroupSorter_pos us them :
  (toDoGroupSorter us them >? 0)%Z = str_gtb (name (file us)) (name (file them)).
Proof.
  unfold toDoGroupSorter.
  destruct (str_eqb (name (file us)) (name (file them))) eqn:E.
  - apply str_eqb_eq in E. rewrite E, str_gtb_irrefl. reflexivity.
  - destruct (str_gtb (name (file us)) (name (file them))); reflexivity.
Qed.

Lemma insertSorted_sorted x l :
  StronglySorted byName l ->
  StronglySorted byName (insertSorted toDoGroupSorter x l).
Proof.
  induction l as [|y l IH]; simpl; intros Hs.
  - constructor; constructor.
  - inversion Hs as [|? ? Hs' Hy]; subst.
    rewrite toDoGroupSorter_pos.
    destruct (str_gtb (name (file x)) (name (file y))) eqn:E.
    + constructor; [apply IH; exact Hs'|].
      apply (Permutation_Forall (Permutation_sym (insertSorted_perm _ x l))).
      constructor; [|exact Hy].
      unfold byName, str_leb. rewrite (str_gtb_asym _ _ E). reflexivity.
    + assert (Hxy : byName x y) by (unfold byName, str_leb; rewrite E; reflexivity).
      constructor; [exact Hs|]. constructor; [exact Hxy|].
      eapply Forall_impl; [|exact Hy].
      intros z Hz. unfold byName in *. eapply str_leb_trans; eassumption.
Qed.

Lemma sort_sorted l : StronglySorted byName (sort toDoGroupSorter l).
Proof.
  induction l as [|x l IH]; simpl; [constructor|].
  apply insertSorted_sorted; exact IH.
Qed.

(* ================================================================== *)
(** ** The extractor on the documents of the specification *)
(* ================================================================== *)

Lemma all_in_class (p : N -> bool) (l : jsstring) :
  forallb p l = true -> Forall (fun a => p a = true) l.
Proof.
  intros H. apply Forall_forall. apply forallb_forall. exact H.
Qed.

(** The examples of the rules in the specification and the README. *)
Example trailing_rule_example :
  extract plain (js "finish the report TODO") = [Str (js "finish the report")].
Proof. vm_compute. reflexivity. Qed.

Example embedded_rule_example :
  extract plain (js "please (TODO) check this")
  = [Str (js "please (TODO) check this")].
Proof. vm_compute. reflexivity. Qed.

Example bare_marker_backward_example :
  extract plain (js "buy eggs" ++ LF :: js "TODO") = [Str (js "buy eggs")].
Proof. vm_compute. reflexivity. Qed.

Example link_stripping_example :
  extract plain (js "[[Project Plan]] TODO") = [Str (js "Project Plan")].
Proof. vm_compute. reflexivity. Qed.

Example crlf_lines_example :
  linesOf plain (js "  a " ++ [13; 10]%N ++ js "b" ++ LF :: js "")
  = [js "a"; js "b"; js ""].
Proof. vm_compute. reflexivity. Qed.

Example no_marker_example :
  extract plain (js "nothing to do" ++ LF :: js "todo: lower case") = [].
Proof. vm_compute. reflexivity. Qed.

(** C1.  The document whose two lines are the bare marker and [call mom]:
    the turn of the first line reads [lines[-1]], which is [undefined] and
    differs from the empty string, pushes it and goes on to the next line
    without the forward scan; [call mom] is not captured.  So it is for
    every document whose first line is the bare marker: the first item is
    [undefined], and the rest is what the turns of the later lines push. *)
Theorem first_line_marker_skips_forward_scan :
  linesOf plain (js "TODO" ++ LF :: js "call mom")
  = [js "TODO"; js "call mom"] /\
  extract plain (js "TODO" ++ LF :: js "call mom") = [Undefined] /\
  (forall following,
     scanLines (js "TODO" :: following)
     = Undefined
       :: fold_left (lineStep (js "TODO" :: following))
            (seq 1 (List.length following)) []).
Proof.
  split; [vm_compute; reflexivity|].
  split; [vm_compute; reflexivity|].
  exact scanLines_first_marker.
Qed.

(** C2.  The document that is the bare marker alone: the one item returned
    is [undefined], not a non-empty trimmed string. *)
Theorem first_line_marker_item_not_a_string :
  extract plain (js "TODO") = [Undefined] /\
  ~ Forall trimmedItem (extract plain (js "TODO")).
Proof.
  split; [vm_compute; reflexivity|].
  intros H. inversion H as [|? ? Hbad _]. exact Hbad.
Qed.

(** C4.  The line [TODO: buy milk TODO] satisfies the labeled and the
    trailing rule (which alone would capture [TODO: buy milk]); the
    extractor returns the single item [buy milk TODO], the capture of the
    labeled rule.  In general, on a line where both rules match, the item
    pushed is the capture of the labeled rule. *)
Theorem rule_priority_labeled_over_trailing
  (removeMd : jsstring -> jsstring)
  (H : removeMd (js "TODO: buy milk TODO") = js "TODO: buy milk TODO") :
  extract removeMd (js "TODO: buy milk TODO") = [Str (js "buy milk TODO")] /\
  matchText REGEX_LABELED (js "TODO: buy milk TODO")
  = Some (js "buy milk TODO") /\
  matchText REGEX_TRAILING (js "TODO: buy milk TODO")
  = Some (js "TODO: buy milk") /\
  (forall line a b,
     matchText REGEX_LABELED line = Some a ->
     matchText REGEX_TRAILING line = Some b ->
     firstMatch TODO_REGEXES line = Some a /\
     forall lines acc lineIdx,
       nth lineIdx lines [] = line ->
       lineStep lines acc lineIdx = acc ++ [Str a]).
Proof.
  split; [run_extract H|].
  split; [vm_compute; reflexivity|].
  split; [vm_compute; reflexivity|].
  intros line a b Ha _.
  assert (Hf : firstMatch TODO_REGEXES line = Some a)
    by (apply firstMatch_head; exact Ha).
  split; [exact Hf|].
  intros lines acc lineIdx Hn. unfold lineStep. cbv zeta.
  unfold jsstring in *. rewrite Hn, Hf. reflexivity.
Qed.

Lemma rule_priority_labeled_over_trailing_witness :
  plain (js "TODO: buy milk TODO") = js "TODO: buy milk TODO" /\
  extract plain (js "TODO: buy milk TODO") = [Str (js "buy milk TODO")].
Proof.
  split; [reflexivity|].
  apply (rule_priority_labeled_over_trailing plain). reflexivity.
Defined.

(** C5.  A document whose trimmed lines are the empty line, the bare
    marker, [call mom], [call dad] and the empty line yields exactly the
    items [call mom] and [call dad], in that order. *)
Theorem bare_marker_forward_scan
  (removeMd : jsstring -> jsstring) (md : jsstring)
  (H : linesOf removeMd md
       = [js ""; js "TODO"; js "call mom"; js "call dad"; js ""]) :
  extract removeMd md = [Str (js "call mom"); Str (js "call dad")].
Proof. unfold extract. rewrite H. vm_compute. reflexivity. Qed.

Lemma bare_marker_forward_scan_witness :
  let md := LF :: js "TODO" ++ LF :: js "call mom" ++ LF :: js "call dad"
               ++ [LF] in
  linesOf plain md = [js ""; js "TODO"; js "call mom"; js "call dad"; js ""] /\
  extract plain md = [Str (js "call mom"); Str (js "call dad")].
Proof.
  split; [vm_compute; reflexivity|].
  apply (bare_marker_forward_scan plain). vm_compute. reflexivity.
Defined.

(** C8.  A document whose trimmed lines are the empty line, the bare
    marker and [fix bug TODO] yields [fix bug TODO] and then [fix bug]: the
    turn of the marker pushes the third line whole in its forward scan, and
    the turn of the third line pushes the capture of the trailing rule. *)
Theorem forward_scanned_line_scanned_again
  (removeMd : jsstring -> jsstring) (md : jsstring)
  (H : linesOf removeMd md = [js ""; js "TODO"; js "fix bug TODO"]) :
  extract removeMd md = [Str (js "fix bug TODO"); Str (js "fix bug")] /\
  lineStep (linesOf removeMd md) [] 1 = [Str (js "fix bug TODO")] /\
  lineStep (linesOf removeMd md) [] 2 = [Str (js "fix bug")] /\
  firstMatch TODO_REGEXES (js "fix bug TODO")
  = matchText REGEX_TRAILING (js "fix bug TODO").
Proof.
  unfold extract. rewrite H. repeat split; vm_compute; reflexivity.
Qed.

Lemma forward_scanned_line_scanned_again_witness :
  let md := LF :: js "TODO" ++ LF :: js "fix bug TODO" in
  linesOf plain md = [js ""; js "TODO"; js "fix bug TODO"] /\
  extract plain md = [Str (js "fix bug TODO"); Str (js "fix bug")].
Proof.
  split; [vm_compute; reflexivity|].
  apply (forward_scanned_line_scanned_again plain). vm_compute. reflexivity.
Defined.

(** C9, as stated, fails on the line [TODO: a TODO:].  The labeled pattern
    occurs twice, at indices 0 and 8; nothing follows the last occurrence;
    the labeled rule captures [a TODO:], the text after the first one, and
    that is the item returned. *)
Lemma labeled_rule_not_always_last_occurrence :
  labelIndices (js "TODO: a TODO:") = [0; 8] /\
  extract plain (js "TODO: a TODO:") = [Str (js "a TODO:")] /\
  ~ capturesAfterLastLabel (js "TODO: a TODO:").
Proof.
  split; [vm_compute; reflexivity|].
  split; [vm_compute; reflexivity|].
  intros [t [Ht Hm]].
  assert (E : afterLabel (skipn (last (labelIndices (js "TODO: a TODO:")) 0)
                            (js "TODO: a TODO:")) = Some [])
    by (vm_compute; reflexivity).
  rewrite E in Ht. injection Ht as <-.
  vm_compute in Hm. discriminate.
Qed.

(** C9, amended.  On a line without line terminators, the labeled rule
    captures the text after the last occurrence of the labeled pattern
    that has text after its colon: with [pre] in front of that occurrence,
    whitespace [gap1] between marker and colon and [gap2] after the colon,
    then a text that starts with [ch], no whitespace, the rule yields that
    text, trimmed, and a document of this single line yields it as its only
    item.  For the single line [TODO: a TODO: b] the extractor returns
    exactly [b]. *)
Theorem labeled_rule_last_occurrence_with_text
  (pre gap1 gap2 : jsstring) (ch : N) (t : jsstring)
  (Hpre : Forall (fun a => isDot a = true) pre)
  (Hgap1 : Forall (fun a => isWhiteSpace a = true) gap1)
  (Hgap2 : Forall (fun a => isWhiteSpace a = true) gap2)
  (Hch : isWhiteSpace ch = false)
  (Htext : Forall (fun a => isDot a = true) (ch :: t))
  (Hlast : laterLabelWithText
             (pre ++ js "TODO" ++ gap1 ++ COLON :: gap2 ++ ch :: t)
             (List.length pre) = false) :
  let line := pre ++ js "TODO" ++ gap1 ++ COLON :: gap2 ++ ch :: t in
  labeledCapture line = Some (ch :: t) /\
  matchText REGEX_LABELED line = Some (trim (ch :: t)) /\
  (forall removeMd md,
     linesOf removeMd md = [line] ->
     extract removeMd md = [Str (trim (ch :: t))]) /\
  (forall removeMd,
     removeMd (js "TODO: a TODO: b") = js "TODO: a TODO: b" ->
     extract removeMd (js "TODO: a TODO: b") = [Str (js "b")]).
Proof.
  intros line.
  destruct (labeled_match pre gap1 gap2 ch t Hpre Hgap1 Hgap2 Hch Htext Hlast)
    as [res [Hres Hg]].
  fold line in Hres.
  assert (Hm : matchText REGEX_LABELED line = Some (trim (ch :: t))).
  { unfold matchText. rewrite Hres, Hg.
    destruct (trim_cons_keep ch t Hch) as [s' ->]. reflexivity. }
  split; [unfold labeledCapture; rewrite Hres; exact Hg|].
  split; [exact Hm|].
  split.
  - intros removeMd md Hl. unfold extract. rewrite Hl, scanLines_single.
    unfold TODO_REGEXES. rewrite (firstMatch_head _ _ _ _ Hm). reflexivity.
  - intros removeMd H. run_extract H.
Qed.

Lemma labeled_rule_last_occurrence_with_text_witness :
  laterLabelWithText (js "TODO: a TODO: b") 8 = false /\
  matchText REGEX_LABELED (js "TODO: a TODO: b") = Some (js "b") /\
  extract plain (js "TODO: a TODO: b") = [Str (js "b")].
Proof.
  split; [vm_compute; reflexivity|].
  destruct (labeled_rule_last_occurrence_with_text
              (js "TODO: a ") [] (js " ") 98%N []
              (all_in_class isDot (js "TODO: a ") eq_refl)
              (all_in_class isWhiteSpace [] eq_refl)
              (all_in_class isWhiteSpace (js " ") eq_refl) eq_refl
              (all_in_class isDot [98%N] eq_refl) eq_refl) as [_ [Hm [Hx _]]].
  split; [exact Hm|].
  apply (Hx plain). vm_compute. reflexivity.
Defined.

(* ================================================================== *)
(** ** The index *)
(* ================================================================== *)

(** C3, as stated, fails on two notes named [a.md] and [a-b.md]:
    [getFilesInOrder] puts [a-b.md] first, since [-] sorts before the [.]
    of the extension, and the display names then read [a-b], [a], which is
    not ascending. *)
Lemma enumerate_not_by_display_name :
  map (fun g => name (file g)) (getFilesInOrder twoNotes)
  = [js "a-b.md"; js "a.md"] /\
  map displayName (getFilesInOrder twoNotes) = [js "a-b"; js "a"] /\
  ~ Sorted byDisplayName (getFilesInOrder twoNotes).
Proof.
  split; [vm_compute; reflexivity|].
  split; [vm_compute; reflexivity|].
  intros H.
  assert (E : getFilesInOrder twoNotes
              = [mkGroup file_a_b [Str (js "y")]; mkGroup file_a [Str (js "x")]])
    by (vm_compute; reflexivity).
  rewrite E in H. inversion H as [|? ? _ Hd]; subst.
  inversion Hd as [|? ? Hle]; subst.
  vm_compute in Hle. discriminate.
Qed.

(** C3, amended.  For every state of the index, whatever the order the
    documents were inserted in, [getFilesInOrder] returns the present
    groups, each once, in ascending order of file name (the base name with
    its extension, compared code unit by code unit). *)
Theorem enumerate_sorted_by_file_name (d : Dict) :
  StronglySorted byName (getFilesInOrder d) /\
  Permutation (getFilesInOrder d) (presentValues d).
Proof.
  unfold getFilesInOrder. split; [apply sort_sorted | apply sort_perm].
Qed.

Lemma In_getFilesInOrder d g :
  In g (getFilesInOrder d) <-> exists p, In (p, Some g) d.
Proof.
  rewrite <- In_presentValues. unfold getFilesInOrder. split; intros H.
  - eapply Permutation_in; [apply sort_perm | exact H].
  - eapply Permutation_in; [symmetry; apply sort_perm | exact H].
Qed.

Lemma getFileFor_In d p g : getFileFor d p = Some g -> In (p, Some g) d.
Proof.
  unfold getFileFor. destruct (dictGet d p) as [[g0|]|] eqn:E; try discriminate.
  intros H; injection H as ->. apply dictGet_In; exact E.
Qed.

(** C6.  In a state the index can be in, after [loadFile] of a document
    whose extraction yields no item (so also after an update that found
    this content and has run to completion, whether the path was tracked
    before or not):
    [getFileFor] of its path is absent and no group of [getFilesInOrder]
    is for that path; in every reachable state no group shown by
    [getFileFor] or [getFilesInOrder] has empty items; and the entry left
    under the path, [null], shows the same through [getFileFor] and
    [getFilesInOrder] as no entry at all. *)
Theorem absence_invariant
  (removeMd : jsstring -> jsstring) (d : Dict) (f : TAbstractFile)
  (md : jsstring)
  (Hd : reachable removeMd d)
  (Hnone : extract removeMd md = []) :
  let d' := loadFile removeMd d f md in
  getFileFor d' (path f) = None /\
  (forall g, In g (getFilesInOrder d') -> path (file g) <> path f) /\
  (forall app, contentFor app f = Some md ->
               settle removeMd app (updateFile removeMd app d f) = d') /\
  (forall e, reachable removeMd e ->
     (forall p g, getFileFor e p = Some g -> items g <> []) /\
     (forall g, In g (getFilesInOrder e) -> items g <> [])) /\
  dictGet d' (path f) = Some None /\
  (forall q, getFileFor (dictDelete d' (path f)) q = getFileFor d' q) /\
  getFilesInOrder (dictDelete d' (path f)) = getFilesInOrder d'.
Proof.
  intros d'.
  assert (Hget : dictGet d' (path f) = Some None).
  { unfold d', loadFile. rewrite Hnone, groupOf_nil. apply dictGet_set_same. }
  assert (Hwf : wfDict d').
  { apply (reachable_wf removeMd). constructor. exact Hd. }
  split; [unfold getFileFor; rewrite Hget; reflexivity|].
  split.
  { intros g Hg Hp. apply In_getFilesInOrder in Hg. destruct Hg as [p Hin].
    destruct Hwf as [Hnd Hgr]. destruct (Hgr _ _ Hin) as [Hpath _].
    rewrite Hp in Hpath. subst p.
    rewrite (In_dictGet _ _ _ Hnd Hin) in Hget. discriminate. }
  split; [intros app Hc; apply settle_updateFile_content; exact Hc|].
  split.
  { intros e He. destruct (reachable_wf removeMd e He) as [_ Hgr]. split.
    - intros p g Hg. apply getFileFor_In in Hg. apply (Hgr _ _ Hg).
    - intros g Hg. apply In_getFilesInOrder in Hg. destruct Hg as [p Hin].
      apply (Hgr _ _ Hin). }
  split; [exact Hget|].
  split.
  { intros q. unfold getFileFor.
    destruct (str_eqb (path f) q) eqn:E.
    - apply str_eqb_eq in E. subst q.
      rewrite dictGet_delete_same, Hget. reflexivity.
    - rewrite dictGet_delete_other; [reflexivity|].
      intros Heq. rewrite Heq, str_eqb_refl in E. discriminate. }
  unfold getFilesInOrder.
  rewrite presentValues_delete_null; [reflexivity | apply Hwf | exact Hget].
Qed.

Lemma absence_invariant_witness :
  getFileFor twoNotes (js "a.md") = Some (mkGroup file_a [Str (js "x")]) /\
  extract plain (js "done") = [] /\
  getFileFor (loadFile plain twoNotes file_a (js "done")) (js "a.md") = None /\
  map (fun g => path (file g))
      (getFilesInOrder (loadFile plain twoNotes file_a (js "done")))
  = [js "a-b.md"].
Proof.
  split; [vm_compute; reflexivity|].
  split; [vm_compute; reflexivity|].
  split; [|vm_compute; reflexivity].
  apply (absence_invariant plain twoNotes file_a (js "done")).
  - unfold twoNotes. repeat constructor.
  - vm_compute. reflexivity.
Defined.

(** C7.  [renameFile] returns before the entry under the new path is
    written.  The call awaits nothing: it deletes the key of the old path,
    starts the update and returns.  For a markdown file that no view shows
    with a content, so that the update reads it from disk: when the call
    returns, the read is still pending and [_dict] is what it was without
    the key of the old path, so [getFileFor] of the old path is absent but
    [getFileFor] of the new path is what it was before the call, not the
    extraction of the content; the group of the items extracted from the
    content is there only once the read has been delivered.  The old path
    differs from the new one and is no name [_dict] inherits. *)
Theorem rename_returns_before_new_entry
  (removeMd : jsstring -> jsstring) (app : App) (d : Dict)
  (f : TAbstractFile) (oldPath md : jsstring)
  (Hpath : oldPath <> path f)
  (Hold : inheritedName oldPath = false)
  (Hopen : forall v, openContent app (path f) = Some v -> truthy v = false)
  (Hext : Path.extname (path f) = js ".md")
  (Hread : read app (path f) = Some md) :
  let r := renameFile removeMd app d f oldPath in
  r = (dictDelete d oldPath, ReadOf f) /\
  getFileForValue (fst r) oldPath = IsUndefined /\
  getFileFor (fst r) oldPath = None /\
  getFileFor (fst r) (path f) = getFileFor d (path f) /\
  getFileFor (settle removeMd app r) oldPath = None /\
  getFileFor (settle removeMd app r) (path f)
  = groupOf f (extract removeMd md).
Proof.
  intros r.
  assert (Er : r = (dictDelete d oldPath, ReadOf f)).
  { unfold r, renameFile, updateFile, loadFileFromWorkspace,
      loadFileFromDisk.
    rewrite Hext, str_eqb_refl. cbn [negb].
    destruct (openContent app (path f)) as [v|] eqn:E; [|reflexivity].
    rewrite (Hopen v eq_refl). reflexivity. }
  assert (Es : settle removeMd app r
               = loadFile removeMd (dictDelete d oldPath) f md).
  { rewrite Er. unfold settle. cbn [fst snd afterRead]. rewrite Hread.
    reflexivity. }
  split; [exact Er|]. rewrite Es, Er. cbn [fst].
  split; [|split; [|split; [|split]]].
  - unfold getFileForValue. rewrite dictGet_delete_same, Hold. reflexivity.
  - unfold getFileFor. rewrite dictGet_delete_same. reflexivity.
  - unfold getFileFor. rewrite dictGet_delete_other by exact Hpath.
    reflexivity.
  - unfold getFileFor, loadFile. rewrite dictGet_set_other by congruence.
    rewrite dictGet_delete_same. reflexivity.
  - unfold getFileFor, loadFile. rewrite dictGet_set_same.
    destruct (groupOf f (extract removeMd md)); reflexivity.
Qed.

Lemma rename_returns_before_new_entry_witness :
  getFileFor twoNotes (js "a.md") = Some (mkGroup file_a [Str (js "x")]) /\
  read diskOnly (js "b.md") = Some (js "TODO: y") /\
  renameFile plain diskOnly twoNotes file_b (js "a.md")
  = (dictDelete twoNotes (js "a.md"), ReadOf file_b) /\
  getFileFor (fst (renameFile plain diskOnly twoNotes file_b (js "a.md")))
    (js "a.md") = None /\
  getFileFor (fst (renameFile plain diskOnly twoNotes file_b (js "a.md")))
    (js "b.md") = None /\
  getFileFor
    (settle plain diskOnly (renameFile plain diskOnly twoNotes file_b (js "a.md")))
    (js "b.md") = Some (mkGroup file_b [Str (js "y")]).
Proof.
  assert (Hne : js "a.md" <> path file_b) by (vm_compute; discriminate).
  assert (Hold : inheritedName (js "a.md") = false)
    by (vm_compute; reflexivity).
  assert (Hopen : forall v, openContent diskOnly (path file_b) = Some v ->
                            truthy v = false)
    by (intros v Hv; vm_compute in Hv; discriminate).
  assert (Hext : Path.extname (path file_b) = js ".md")
    by (vm_compute; reflexivity).
  assert (Hread : read diskOnly (path file_b) = Some (js "TODO: y"))
    by (vm_compute; reflexivity).
  destruct (rename_returns_before_new_entry plain diskOnly twoNotes file_b
              (js "a.md") (js "TODO: y") Hne Hold Hopen Hext Hread)
    as [Er [_ [Ho [Hn [_ Hs]]]]].
  split; [vm_compute; reflexivity|].
  split; [exact Hread|].
  split; [exact Er|].
  split; [exact Ho|].
  split; [|exact Hs].
  change (js "b.md") with (path file_b). rewrite Hn. vm_compute. reflexivity.
Defined.

(** C10.  For every state of the index and every path [q] other than the
    path of [f]: [loadFile] for [f], [updateFile] for [f] (at its return,
    at the delivery of the read it awaits, and run to completion) and
    [deleteFile] of [f] leave the entry at [q] as it was, so [getFileFor]
    of [q] returns the same before and after; and [deleteFile] of a file
    whose path has no entry leaves the whole of [_dict] as it was. *)
Theorem frame_property
  (removeMd : jsstring -> jsstring) (app : App) (d : Dict)
  (f : TAbstractFile) (md q : jsstring) (result : option jsstring)
  (Hq : path f <> q) :
  unchangedAt q d (loadFile removeMd d f md) /\
  unchangedAt q d (fst (updateFile removeMd app d f)) /\
  unchangedAt q d (afterRead removeMd d (loadFileFromDisk f) result) /\
  unchangedAt q d (settle removeMd app (updateFile removeMd app d f)) /\
  unchangedAt q d (deleteFile d f) /\
  (dictGet d (path f) = None -> deleteFile d f = d).
Proof.
  assert (Hload : forall md0, unchangedAt q d (loadFile removeMd d f md0)).
  { intros md0. apply getFileFor_ext. unfold loadFile.
    apply dictGet_set_other; exact Hq. }
  split; [apply Hload|].
  split.
  { destruct (updateFile_cases removeMd app d f) as [->|[md0 ->]];
      [apply getFileFor_ext; reflexivity | apply Hload]. }
  split.
  { destruct (afterRead_cases removeMd d f result) as [->|[md0 ->]];
      [apply getFileFor_ext; reflexivity | apply Hload]. }
  split.
  { destruct (settle_updateFile_cases removeMd app d f) as [->|[md0 ->]];
      [apply getFileFor_ext; reflexivity | apply Hload]. }
  split.
  { apply getFileFor_ext. unfold deleteFile.
    apply dictGet_delete_other; exact Hq. }
  apply dictDelete_absent.
Qed.

Lemma frame_property_witness :
  path file_b <> js "a.md" /\
  getFileFor (settle plain diskOnly (updateFile plain diskOnly twoNotes file_b))
    (js "a.md")
  = getFileFor twoNotes (js "a.md") /\
  getFileFor (deleteFile twoNotes file_b) (js "a.md")
  = getFileFor twoNotes (js "a.md") /\
  deleteFile twoNotes file_b = twoNotes.
Proof.
  assert (Hne : path file_b <> js "a.md") by (vm_compute; discriminate).
  destruct (frame_property plain diskOnly twoNotes file_b (js "") (js "a.md")
              None Hne) as [_ [_ [_ [[_ Hup] [[_ Hdel] Habs]]]]].
  split; [exact Hne|]. split; [exact Hup|]. split; [exact Hdel|].
  apply Habs. vm_compute. reflexivity.
Defined.
(* ================================================================== *)
(** ** The shape of a line a rule matches *)
(* ================================================================== *)

Lemma greedyStar_split p c : forall s i cap r,
  greedyStar p c i s cap = Some r ->
  exists u v, s = u ++ v /\ Forall (fun ch => p ch = true) u /\
              c (mkState (i + List.length u) v cap) = Some r.
Proof.
  induction s as [|ch s IH]; intros i cap r H; simpl in H.
  - exists [], []. rewrite Nat.add_0_r. auto.
  - destruct (p ch) eqn:Ep.
    + destruct (greedyStar p c (S i) s cap) eqn:E.
      * simpl in H. rewrite <- H. destruct (IH _ _ _ E) as [u [v [-> [Hu Hc]]]].
        exists (ch :: u), v. simpl. rewrite <- Nat.add_succ_comm. auto.
      * simpl in H. exists [], (ch :: s). rewrite Nat.add_0_r. auto.
    + exists [], (ch :: s). rewrite Nat.add_0_r. auto.
Qed.

Lemma lazyStar_split p c : forall s i cap r,
  lazyStar p c i s cap = Some r ->
  exists u v, s = u ++ v /\ Forall (fun ch => p ch = true) u /\
              c (mkState (i + List.length u) v cap) = Some r.
Proof.
  induction s as [|ch s IH]; intros i cap r H; simpl in H.
  - exists [], []. rewrite Nat.add_0_r. repeat split; [constructor|].
    destruct (c (mkState i [] cap)); [exact H | discriminate].
  - destruct (c (mkState i (ch :: s) cap)) eqn:E0.
    + exists [], (ch :: s). rewrite Nat.add_0_r. simpl in H.
      repeat split; [constructor | congruence].
    + simpl in H. destruct (p ch) eqn:Ep; [|discriminate].
      destruct (IH _ _ _ H) as [u [v [-> [Hu Hc]]]].
      exists (ch :: u), v. simpl. rewrite <- Nat.add_succ_comm. auto.
Qed.

Lemma plusLazy_split p c i s cap r :
  m (plusLazy (Char p)) (mkState i s cap) c = Some r ->
  exists a u v, s = a :: u ++ v /\ p a = true /\
                Forall (fun ch => p ch = true) u /\
                c (mkState (S i + List.length u) v cap) = Some r.
Proof.
  rewrite m_plusLazy_char. destruct s as [|a s]; [discriminate|].
  destruct (p a) eqn:Ea; [|discriminate]. intros H.
  destruct (lazyStar_split _ _ _ _ _ _ H) as [u [v [-> [Hu Hc]]]].
  exists a, u, v. auto.
Qed.

Lemma plus_split p c i s cap r :
  m (plus (Char p)) (mkState i s cap) c = Some r ->
  exists a u v, s = a :: u ++ v /\ p a = true /\
                Forall (fun ch => p ch = true) u /\
                c (mkState (S i + List.length u) v cap) = Some r.
Proof.
  rewrite m_plus_char. destruct s as [|a s]; [discriminate|].
  destruct (p a) eqn:Ea; [|discriminate]. intros H.
  destruct (greedyStar_split _ _ _ _ _ _ H) as [u [v [-> [Hu Hc]]]].
  exists a, u, v. auto.
Qed.

Lemma m_Char_split p i s cap c r :
  m (Char p) (mkState i s cap) c = Some r ->
  exists a s', s = a :: s' /\ p a = true /\
               c (mkState (S i) s' cap) = Some r.
Proof.
  rewrite m_Char_eq. cbn [rest endIndex cap1].
  destruct s as [|a s']; [discriminate|].
  destruct (p a) eqn:Ea; [|discriminate]. intros H. exists a, s'. auto.
Qed.

Lemma m_Eol_split x r : m Eol x Some = Some r -> rest x = [] /\ r = x.
Proof.
  destruct x as [i s cap]. simpl. destruct s; [|discriminate].
  intros H; injection H as <-. auto.
Qed.

(** A pattern that starts with [^] matches at index 0 or not at all. *)
Lemma execFrom_anchored r : forall s i, execFrom (Seq Bol r) (S i) s = None.
Proof.
  induction s as [|ch s IH]; intros i; simpl; [reflexivity|]. apply IH.
Qed.

Lemma match_anchored r line res :
  match_ (Seq Bol r) line = Some res ->
  exists y, m r (mkState 0 line None) Some = Some y /\
            res = mkResult 0 (endIndex y) (cap1 y).
Proof.
  unfold match_. intros H.
  assert (E : matchAt (Seq Bol r) 0 line = Some res).
  { destruct line as [|ch s]; simpl in H.
    - destruct (matchAt (Seq Bol r) 0 []); [exact H | discriminate].
    - destruct (matchAt (Seq Bol r) 0 (ch :: s)); [exact H|].
      rewrite execFrom_anchored in H. discriminate. }
  unfold matchAt in E. rewrite m_Seq_eq in E. cbn [m endIndex Nat.eqb] in E.
  destruct (m r (mkState 0 line None) Some) as [y|]; [|discriminate].
  exists y. split; [reflexivity | congruence].
Qed.

(** Where [LABEL_TAIL] matches: marker, whitespace, colon, whitespace and
    a capture that runs to the end of the line. *)
Lemma tail_shape i s cap0 y :
  m LABEL_TAIL (mkState i s cap0) Some = Some y ->
  exists gap1 gap2 a t,
    s = js "TODO" ++ gap1 ++ COLON :: gap2 ++ a :: t /\
    Forall (fun ch => isWhiteSpace ch = true) gap1 /\
    Forall (fun ch => isWhiteSpace ch = true) gap2 /\
    Forall (fun ch => isDot ch = true) (a :: t) /\
    cap1 y = Some (a :: t).
Proof.
  unfold LABEL_TAIL. cbn [seqs]. rewrite m_Seq_eq. intros H.
  apply m_TODO_sound in H. cbn [rest endIndex cap1] in H.
  destruct H as [s1 [-> H]].
  rewrite m_Seq_eq in H. unfold ws at 1 in H. rewrite m_star_char in H.
  apply greedyStar_split in H. destruct H as [gap1 [v1 [-> [H1 H]]]].
  rewrite m_Seq_eq in H. unfold lit at 1 in H.
  apply m_Char_split in H. destruct H as [c0 [s2 [-> [Hc H]]]].
  apply N.eqb_eq in Hc. subst c0.
  rewrite m_Seq_eq in H. unfold ws at 1 in H. rewrite m_star_char in H.
  apply greedyStar_split in H. destruct H as [gap2 [v2 [-> [H2 H]]]].
  rewrite m_Seq_eq, m_Group_eq in H. unfold dot in H.
  apply plusLazy_split in H. destruct H as [a [u [v [-> [Ha [Hu H]]]]]].
  apply m_Eol_split in H. cbn [rest endIndex] in H. destruct H as [-> ->].
  exists gap1, gap2, a, u. rewrite app_nil_r.
  split; [reflexivity|]. split; [exact H1|]. split; [exact H2|].
  split; [constructor; assumption|].
  cbn [cap1]. f_equal.
  match goal with |- firstn ?n _ = _ =>
    replace n with (S (List.length u)) by lia end.
  cbn [firstn]. rewrite firstn_all. reflexivity.
Qed.

Lemma matchText_inv r line t :
  matchText r line = Some t ->
  exists res g, match_ r line = Some res /\ group1 res = Some g /\
                t = trim g.
Proof.
  unfold matchText. destruct (match_ r line) as [res|]; [|discriminate].
  destruct (group1 res) as [g|] eqn:Eg; [|discriminate].
  destruct (truthy (trim g)); [|discriminate].
  intros H; injection H as <-. exists res, g. auto.
Qed.

Lemma trailing_tail_shape i s cap0 y :
  m TRAILING_TAIL (mkState i s cap0) Some = Some y ->
  exists b g gap2,
    s = b :: g ++ js "TODO" ++ gap2 /\
    Forall (fun ch => isWhiteSpace ch = true) (b :: g) /\
    Forall (fun ch => isWhiteSpace ch = true) gap2 /\
    cap1 y = cap0.
Proof.
  unfold TRAILING_TAIL. cbn [seqs]. rewrite m_Seq_eq. unfold ws at 1.
  intros H. apply plus_split in H. destruct H as [b [g [v [-> [Hb [Hg H]]]]]].
  rewrite m_Seq_eq in H. apply m_TODO_sound in H. cbn [rest endIndex cap1] in H.
  destruct H as [s1 [-> H]].
  rewrite m_Seq_eq in H. unfold ws at 1 in H. rewrite m_star_char in H.
  apply greedyStar_split in H. destruct H as [gap2 [v2 [-> [H2 H]]]].
  apply m_Eol_split in H. cbn [rest] in H. destruct H as [-> ->].
  exists b, g, gap2. rewrite app_nil_r.
  split; [reflexivity|]. split; [constructor; assumption|].
  split; [exact H2 | reflexivity].
Qed.

Lemma stripPrefix_app pat : forall s, stripPrefix pat (pat ++ s) = Some s.
Proof.
  induction pat as [|a pat IH]; intros s; simpl; [reflexivity|].
  rewrite N.eqb_refl. apply IH.
Qed.

Lemma occurs_app pat : forall a b, occurs pat (a ++ pat ++ b) = true.
Proof.
  induction a as [|x a IH]; intros b.
  - simpl. destruct (pat ++ b) eqn:E; simpl; rewrite <- E, stripPrefix_app;
      reflexivity.
  - simpl. destruct (stripPrefix pat (x :: a ++ pat ++ b)); [reflexivity|].
    apply IH.
Qed.

Lemma labeled_item_inv (line t : jsstring)
  (H : matchText REGEX_LABELED line = Some t) :
  exists pre gap1 gap2 cap,
    line = pre ++ js "TODO" ++ gap1 ++ COLON :: gap2 ++ cap /\
    t = trim cap /\ t <> [] /\
    Forall (fun ch => isDot ch = true) pre /\
    Forall (fun ch => isWhiteSpace ch = true) gap1 /\
    Forall (fun ch => isWhiteSpace ch = true) gap2 /\
    Forall (fun ch => isDot ch = true) cap.
Proof.
  destruct (matchText_trimmed _ _ _ H) as [Hne _].
  destruct (matchText_inv _ _ _ H) as [res [g [Hm [Hg ->]]]].
  change REGEX_LABELED with (Seq Bol (Seq (star dot) LABEL_TAIL)) in Hm.
  apply match_anchored in Hm. destruct Hm as [y [Hy ->]].
  rewrite m_Seq_eq in Hy. unfold dot in Hy. rewrite m_star_char in Hy.
  apply greedyStar_split in Hy. destruct Hy as [pre [v [-> [Hpre Hy]]]].
  apply tail_shape in Hy.
  destruct Hy as [gap1 [gap2 [a [u [-> [H1 [H2 [Hd Hc]]]]]]]].
  cbn [group1] in Hg. rewrite Hc in Hg. injection Hg as <-.
  exists pre, gap1, gap2, (a :: u). repeat split; assumption.
Qed.

Lemma trailing_item_inv (line t : jsstring)
  (H : matchText REGEX_TRAILING line = Some t) :
  exists cap gap gap2,
    line = cap ++ gap ++ js "TODO" ++ gap2 /\
    t = trim cap /\ t <> [] /\
    gap <> [] /\
    Forall (fun ch => isDot ch = true) cap /\
    Forall (fun ch => isWhiteSpace ch = true) gap /\
    Forall (fun ch => isWhiteSpace ch = true) gap2.
Proof.
  destruct (matchText_trimmed _ _ _ H) as [Hne _].
  destruct (matchText_inv _ _ _ H) as [res [g0 [Hm [Hg ->]]]].
  change REGEX_TRAILING
    with (Seq Bol (Seq (Group (plusLazy dot)) TRAILING_TAIL)) in Hm.
  apply match_anchored in Hm. destruct Hm as [y [Hy ->]].
  rewrite m_Seq_eq, m_Group_eq in Hy. unfold dot in Hy.
  apply plusLazy_split in Hy. destruct Hy as [a [u [v [-> [Ha [Hu Hy]]]]]].
  cbn [rest endIndex] in Hy.
  apply trailing_tail_shape in Hy.
  destruct Hy as [b [g [gap2 [-> [Hg1 [Hg2 Hc]]]]]].
  cbn [group1] in Hg. rewrite Hc in Hg. injection Hg as <-.
  replace (1 + List.length u - 0) with (S (List.length u)) in * by lia.
  cbn [firstn] in *. rewrite firstn_app, firstn_all, Nat.sub_diag in *.
  cbn [firstn] in *. rewrite app_nil_r in *.
  exists (a :: u), (b :: g), gap2.
  split; [reflexivity|]. split; [reflexivity|]. split; [exact Hne|].
  split; [discriminate|]. split; [constructor; assumption|].
  split; assumption.
Qed.

Lemma embedded_item_inv (line t : jsstring)
  (H : matchText REGEX_EMBEDDED line = Some t) :
  t = trim line /\
  exists before op cl after,
    line = before ++ op :: js "TODO" ++ cl :: after /\
    before <> [] /\ after <> [] /\
    isOpening op = true /\ isClosing cl = true /\
    Forall (fun ch => isDot ch = true) before /\
    Forall (fun ch => isDot ch = true) after.
Proof.
  destruct (matchText_inv _ _ _ H) as [res [g0 [Hm [Hg ->]]]].
  change REGEX_EMBEDDED
    with (Seq Bol
            (Seq (Group (Seq (plusLazy dot)
                           (Seq (Char isOpening)
                              (Seq TODO (Seq (Char isClosing) (plusLazy dot))))))
               Eol)) in Hm.
  apply match_anchored in Hm. destruct Hm as [y [Hy ->]].
  rewrite m_Seq_eq, m_Group_eq, m_Seq_eq in Hy. unfold dot at 1 in Hy.
  apply plusLazy_split in Hy. destruct Hy as [a [u [v [-> [Ha [Hu Hy]]]]]].
  rewrite m_Seq_eq in Hy.
  apply m_Char_split in Hy. destruct Hy as [op [v1 [-> [Hop Hy]]]].
  rewrite m_Seq_eq in Hy. apply m_TODO_sound in Hy.
  cbn [rest endIndex cap1] in Hy. destruct Hy as [v2 [-> Hy]].
  rewrite m_Seq_eq in Hy.
  apply m_Char_split in Hy. destruct Hy as [cl [v3 [-> [Hcl Hy]]]].
  unfold dot in Hy.
  apply plusLazy_split in Hy. destruct Hy as [b [w [v4 [-> [Hb [Hw Hy]]]]]].
  cbn [rest endIndex] in Hy.
  apply m_Eol_split in Hy. cbn [rest] in Hy. destruct Hy as [-> ->].
  cbn [group1 cap1] in Hg. rewrite app_nil_r in *.
  rewrite firstn_all2 in Hg.
  - injection Hg as <-. split; [reflexivity|].
    exists (a :: u), op, cl, (b :: w).
    split; [reflexivity|]. split; [discriminate|]. split; [discriminate|].
    split; [exact Hop|]. split; [exact Hcl|].
    split; constructor; assumption.
  - cbn [List.length]. rewrite !length_app. cbn [List.length].
    rewrite !length_app. cbn [List.length].
    change (List.length (js "TODO")) with 4. lia.
Qed.

(** X1.  An item of the labeled rule is the trimmed text that follows a
    marker, whitespace if any, a colon and whitespace if any, up to the end
    of the line; nothing in front of the marker and nothing of the capture
    is a line terminator. *)
Theorem labeled_rule_shape (line t : jsstring)
  (H : matchText REGEX_LABELED line = Some t) :
  exists pre gap1 gap2 cap,
    line = pre ++ js "TODO" ++ gap1 ++ COLON :: gap2 ++ cap /\
    t = trim cap /\ t <> [] /\
    Forall (fun ch => isDot ch = true) pre /\
    Forall (fun ch => isWhiteSpace ch = true) gap1 /\
    Forall (fun ch => isWhiteSpace ch = true) gap2 /\
    Forall (fun ch => isDot ch = true) cap.
Proof. exact (labeled_item_inv line t H). Qed.

Lemma labeled_rule_shape_witness :
  matchText REGEX_LABELED (js "note TODO : call  mom") = Some (js "call  mom") /\
  exists pre gap1 gap2 cap,
    js "note TODO : call  mom"
    = pre ++ js "TODO" ++ gap1 ++ COLON :: gap2 ++ cap /\
    js "call  mom" = trim cap.
Proof.
  assert (H : matchText REGEX_LABELED (js "note TODO : call  mom")
              = Some (js "call  mom")) by (vm_compute; reflexivity).
  split; [exact H|].
  destruct (labeled_rule_shape _ _ H)
    as [pre [gap1 [gap2 [cap [E [Ht _]]]]]].
  exists pre, gap1, gap2, cap. split; assumption.
Defined.

(** X2.  An item of the trailing rule is the trimmed text in front of
    whitespace and a marker that ends the line, whitespace apart; the text
    is not empty and holds no line terminator. *)
Theorem trailing_rule_shape (line t : jsstring)
  (H : matchText REGEX_TRAILING line = Some t) :
  exists cap gap gap2,
    line = cap ++ gap ++ js "TODO" ++ gap2 /\
    t = trim cap /\ t <> [] /\
    gap <> [] /\
    Forall (fun ch => isDot ch = true) cap /\
    Forall (fun ch => isWhiteSpace ch = true) gap /\
    Forall (fun ch => isWhiteSpace ch = true) gap2.
Proof. exact (trailing_item_inv line t H). Qed.

Lemma trailing_rule_shape_witness :
  matchText REGEX_TRAILING (js "finish the report  TODO")
  = Some (js "finish the report") /\
  exists cap gap gap2,
    js "finish the report  TODO" = cap ++ gap ++ js "TODO" ++ gap2 /\
    js "finish the report" = trim cap.
Proof.
  assert (H : matchText REGEX_TRAILING (js "finish the report  TODO")
              = Some (js "finish the report")) by (vm_compute; reflexivity).
  split; [exact H|].
  destruct (trailing_rule_shape _ _ H) as [cap [gap [gap2 [E [Ht _]]]]].
  exists cap, gap, gap2. split; assumption.
Defined.

(** X3.  An item of the embedded rule is the whole line, trimmed: the rule
    never cuts a line.  The line then holds the marker between an opening
    class (whitespace or a left parenthesis) and a closing class (a right
    parenthesis or whitespace), with text on both sides. *)
Theorem embedded_rule_shape (line t : jsstring)
  (H : matchText REGEX_EMBEDDED line = Some t) :
  t = trim line /\
  exists before op cl after,
    line = before ++ op :: js "TODO" ++ cl :: after /\
    before <> [] /\ after <> [] /\
    isOpening op = true /\ isClosing cl = true /\
    Forall (fun ch => isDot ch = true) before /\
    Forall (fun ch => isDot ch = true) after.
Proof. exact (embedded_item_inv line t H). Qed.

Lemma embedded_rule_shape_witness :
  matchText REGEX_EMBEDDED (js "please (TODO) check this")
  = Some (js "please (TODO) check this") /\
  js "please (TODO) check this" = trim (js "please (TODO) check this").
Proof.
  assert (H : matchText REGEX_EMBEDDED (js "please (TODO) check this")
              = Some (js "please (TODO) check this"))
    by (vm_compute; reflexivity).
  split; [exact H|].
  exact (proj1 (embedded_rule_shape _ _ H)).
Defined.

(* ================================================================== *)
(** ** Lines without the marker, the order of the items, the bare marker *)
(* ================================================================== *)

Lemma occurs_marker_cons a b : containsMarker (a ++ js "TODO" ++ b) = true.
Proof. apply occurs_app. Qed.

(** No rule matches a line in which the marker does not occur. *)
Lemma firstMatch_needs_marker line :
  containsMarker line = false -> firstMatch TODO_REGEXES line = None.
Proof.
  intros Hno. unfold TODO_REGEXES. cbn [firstMatch].
  destruct (matchText REGEX_LABELED line) as [t|] eqn:E1.
  { apply labeled_item_inv in E1.
    destruct E1 as [pre [g1 [g2 [cap [-> _]]]]].
    rewrite occurs_marker_cons in Hno. discriminate. }
  destruct (matchText REGEX_TRAILING line) as [t|] eqn:E2.
  { apply trailing_item_inv in E2.
    destruct E2 as [cap [gap [gap2 [-> _]]]].
    rewrite app_assoc, occurs_marker_cons in Hno. discriminate. }
  destruct (matchText REGEX_EMBEDDED line) as [t|] eqn:E3; [|reflexivity].
  apply embedded_item_inv in E3.
  destruct E3 as [_ [before [op [cl [after [-> _]]]]]].
  change (before ++ op :: js "TODO" ++ cl :: after)
    with (before ++ [op] ++ js "TODO" ++ cl :: after) in Hno.
  rewrite app_assoc, occurs_marker_cons in Hno. discriminate.
Qed.

Lemma lineStep_needs_marker lines acc i :
  containsMarker (nth i lines []) = false -> lineStep lines acc i = acc.
Proof.
  intros Hno. unfold lineStep. cbv zeta.
  pose proof (firstMatch_needs_marker _ Hno) as Hf.
  unfold jsstring in *. rewrite Hf.
  destruct (str_eqb (nth i lines []) (js "TODO")) eqn:E; [|reflexivity].
  apply str_eqb_eq in E. rewrite E in Hno.
  vm_compute in Hno. discriminate.
Qed.

(** X4.  A document none of whose lines holds the marker yields no item,
    whatever else the lines hold. *)
Theorem no_marker_no_items
  (removeMd : jsstring -> jsstring) (md : jsstring)
  (H : forallb (fun line => negb (containsMarker line)) (linesOf removeMd md)
       = true) :
  extract removeMd md = [].
Proof.
  unfold extract, scanLines.
  assert (G : forall idxs acc,
            fold_left (lineStep (linesOf removeMd md)) idxs acc = acc).
  { induction idxs as [|i idxs IH]; intros acc; simpl; [reflexivity|].
    rewrite lineStep_needs_marker; [apply IH|].
    destruct (Nat.lt_ge_cases i (List.length (linesOf removeMd md))) as [Hi|Hi].
    - rewrite forallb_forall in H.
      apply negb_true_iff, H, nth_In, Hi.
    - rewrite nth_overflow by exact Hi. reflexivity. }
  apply G.
Qed.

Lemma no_marker_no_items_witness :
  let md := js "buy milk" ++ LF :: js "todo: call mom" ++ LF :: js "TO DO" in
  forallb (fun line => negb (containsMarker line)) (linesOf plain md) = true /\
  extract plain md = [].
Proof.
  split; [vm_compute; reflexivity|].
  apply (no_marker_no_items plain). vm_compute. reflexivity.
Defined.

(** X5.  The items are in the order of the lines: the result is what the
    turns of the lines push, each taken alone, one after the other. *)
Theorem items_in_line_order (lines : list jsstring) :
  scanLines lines
  = flat_map (lineStep lines []) (seq 0 (List.length lines)).
Proof.
  unfold scanLines. generalize (seq 0 (List.length lines)) as idxs.
  induction idxs as [|i idxs IH]; [reflexivity|].
  cbn [fold_left flat_map]. rewrite fold_lineStep_extends, IH. reflexivity.
Qed.

Lemma readahead_takeNonEmpty following : forall acc,
  readahead following acc = acc ++ map Str (takeNonEmpty following).
Proof.
  induction following as [|l following IH]; intros acc; simpl.
  - rewrite app_nil_r. reflexivity.
  - destruct l as [|c l]; simpl.
    + rewrite app_nil_r. reflexivity.
    + rewrite IH, <- app_assoc. reflexivity.
Qed.

(** X6.  The turn of a bare marker that is not the first line: when the
    line before it is not empty the turn pushes that line and nothing
    else; when it is empty the turn pushes the lines after the marker, up
    to the first empty one or the end, and nothing when there is none. *)
Theorem bare_marker_turn
  (lines : list jsstring) (acc : list jsval) (i : nat) (previous : jsstring)
  (Hprev : nth_error lines i = Some previous)
  (Hmark : nth_error lines (S i) = Some (js "TODO")) :
  lineStep lines acc (S i)
  = acc ++ match previous with
           | _ :: _ => [Str previous]
           | [] => map Str (takeNonEmpty (skipn (S (S i)) lines))
           end.
Proof.
  unfold lineStep. cbv zeta.
  rewrite (nth_error_nth _ _ _ Hmark).
  change (firstMatch TODO_REGEXES (js "TODO")) with (@None jsstring).
  rewrite str_eqb_refl.
  replace (Z.of_nat (S i) - 1)%Z with (Z.of_nat i) by lia.
  unfold lineAt.
  replace (Z.of_nat i <? 0)%Z with false by (symmetry; apply Z.ltb_ge; lia).
  rewrite Nat2Z.id, Hprev. cbn [notEmptyString].
  destruct previous as [|c previous]; cbn [str_eqb negb].
  - replace (S i + 1) with (S (S i)) by lia. apply readahead_takeNonEmpty.
  - reflexivity.
Qed.

Lemma bare_marker_turn_witness :
  let lines := [js "x"; js ""; js "TODO"; js "a"; js "b"; js ""; js "c"] in
  lineStep lines [] 2 = [Str (js "a"); Str (js "b")] /\
  lineStep [js "buy eggs"; js "TODO"; js "later"] [] 1 = [Str (js "buy eggs")].
Proof.
  split.
  - exact (bare_marker_turn
             [js "x"; js ""; js "TODO"; js "a"; js "b"; js ""; js "c"]
             [] 1 (js "") eq_refl eq_refl).
  - exact (bare_marker_turn [js "buy eggs"; js "TODO"; js "later"]
             [] 0 (js "buy eggs") eq_refl eq_refl).
Defined.

(* ================================================================== *)
(** ** The trailing rule on a line that ends with the marker *)
(* ================================================================== *)

(** The first index where the continuation succeeds is the one a lazy [*]
    returns, when it can reach it. *)
Lemma lazyStar_first p c : forall u v i cap r,
  Forall (fun ch => p ch = true) u ->
  c (mkState (i + List.length u) v cap) = Some r ->
  (forall u1 u2, u = u1 ++ u2 -> u2 <> [] ->
                 c (mkState (i + List.length u1) (u2 ++ v) cap) = None) ->
  lazyStar p c i (u ++ v) cap = Some r.
Proof.
  induction u as [|a u IH]; intros v i cap r Hu Hc Hfail.
  - simpl in *. rewrite Nat.add_0_r in Hc.
    destruct v; simpl; rewrite Hc; reflexivity.
  - inversion Hu as [|? ? Ha Hu']; subst.
    cbn [app lazyStar].
    pose proof (Hfail [] (a :: u) eq_refl ltac:(discriminate)) as H0.
    simpl in H0. rewrite Nat.add_0_r in H0. rewrite H0, Ha. cbn [orElse].
    apply IH; [exact Hu' | |].
    + simpl in Hc. rewrite Nat.add_succ_comm. exact Hc.
    + intros u1 u2 E Hne. specialize (Hfail (a :: u1) u2).
      simpl in Hfail. rewrite Nat.add_succ_comm. apply Hfail; [|exact Hne].
      rewrite E. reflexivity.
Qed.

Lemma m_Bol_zero s cap c :
  m Bol (mkState 0 s cap) c = c (mkState 0 s cap).
Proof. reflexivity. Qed.

Lemma trim_fixed (s : jsstring) :
  headNotSpace s -> headNotSpace (rev s) -> trim s = s.
Proof.
  intros H1 H2. unfold trim, trimEnd.
  rewrite (trimStart_fixed s H1), (trimStart_fixed (rev s) H2).
  apply rev_involutive.
Qed.

Lemma trailing_tail_run i b g cap :
  Forall (fun ch => isWhiteSpace ch = true) (b :: g) ->
  exists e,
    m TRAILING_TAIL (mkState i (b :: g ++ js "TODO") cap) Some
    = Some (mkState e [] cap).
Proof.
  intros Hg. inversion Hg as [|? ? Hb Hg']; subst. eexists.
  unfold TRAILING_TAIL. cbn [seqs]. rewrite m_Seq_eq. unfold ws at 1.
  rewrite m_plus_char, Hb.
  apply greedyStar_run; [exact Hg' | | reflexivity].
  reflexivity.
Qed.

(** [\s+TODO\s*$] does not match right after a code unit that is not
    whitespace unless whitespace follows it. *)
Lemma trailing_tail_after_text i front z gap cap y :
  isWhiteSpace z = false ->
  m TRAILING_TAIL (mkState i ((front ++ [z]) ++ gap ++ js "TODO") cap) Some
  = Some y ->
  False.
Proof.
  intros Hz H. apply trailing_tail_shape in H.
  destruct H as [b [g [gap2 [E [Hg [Hg2 _]]]]]].
  destruct gap2 as [|w gap2' _] using rev_ind.
  - rewrite app_nil_r in E. rewrite app_assoc in E.
    change (b :: g ++ js "TODO") with ((b :: g) ++ js "TODO") in E.
    apply app_inv_tail in E. rewrite <- E in Hg.
    apply Forall_app in Hg. destruct Hg as [Hg _].
    apply Forall_app in Hg. destruct Hg as [_ Hg].
    inversion Hg as [|? ? Hz' _]; subst. congruence.
  - change (js "TODO") with ([84; 79; 68] ++ [79])%N in E at 1.
    assert (E' : ((front ++ [z]) ++ gap ++ [84; 79; 68]%N) ++ [79%N]
                 = (b :: g ++ js "TODO" ++ gap2') ++ [w]).
    { repeat rewrite <- app_assoc. repeat rewrite <- app_assoc in E.
      simpl in *. repeat rewrite <- app_assoc. exact E. }
    apply app_inj_tail in E'. destruct E' as [_ <-].
    apply Forall_app in Hg2. destruct Hg2 as [_ Hg2].
    inversion Hg2 as [|? ? Hw _]; subst. vm_compute in Hw. discriminate.
Qed.

(** X7.  A line that is a text without colon, then whitespace, then the
    marker: the trailing rule yields the text, and this is the item of the
    line.  The text starts and ends with a code unit that is not
    whitespace and holds no line terminator. *)
Theorem trailing_rule_complete
  (a : N) (t gap : jsstring)
  (Hdot : Forall (fun ch => isDot ch = true) (a :: t))
  (Hhead : isWhiteSpace a = false)
  (Hlast : isWhiteSpace (last (a :: t) a) = false)
  (Hcolon : ~ In COLON (a :: t))
  (Hgap : gap <> [])
  (Hws : Forall (fun ch => isWhiteSpace ch = true) gap) :
  let line := (a :: t) ++ gap ++ js "TODO" in
  matchText REGEX_TRAILING line = Some (a :: t) /\
  firstMatch TODO_REGEXES line = Some (a :: t) /\
  forall lines acc lineIdx,
    nth_error lines lineIdx = Some line ->
    lineStep lines acc lineIdx = acc ++ [Str (a :: t)].
Proof.
  intros line.
  destruct gap as [|b g]; [congruence|].
  inversion Hdot as [|? ? Ha Ht]; subst.
  assert (Hm : exists e,
            m REGEX_TRAILING (mkState 0 line None) Some
            = Some (mkState e [] (Some (a :: t)))).
  { destruct (trailing_tail_run (1 + List.length t) b g
                (Some (a :: t)) Hws) as [e He].
    exists e.
    change REGEX_TRAILING
      with (Seq Bol (Seq (Group (plusLazy dot)) TRAILING_TAIL)).
    rewrite m_Seq_eq, m_Bol_zero, m_Seq_eq, m_Group_eq.
    unfold dot. rewrite m_plusLazy_char.
    unfold line. cbn [app]. unfold isDot in Ha. rewrite Ha.
    assert (Hcap : forall v : jsstring,
              firstn (1 + List.length t - 0) (a :: t ++ v) = a :: t).
    { intros v. replace (1 + List.length t - 0) with (S (List.length t)) by lia.
      cbn [firstn]. rewrite firstn_app, firstn_all, Nat.sub_diag.
      cbn [firstn]. rewrite app_nil_r. reflexivity. }
    apply lazyStar_first; [exact Ht | |].
    - cbn [endIndex rest]. rewrite Hcap. exact He.
    - intros u1 u2 E Hne. cbn [endIndex rest].
      match goal with |- ?lhs = None => destruct lhs as [y|] eqn:Ey end;
        [|reflexivity].
      exfalso.
      destruct (exists_last Hne) as [front [z Eu2]]. subst u2.
      eapply (trailing_tail_after_text _ front z (b :: g)); [|exact Ey].
      assert (El : last (a :: t) a = z).
      { rewrite E, app_assoc, app_comm_cons. apply last_last. }
      rewrite El in Hlast. exact Hlast. }
  destruct Hm as [e Hm].
  assert (Htrim : trim (a :: t) = a :: t).
  { apply trim_fixed; [exact Hhead|].
    destruct (exists_last (l := a :: t) ltac:(discriminate)) as [q [z Eq]].
    rewrite Eq in Hlast. rewrite last_last in Hlast.
    rewrite Eq, rev_app_distr. exact Hlast. }
  assert (Ht1 : matchText REGEX_TRAILING line = Some (a :: t)).
  { unfold matchText, match_.
    rewrite (execFrom_hit _ _ _ (mkResult 0 e (Some (a :: t)))).
    - cbn [group1]. rewrite Htrim. reflexivity.
    - unfold matchAt. rewrite Hm. reflexivity. }
  assert (Hf : firstMatch TODO_REGEXES line = Some (a :: t)).
  { unfold TODO_REGEXES. cbn [firstMatch].
    destruct (matchText REGEX_LABELED line) as [x|] eqn:E1.
    - exfalso. apply labeled_item_inv in E1.
      destruct E1 as [pre [g1 [g2 [cap [E _]]]]].
      assert (Hin : In COLON line).
      { rewrite E. apply in_or_app. right. apply in_or_app. right.
        apply in_or_app. right. left. reflexivity. }
      unfold line in Hin. apply in_app_or in Hin. destruct Hin as [Hin|Hin].
      + exact (Hcolon Hin).
      + apply in_app_or in Hin. destruct Hin as [Hin|Hin].
        * rewrite Forall_forall in Hws. apply Hws in Hin.
          vm_compute in Hin. discriminate.
        * vm_compute in Hin. intuition discriminate.
    - rewrite Ht1. reflexivity. }
  split; [exact Ht1|]. split; [exact Hf|].
  intros lines acc lineIdx Hn. unfold lineStep. cbv zeta.
  rewrite (nth_error_nth _ _ _ Hn). fold line. rewrite Hf. reflexivity.
Qed.

Lemma trailing_rule_complete_witness :
  firstMatch TODO_REGEXES (js "ask (TODO) Bob" ++ js "  " ++ js "TODO")
  = Some (js "ask (TODO) Bob").
Proof.
  refine (proj1 (proj2 (trailing_rule_complete 97%N (js "sk (TODO) Bob")
                          (js "  ") _ eq_refl eq_refl _ _ _))).
  - apply all_in_class. reflexivity.
  - vm_compute. intuition discriminate.
  - discriminate.
  - apply all_in_class. reflexivity.
Defined.

(* ================================================================== *)
(** ** Stripping links *)
(* ================================================================== *)

Lemma firstn_takeWhile p : forall s : jsstring,
  firstn (List.length (Path.takeWhile p s)) s = Path.takeWhile p s.
Proof.
  induction s as [|x s IH]; simpl; [reflexivity|].
  destruct (p x); simpl; [rewrite IH|]; reflexivity.
Qed.

(** A greedy [*] followed by something that cannot start inside the class
    gives up nothing: it goes on from the end of the longest run. *)
Lemma greedyStar_maximal p c cap :
  (forall j x v, p x = true -> c (mkState j (x :: v) cap) = None) ->
  forall s i,
    greedyStar p c i s cap
    = c (mkState (i + List.length (Path.takeWhile p s))
           (skipn (List.length (Path.takeWhile p s)) s) cap).
Proof.
  intros Hc. induction s as [|x s IH]; intros i; simpl.
  - rewrite Nat.add_0_r. reflexivity.
  - destruct (p x) eqn:Ex; simpl.
    + rewrite IH, (Hc i x s Ex), orElse_None_r, Nat.add_succ_comm.
      reflexivity.
    + rewrite Nat.add_0_r. reflexivity.
Qed.

(** The link pattern at a fixed index is what [linkAt] says. *)
Lemma matchAt_link i s :
  matchAt REGEX_LINK i s
  = match linkAt s with
    | Some (target, n) => Some (mkResult i (i + n) (Some target))
    | None => None
    end.
Proof.
  unfold matchAt.
  change REGEX_LINK
    with (Seq (lit "[") (Seq (lit "[")
            (Seq (Group (plus (Char notRBracket)))
               (Seq (lit "]") (lit "]"))))).
  unfold lit. rewrite m_Seq_eq, m_Char_eq. cbn [rest endIndex cap1].
  destruct s as [|a s]; [reflexivity|].
  destruct s as [|b s1].
  { destruct (N.eqb (N_of_ascii "[") a); reflexivity. }
  unfold linkAt. change LBRACKET with (N_of_ascii "[").
  rewrite (N.eqb_sym a), (N.eqb_sym b).
  destruct (N.eqb (N_of_ascii "[") a); [|reflexivity].
  rewrite m_Seq_eq, m_Char_eq. cbn [rest endIndex cap1 andb].
  destruct (N.eqb (N_of_ascii "[") b); [|reflexivity].
  rewrite m_Seq_eq, m_Group_eq, m_plus_char.
  change (fun c => negb (N.eqb c RBRACKET)) with notRBracket.
  destruct s1 as [|x s1]; [reflexivity|]. cbn [Path.takeWhile].
  destruct (notRBracket x) eqn:Ex; [|reflexivity].
  rewrite greedyStar_maximal.
  2:{ intros j y v Hy. cbn [endIndex rest]. rewrite m_Seq_eq, m_Char_eq.
      cbn [rest]. unfold notRBracket in Hy. rewrite N.eqb_sym.
      apply negb_true_iff in Hy. rewrite Hy. reflexivity. }
  cbn [endIndex rest List.length skipn].
  set (target := Path.takeWhile notRBracket s1).
  rewrite m_Seq_eq, m_Char_eq. cbn [rest endIndex cap1].
  destruct (skipn (List.length target) s1) as [|c0 after] eqn:Es;
    [reflexivity|].
  change RBRACKET with (N_of_ascii "]"). rewrite (N.eqb_sym c0).
  destruct (N.eqb (N_of_ascii "]") c0); [|destruct after; reflexivity].
  rewrite m_Char_eq. cbn [rest endIndex cap1].
  destruct after as [|d0 after]; [reflexivity|].
  rewrite (N.eqb_sym d0). cbn [andb].
  destruct (N.eqb (N_of_ascii "]") d0); [|reflexivity].
  cbn [endIndex cap1].
  replace (S (S (S i)) + List.length target - S (S i))
    with (S (List.length target)) by lia.
  cbn [firstn]. unfold target. rewrite firstn_takeWhile.
  do 2 f_equal. lia.
Qed.

Lemma linkAt_length s target n :
  linkAt s = Some (target, n) -> 0 < n <= List.length s.
Proof.
  unfold linkAt. destruct s as [|a [|b s1]]; try discriminate.
  destruct (N.eqb a LBRACKET && N.eqb b LBRACKET); [|discriminate].
  set (t := Path.takeWhile (fun c => negb (N.eqb c RBRACKET)) s1).
  destruct t as [|x t'] eqn:Et; [discriminate|].
  destruct (skipn (List.length (x :: t')) s1) as [|c [|d v]] eqn:Es;
    try discriminate.
  destruct (N.eqb c RBRACKET && N.eqb d RBRACKET); [|discriminate].
  intros H; injection H as <- <-. split; [lia|].
  pose proof (firstn_skipn (List.length (x :: t')) s1) as E.
  rewrite Es in E. apply (f_equal (@List.length N)) in E.
  rewrite length_app in E. cbn [List.length] in E.
  assert (Hf : List.length (firstn (S (List.length t')) s1)
               = S (List.length t')).
  { change (S (List.length t')) with (List.length (x :: t')).
    rewrite <- Et. unfold t. rewrite firstn_takeWhile. reflexivity. }
  rewrite Hf in E. cbn [List.length]. lia.
Qed.

(** The code units still inside a match are passed over. *)
Lemma replaceFrom_skip r : forall k s i,
  k <= List.length s ->
  replaceFrom r i s k = replaceFrom r (i + k) (skipn k s) 0.
Proof.
  induction k as [|k IH]; intros s i Hk.
  - rewrite Nat.add_0_r. reflexivity.
  - destruct s as [|x s]; [simpl in Hk; lia|].
    cbn [replaceFrom skipn]. rewrite IH by (simpl in Hk; lia).
    rewrite Nat.add_succ_comm. reflexivity.
Qed.

(** One step of the replacement: at a link its target is written and the
    scan goes on behind it, elsewhere one code unit is copied. *)
Lemma replaceFrom_link_step i s :
  replaceFrom REGEX_LINK i s 0
  = match linkAt s with
    | Some (target, n) =>
        target ++ replaceFrom REGEX_LINK (i + n) (skipn n s) 0
    | None =>
        match s with
        | [] => []
        | ch :: s' => ch :: replaceFrom REGEX_LINK (S i) s' 0
        end
    end.
Proof.
  destruct s as [|x s].
  { reflexivity. }
  cbn [replaceFrom]. rewrite matchAt_link.
  destruct (linkAt (x :: s)) as [[target n]|] eqn:E; [|reflexivity].
  cbn [group1 lastIndex].
  destruct (linkAt_length _ _ _ E) as [Hn0 Hn].
  replace (i + n - i) with n by lia.
  destruct n as [|k]; [lia|].
  rewrite replaceFrom_skip by (simpl in Hn; lia).
  cbn [skipn]. rewrite <- Nat.add_succ_comm. reflexivity.
Qed.

(** The index the scan stands at does not matter to the link pattern. *)
Lemma replaceFrom_link_index : forall n s i j,
  List.length s <= n ->
  replaceFrom REGEX_LINK i s 0 = replaceFrom REGEX_LINK j s 0.
Proof.
  induction n as [|n IH]; intros s i j Hn.
  - destruct s; [reflexivity | simpl in Hn; lia].
  - rewrite (replaceFrom_link_step i), (replaceFrom_link_step j).
    destruct (linkAt s) as [[target k]|] eqn:E.
    + destruct (linkAt_length _ _ _ E) as [Hk0 Hk].
      f_equal. apply IH. rewrite length_skipn. lia.
    + destruct s as [|x s]; [reflexivity|]. f_equal. apply IH.
      simpl in Hn. lia.
Qed.

Lemma takeWhile_run p : forall u v : jsstring,
  Forall (fun c => p c = true) u ->
  match v with [] => True | c :: _ => p c = false end ->
  Path.takeWhile p (u ++ v) = u.
Proof.
  induction u as [|x u IH]; intros v Hu Hv; simpl.
  - destruct v as [|c v]; simpl; [reflexivity | rewrite Hv; reflexivity].
  - inversion Hu as [|? ? Hx Hu']; subst. rewrite Hx, IH by assumption.
    reflexivity.
Qed.

Lemma linkAt_needs_brackets s :
  stripPrefix (js "[[") s = None -> linkAt s = None.
Proof.
  unfold linkAt. destruct s as [|a [|b s1]]; try reflexivity.
  change (js "[[") with [LBRACKET; LBRACKET]. cbn [stripPrefix].
  rewrite (N.eqb_sym a), (N.eqb_sym b).
  destruct (N.eqb LBRACKET a); [|reflexivity].
  destruct (N.eqb LBRACKET b); [discriminate | reflexivity].
Qed.

(** X8.  Stripping links leaves a text without [[[] as it is, and turns a
    link [[[target]]] whose target is not empty and holds no []] into its
    target, the text in front copied and the text behind stripped in
    turn. *)
Theorem link_stripping (pre target post plainText : jsstring)
  (Hplain : occurs (js "[[") plainText = false)
  (Hpre : Forall (fun c => N.eqb c LBRACKET = false) pre)
  (Htarget : target <> [])
  (Hinside : Forall (fun c => N.eqb c RBRACKET = false) target) :
  replace_g_dollar1 REGEX_LINK plainText = plainText /\
  replace_g_dollar1 REGEX_LINK (pre ++ js "[[" ++ target ++ js "]]" ++ post)
  = pre ++ target ++ replace_g_dollar1 REGEX_LINK post.
Proof.
  unfold replace_g_dollar1. split.
  - clear - Hplain.
    enough (G : forall i, replaceFrom REGEX_LINK i plainText 0 = plainText)
      by apply G.
    revert Hplain.
    induction plainText as [|x s IH]; intros Hno i; [reflexivity|].
    rewrite replaceFrom_link_step.
    cbn [occurs] in Hno.
    destruct (stripPrefix (js "[[") (x :: s)) eqn:E; [discriminate|].
    rewrite (linkAt_needs_brackets _ E). f_equal. apply IH. exact Hno.
  - clear Hplain.
    enough (G : forall i,
              replaceFrom REGEX_LINK i
                (pre ++ js "[[" ++ target ++ js "]]" ++ post) 0
              = pre ++ target ++ replaceFrom REGEX_LINK 0 post 0)
      by apply G.
    induction pre as [|x pre IH]; intros i.
    + cbn [app]. rewrite replaceFrom_link_step.
      assert (E : linkAt (js "[[" ++ target ++ js "]]" ++ post)
                  = Some (target, 4 + List.length target)).
      { cbn [js app map list_ascii_of_string]. unfold linkAt.
        change (N_of_ascii "[") with LBRACKET. rewrite !N.eqb_refl.
        cbn [andb].
        assert (Ht : Path.takeWhile (fun c => negb (N.eqb c RBRACKET))
                       (target ++ N_of_ascii "]" :: N_of_ascii "]" :: post)
                     = target).
        { apply takeWhile_run; [|reflexivity].
          eapply Forall_impl; [|exact Hinside].
          intros c Hc. cbv beta in Hc. rewrite Hc. reflexivity. }
        rewrite Ht. clear Ht Hinside.
        destruct target as [|n l]; [congruence|].
        rewrite skipn_app, skipn_all, Nat.sub_diag.
        cbn [app skipn]. change (N_of_ascii "]") with RBRACKET.
        rewrite N.eqb_refl. reflexivity. }
      rewrite E. f_equal.
      replace (skipn (4 + List.length target)
                 (js "[[" ++ target ++ js "]]" ++ post)) with post.
      * apply (replaceFrom_link_index (List.length post)). lia.
      * change (js "[[" ++ target ++ js "]]" ++ post)
          with (LBRACKET :: LBRACKET
                  :: target ++ [RBRACKET; RBRACKET] ++ post).
        change (4 + List.length target)
          with (S (S (2 + List.length target))).
        rewrite !skipn_cons, skipn_app, skipn_all2 by lia.
        replace (2 + List.length target - List.length target) with 2 by lia.
        reflexivity.
    + inversion Hpre as [|? ? Hx Hpre']; subst.
      cbn [app]. rewrite replaceFrom_link_step.
      assert (E : linkAt (x :: pre ++ js "[[" ++ target ++ js "]]" ++ post)
                  = None).
      { unfold linkAt. destruct (pre ++ js "[[" ++ target ++ js "]]" ++ post);
          [reflexivity|]. rewrite Hx. reflexivity. }
      rewrite E. f_equal. apply IH. exact Hpre'.
Qed.

Lemma link_stripping_witness :
  replace_g_dollar1 REGEX_LINK (js "see [notes](a.md) [x] TODO")
  = js "see [notes](a.md) [x] TODO" /\
  replace_g_dollar1 REGEX_LINK (js "ask " ++ js "[[" ++ js "Project Plan"
                                  ++ js "]]" ++ js " and [[Bob]] TODO")
  = js "ask " ++ js "Project Plan"
      ++ replace_g_dollar1 REGEX_LINK (js " and [[Bob]] TODO").
Proof.
  apply (link_stripping (js "ask ") (js "Project Plan")
           (js " and [[Bob]] TODO") (js "see [notes](a.md) [x] TODO")).
  - vm_compute. reflexivity.
  - repeat constructor.
  - discriminate.
  - repeat constructor.
Defined.

(* ================================================================== *)
(** ** Splitting into lines *)
(* ================================================================== *)

(** The line-break pattern at a fixed index: [CR LF], or [LF] alone. *)
Lemma matchAt_newline q s :
  matchAt REGEX_NEWLINE q s
  = match s with
    | c :: s' =>
        if N.eqb c LF then Some (mkResult q (S q) None)
        else if N.eqb c CR then
          match s' with
          | d :: _ =>
              if N.eqb d LF then Some (mkResult q (S (S q)) None) else None
          | [] => None
          end
        else None
    | [] => None
    end.
Proof.
  unfold matchAt.
  change REGEX_NEWLINE
    with (Seq (opt (Char (N.eqb 13))) (Char (N.eqb 10))).
  rewrite m_Seq_eq, m_opt_char.
  destruct s as [|c s']; [reflexivity|].
  change LF with 10%N. change CR with 13%N.
  rewrite (N.eqb_sym c 10), (N.eqb_sym c 13).
  destruct (N.eqb_spec 13 c) as [<-|Hc].
  - rewrite !m_Char_eq. cbn [rest endIndex cap1].
    change (N.eqb 10 13) with false. cbv iota.
    destruct s' as [|d s'']; [reflexivity|].
    rewrite (N.eqb_sym d 10). destruct (N.eqb 10 d); reflexivity.
  - rewrite m_Char_eq. cbn [rest endIndex cap1].
    destruct (N.eqb 10 c); reflexivity.
Qed.

(** Every line feed ends a piece, and nothing else does. *)
Lemma splitFrom_length : forall s q piece,
  List.length (splitFrom REGEX_NEWLINE q s piece 0) = S (countLF s) /\
  List.length (splitFrom REGEX_NEWLINE q s piece 1) = S (countLF (tl s)).
Proof.
  induction s as [|c s IH]; intros q piece; [split; reflexivity|].
  split.
  - cbn [splitFrom countLF]. rewrite matchAt_newline.
    destruct (N.eqb c LF) eqn:Ec.
    + cbn [lastIndex]. replace (S q - q) with 1 by lia. cbn [List.length].
      rewrite (proj1 (IH (S q) [])). reflexivity.
    + destruct (N.eqb c CR) eqn:Er.
      * destruct s as [|d s'].
        { reflexivity. }
        destruct (N.eqb d LF) eqn:Ed.
        -- cbn [lastIndex]. replace (S (S q) - q) with 2 by lia.
           cbn [List.length].
           rewrite (proj2 (IH (S q) [])). cbn [tl countLF].
           rewrite Ed. reflexivity.
        -- rewrite (proj1 (IH (S q) (c :: piece))). reflexivity.
      * rewrite (proj1 (IH (S q) (c :: piece))). reflexivity.
  - cbn [splitFrom tl]. apply IH.
Qed.

Lemma splitFrom_no_LF : forall s q piece skip,
  ~ In LF piece ->
  Forall (fun l => ~ In LF l) (splitFrom REGEX_NEWLINE q s piece skip).
Proof.
  induction s as [|c s IH]; intros q piece skip Hp.
  - constructor; [|constructor]. rewrite <- in_rev. exact Hp.
  - cbn [splitFrom]. destruct skip as [|k]; [|apply IH; exact Hp].
    assert (Hrev : ~ In LF (rev piece)) by (rewrite <- in_rev; exact Hp).
    rewrite matchAt_newline.
    destruct (N.eqb c LF) eqn:Ec.
    + cbn [lastIndex]. replace (S q - q) with 1 by lia.
      constructor; [exact Hrev | apply IH; intros []].
    + assert (Hc : ~ In LF (c :: piece)).
      { intros [E|E]; [|exact (Hp E)]. subst c.
        rewrite N.eqb_refl in Ec. discriminate. }
      destruct (N.eqb c CR); [|apply IH; exact Hc].
      destruct s as [|d s']; [apply IH; exact Hc|].
      destruct (N.eqb d LF); [|apply IH; exact Hc].
      cbn [lastIndex]. replace (S (S q) - q) with 2 by lia.
      constructor; [exact Hrev | apply IH; intros []].
Qed.

Lemma In_trimStart c s : In c (trimStart s) -> In c s.
Proof.
  induction s as [|x s IH]; simpl; [auto|].
  destruct (isWhiteSpace x); [intros H; right; exact (IH H) | auto].
Qed.

Lemma In_trim c s : In c (trim s) -> In c s.
Proof.
  unfold trim, trimEnd. intros H. apply in_rev, In_trimStart in H.
  apply in_rev in H. apply In_trimStart in H. exact H.
Qed.

(** X9.  The text is cut at every line feed (a carriage return in front of
    it goes with it) and nowhere else: there is one line more than there
    are line feeds, so at least one; no line holds a line feed; every line
    is trimmed. *)
Theorem lines_of_text (removeMd : jsstring -> jsstring) (md : jsstring) :
  List.length (linesOf removeMd md)
  = S (countLF (removeMd (replace_g_dollar1 REGEX_LINK md))) /\
  Forall (fun l => ~ In LF l /\ trim l = l) (linesOf removeMd md).
Proof.
  unfold linesOf.
  set (txt := removeMd (replace_g_dollar1 REGEX_LINK md)).
  split.
  - rewrite length_map. unfold split.
    destruct txt as [|c s]; [reflexivity|].
    apply (proj1 (splitFrom_length (c :: s) 0 [])).
  - apply Forall_forall. intros l Hl.
    apply in_map_iff in Hl. destruct Hl as [l0 [<- Hl0]].
    split; [|apply trim_idem].
    intros Hin. apply In_trim in Hin.
    assert (Hall : Forall (fun l => ~ In LF l) (split REGEX_NEWLINE txt)).
    { unfold split. destruct txt as [|c s].
      - constructor; [intros [] | constructor].
      - apply splitFrom_no_LF. intros []. }
    rewrite Forall_forall in Hall. exact (Hall _ Hl0 Hin).
Qed.

(* ================================================================== *)
(** ** The index: how the operations compose *)
(* ================================================================== *)

Lemma dictSet_set d p v w : dictSet (dictSet d p v) p w = dictSet d p w.
Proof.
  induction d as [|[k x] d IH]; simpl.
  - rewrite str_eqb_refl. reflexivity.
  - destruct (str_eqb k p) eqn:E; simpl; rewrite E; [reflexivity|].
    rewrite IH. reflexivity.
Qed.

Lemma dictDelete_set d p v : dictDelete (dictSet d p v) p = dictDelete d p.
Proof.
  induction d as [|[k x] d IH]; simpl.
  - rewrite str_eqb_refl. reflexivity.
  - destruct (str_eqb k p) eqn:E; simpl; rewrite E; [reflexivity|].
    rewrite IH. reflexivity.
Qed.

Lemma settle_updateFile_none removeMd app d f :
  contentFor app f = None ->
  settle removeMd app (updateFile removeMd app d f) = d.
Proof.
  unfold contentFor, settle, updateFile, loadFileFromWorkspace,
    loadFileFromDisk.
  destruct (openContent app (path f)) as [v|];
    [destruct (truthy v); [discriminate|]|];
    (destruct (str_eqb (Path.extname (path f)) (js ".md")); simpl;
     [intros ->; reflexivity | reflexivity]).
Qed.

(** X10.  The last write wins: loading a file again replaces what the load
    before it stored, whatever both texts are; so an update repeated while
    the host offers the same content changes nothing. *)
Theorem last_write_wins
  (removeMd : jsstring -> jsstring) (app : App) (d : Dict)
  (f : TAbstractFile) (md1 md2 : jsstring) :
  loadFile removeMd (loadFile removeMd d f md1) f md2
  = loadFile removeMd d f md2 /\
  settle removeMd app
    (updateFile removeMd app
       (settle removeMd app (updateFile removeMd app d f)) f)
  = settle removeMd app (updateFile removeMd app d f).
Proof.
  assert (L : forall a b,
            loadFile removeMd (loadFile removeMd d f a) f b
            = loadFile removeMd d f b)
    by (intros a b; unfold loadFile; apply dictSet_set).
  split; [apply L|].
  destruct (contentFor app f) as [md|] eqn:Ec.
  - rewrite !(settle_updateFile_content removeMd app _ f md Ec). apply L.
  - rewrite !(settle_updateFile_none removeMd app _ f Ec). reflexivity.
Qed.

(** X11.  Deleting a file after loading it is deleting it: nothing of the
    load is left, [getFileFor] of its path is absent, and when the path
    had no entry before the load [_dict] is back to what it was. *)
Theorem delete_after_load
  (removeMd : jsstring -> jsstring) (d : Dict) (f : TAbstractFile)
  (md : jsstring) :
  deleteFile (loadFile removeMd d f md) f = deleteFile d f /\
  getFileFor (deleteFile (loadFile removeMd d f md) f) (path f) = None /\
  (dictGet d (path f) = None ->
   deleteFile (loadFile removeMd d f md) f = d).
Proof.
  assert (E : deleteFile (loadFile removeMd d f md) f = deleteFile d f)
    by (unfold deleteFile, loadFile; apply dictDelete_set).
  split; [exact E|]. rewrite E. split.
  - unfold getFileFor, deleteFile. rewrite dictGet_delete_same. reflexivity.
  - apply dictDelete_absent.
Qed.

Lemma delete_after_load_witness :
  deleteFile (loadFile plain [] file_a (js "TODO: x")) file_a = [].
Proof.
  apply (delete_after_load plain [] file_a (js "TODO: x")). reflexivity.
Defined.

Lemma listed_iff_lookup (removeMd : jsstring -> jsstring) (d : Dict) g :
  reachable removeMd d ->
  (In g (getFilesInOrder d) <-> getFileFor d (path (file g)) = Some g).
Proof.
  intros Hd. destruct (reachable_wf removeMd d Hd) as [Hnd Hgr].
  rewrite In_getFilesInOrder. split.
  - intros [p Hin]. destruct (Hgr _ _ Hin) as [Hp _]. subst p.
    unfold getFileFor. rewrite (In_dictGet _ _ _ Hnd Hin). reflexivity.
  - intros H. exists (path (file g)). apply getFileFor_In. exact H.
Qed.

Lemma listed_paths_NoDup (removeMd : jsstring -> jsstring) (d : Dict) :
  reachable removeMd d ->
  NoDup (map (fun g => path (file g)) (getFilesInOrder d)).
Proof.
  intros Hd. destruct (reachable_wf removeMd d Hd) as [Hnd Hgr].
  assert (Hp : NoDup (map (fun g => path (file g)) (presentValues d))).
  { clear Hd. induction d as [|[k [g|]] d IH]; simpl.
    - constructor.
    - inversion Hnd as [|? ? Hk Hnd']; subst.
      constructor.
      + intros Hin. apply in_map_iff in Hin. destruct Hin as [g' [Eg Hin]].
        apply In_presentValues in Hin. destruct Hin as [p Hin].
        destruct (Hgr p g' (or_intror Hin)) as [Hp' _].
        destruct (Hgr k g (or_introl eq_refl)) as [Hk' _].
        apply Hk. apply in_map_iff. exists (p, Some g'). split; [|exact Hin].
        simpl. congruence.
      + apply IH; [exact Hnd'|]. intros p g' Hin. apply Hgr. right. exact Hin.
    - inversion Hnd as [|? ? Hk Hnd']; subst.
      apply IH; [exact Hnd'|]. intros p g' Hin. apply Hgr. right. exact Hin. }
  eapply Permutation_NoDup; [|exact Hp].
  apply Permutation_map. symmetry. apply sort_perm.
Qed.

(** X12.  In every state the index can be in, [getFilesInOrder] and
    [getFileFor] show the same groups: a group is listed exactly when it
    is what [getFileFor] returns for the path of its file, and no two
    listed groups are for the same path. *)
Theorem enumerate_lookup_agree
  (removeMd : jsstring -> jsstring) (d : Dict)
  (Hd : reachable removeMd d) :
  (forall g, In g (getFilesInOrder d) <->
             getFileFor d (path (file g)) = Some g) /\
  NoDup (map (fun g => path (file g)) (getFilesInOrder d)).
Proof.
  split.
  - intros g. apply (listed_iff_lookup removeMd); exact Hd.
  - apply (listed_paths_NoDup removeMd); exact Hd.
Qed.

Lemma enumerate_lookup_agree_witness :
  In (mkGroup file_a [Str (js "x")]) (getFilesInOrder twoNotes) /\
  getFileFor twoNotes (js "a.md") = Some (mkGroup file_a [Str (js "x")]).
Proof.
  assert (Hr : reachable plain twoNotes) by (unfold twoNotes; repeat constructor).
  assert (Hl : getFileFor twoNotes (path (file (mkGroup file_a [Str (js "x")])))
               = Some (mkGroup file_a [Str (js "x")]))
    by (vm_compute; reflexivity).
  split; [|exact Hl].
  apply (proj1 (enumerate_lookup_agree plain twoNotes Hr)). exact Hl.
Defined.

Lemma str_leb_antisym : forall a b,
  str_leb a b = true -> str_leb b a = true -> a = b.
Proof.
  unfold str_leb. induction a as [|x a IH]; intros [|y b]; simpl;
    try discriminate; try reflexivity.
  intros H1 H2.
  destruct (N.ltb_spec y x), (N.ltb_spec x y); try discriminate; try lia.
  assert (x = y) by lia. subst. f_equal. apply IH; assumption.
Qed.

(** Two listings in the order of [toDoGroupSorter] that hold the same
    groups, all of different names, are the same listing. *)
Lemma sorted_listing_unique : forall l1 l2 : list IToDoGroup,
  StronglySorted byName l1 -> StronglySorted byName l2 ->
  Permutation l1 l2 ->
  NoDup (map (fun g => name (file g)) l1) ->
  l1 = l2.
Proof.
  induction l1 as [|x l1 IH]; intros l2 S1 S2 P Hnd.
  - apply Permutation_nil in P. subst. reflexivity.
  - destruct l2 as [|y l2].
    { apply Permutation_sym, Permutation_nil in P. discriminate. }
    inversion S1 as [|? ? S1' Hx]; subst.
    inversion S2 as [|? ? S2' Hy]; subst.
    inversion Hnd as [|? ? Hxn Hnd']; subst.
    assert (Exy : x = y).
    { assert (Hyin : In y (x :: l1))
        by (eapply Permutation_in; [symmetry; exact P | left; reflexivity]).
      assert (Hxin : In x (y :: l2))
        by (eapply Permutation_in; [exact P | left; reflexivity]).
      destruct Hyin as [E|Hyin]; [exact E|].
      destruct Hxin as [E|Hxin]; [symmetry; exact E|].
      rewrite Forall_forall in Hx, Hy.
      pose proof (Hx _ Hyin) as Lxy. pose proof (Hy _ Hxin) as Lyx.
      exfalso. apply Hxn. rewrite (str_leb_antisym _ _ Lxy Lyx).
      apply in_map_iff. exists y. split; [reflexivity | exact Hyin]. }
    subst y. f_equal. apply IH; try assumption.
    eapply Permutation_cons_inv. exact P.
Qed.

Lemma listing_determined_by_lookup
  (removeMd : jsstring -> jsstring) (d1 d2 : Dict)
  (H1 : reachable removeMd d1) (H2 : reachable removeMd d2)
  (Hsame : forall p, getFileFor d1 p = getFileFor d2 p)
  (Hnames : NoDup (map (fun g => name (file g)) (presentValues d1))) :
  getFilesInOrder d1 = getFilesInOrder d2.
Proof.
  pose proof (fun g => listed_iff_lookup removeMd d1 g H1) as A1.
  pose proof (listed_paths_NoDup removeMd d1 H1) as N1.
  pose proof (fun g => listed_iff_lookup removeMd d2 g H2) as A2.
  pose proof (listed_paths_NoDup removeMd d2 H2) as N2.
  apply sorted_listing_unique.
  - apply sort_sorted.
  - apply sort_sorted.
  - apply NoDup_Permutation.
    + eapply NoDup_map_inv. exact N1.
    + eapply NoDup_map_inv. exact N2.
    + intros g. rewrite A1, A2, Hsame. reflexivity.
  - eapply Permutation_NoDup; [|exact Hnames].
    apply Permutation_map. symmetry. apply sort_perm.
Qed.

(** X13.  The listing does not depend on the order in which the documents
    were indexed: two states the index can be in that answer every
    [getFileFor] alike, the groups present all of different file names,
    give the same [getFilesInOrder]. *)
Theorem enumerate_order_independent
  (removeMd : jsstring -> jsstring) (d1 d2 : Dict)
  (H1 : reachable removeMd d1) (H2 : reachable removeMd d2)
  (Hsame : forall p, getFileFor d1 p = getFileFor d2 p)
  (Hnames : NoDup (map (fun g => name (file g)) (presentValues d1))) :
  getFilesInOrder d1 = getFilesInOrder d2.
Proof.
  exact (listing_determined_by_lookup removeMd d1 d2 H1 H2 Hsame Hnames).
Qed.

Lemma enumerate_order_independent_witness :
  getFilesInOrder
    (loadFile plain (loadFile plain [] file_a_b (js "TODO: y"))
       file_a (js "TODO: x"))
  = getFilesInOrder twoNotes.
Proof.
  symmetry. apply (enumerate_order_independent plain).
  - unfold twoNotes. repeat constructor.
  - repeat constructor.
  - intros p.
    assert (G : forall d, getFileFor d p
              = match dictGet d p with Some (Some g) => Some g | _ => None end)
      by reflexivity.
    unfold twoNotes, loadFile. rewrite !G.
    destruct (str_eqb (path file_a) p) eqn:Ea;
      destruct (str_eqb (path file_a_b) p) eqn:Eb.
    + apply str_eqb_eq in Ea, Eb. rewrite <- Eb in Ea. vm_compute in Ea.
      discriminate.
    + apply str_eqb_eq in Ea. subst p. vm_compute. reflexivity.
    + apply str_eqb_eq in Eb. subst p. vm_compute. reflexivity.
    + assert (Na : path file_a <> p)
        by (intros E; rewrite E, str_eqb_refl in Ea; discriminate).
      assert (Nb : path file_a_b <> p)
        by (intros E; rewrite E, str_eqb_refl in Eb; discriminate).
      rewrite !dictGet_set_other by assumption. reflexivity.
  - vm_compute. repeat constructor; simpl; intuition discriminate.
Defined.

(* ================================================================== *)
(** ** [loadAllFiles] and the listing without index *)
(* ================================================================== *)

Section Loading.

Variable removeMd : jsstring -> jsstring.
Variable app : App.

Lemma deliverAll_reachable order : forall d,
  reachable removeMd d -> reachable removeMd (deliverAll removeMd app d order).
Proof.
  induction order as [|pend order IH]; intros d Hd; [exact Hd|].
  cbn [deliverAll fold_left]. apply IH.
  destruct pend as [|f]; [exact Hd|]. cbn [deliver afterRead].
  destruct (read app (path f)); [constructor|]; exact Hd.
Qed.

(** The entry at [p] after the reads of [order] have been delivered, when
    [f0] is the only file of [order] with the path [p]. *)
Lemma deliverAll_get (p : jsstring) (f0 : TAbstractFile) : forall order d,
  (forall f, In (ReadOf f) order -> path f = p -> f = f0) ->
  dictGet (deliverAll removeMd app d order) p
  = if existsb (fun pend => match pend with
                            | ReadOf f =>
                                str_eqb (path f) p
                                && match read app (path f) with
                                   | Some _ => true
                                   | None => false
                                   end
                            | NoRead => false
                            end) order
    then match read app p with
         | Some md => Some (groupOf f0 (extract removeMd md))
         | None => dictGet d p
         end
    else dictGet d p.
Proof.
  induction order as [|pend order IH]; intros d Honly; [reflexivity|].
  cbn [deliverAll fold_left existsb].
  change (fold_left (deliver removeMd app) order (deliver removeMd app d pend))
    with (deliverAll removeMd app (deliver removeMd app d pend) order).
  rewrite IH by (intros f Hin; apply Honly; right; exact Hin).
  destruct pend as [|f]; [reflexivity|]. cbn [deliver afterRead].
  destruct (str_eqb (path f) p) eqn:Ep.
  - apply str_eqb_eq in Ep.
    assert (f = f0) by (apply Honly; [left; reflexivity | exact Ep]).
    subst f0. subst p.
    destruct (read app (path f)) as [md|] eqn:Er; cbn [andb orb].
    + unfold loadFile. rewrite dictGet_set_same.
      destruct (existsb _ order); reflexivity.
    + destruct (existsb _ order); reflexivity.
  - cbn [andb orb].
    destruct (read app (path f)) as [md|] eqn:Er; [|reflexivity].
    unfold loadFile. rewrite dictGet_set_other; [reflexivity|].
    intros E. rewrite E, str_eqb_refl in Ep. discriminate.
Qed.

Lemma In_loadAllFiles f files :
  In (ReadOf f) (loadAllFiles files) <->
  In f files /\ str_eqb (Path.extname (path f)) (js ".md") = true.
Proof.
  unfold loadAllFiles. rewrite in_map_iff. unfold loadFileFromDisk. split.
  - intros [f' [E Hin]].
    destruct (str_eqb (Path.extname (path f')) (js ".md")) eqn:Ex;
      simpl in E; [|discriminate].
    injection E as ->. auto.
  - intros [Hin Ex]. exists f. rewrite Ex. auto.
Qed.

Lemma path_injective files f1 f2 :
  NoDup (map path files) -> In f1 files -> In f2 files ->
  path f1 = path f2 -> f1 = f2.
Proof.
  induction files as [|f files IH]; simpl; [contradiction|].
  intros Hnd H1 H2 E. inversion Hnd as [|? ? Hf Hnd']; subst.
  destruct H1 as [->|H1], H2 as [->|H2]; auto.
  - exfalso. apply Hf. rewrite E. apply in_map. exact H2.
  - exfalso. apply Hf. rewrite <- E. apply in_map. exact H1.
Qed.

Lemma deliverAll_lookup
  (d : Dict) (files : list TAbstractFile) (order : list Pending)
  (Hpaths : NoDup (map path files))
  (Horder : Permutation order (loadAllFiles files)) :
  let d' := deliverAll removeMd app d order in
  (forall f, In f files ->
     getFileFor d' (path f)
     = match contentFromDisk app f with
       | Some md => groupOf f (extract removeMd md)
       | None => getFileFor d (path f)
       end) /\
  (forall q, ~ In q (map path files) -> dictGet d' q = dictGet d q).
Proof.
  intros d'.
  assert (Hin : forall f, In (ReadOf f) order <->
              In f files /\ str_eqb (Path.extname (path f)) (js ".md") = true).
  { intros f. rewrite <- In_loadAllFiles. split; intros H.
    - eapply Permutation_in; [exact Horder | exact H].
    - eapply Permutation_in; [symmetry; exact Horder | exact H]. }
  split.
  - intros f Hf. unfold getFileFor, d'.
    rewrite (deliverAll_get (path f) f).
    2:{ intros f' Hf' E. apply Hin in Hf'.
        apply (path_injective files); tauto. }
    unfold contentFromDisk.
    match goal with |- context [existsb ?P order] =>
      destruct (existsb P order) eqn:Ex end.
    + apply existsb_exists in Ex. destruct Ex as [[|f'] [Hf' Hw]];
        [discriminate|].
      apply andb_true_iff in Hw. destruct Hw as [Ep Hr].
      apply str_eqb_eq in Ep. apply Hin in Hf'. destruct Hf' as [Hf' Hext].
      assert (f' = f) by (apply (path_injective files); assumption).
      subst f'. rewrite Hext.
      destruct (read app (path f)) as [md|]; [|discriminate].
      destruct (groupOf f (extract removeMd md)); reflexivity.
    + destruct (str_eqb (Path.extname (path f)) (js ".md")) eqn:Hext;
        [|reflexivity].
      destruct (read app (path f)) as [md|] eqn:Er; [|reflexivity].
      exfalso.
      assert (Hex : existsb
                (fun pend => match pend with
                             | ReadOf f1 =>
                                 str_eqb (path f1) (path f)
                                 && match read app (path f1) with
                                    | Some _ => true
                                    | None => false
                                    end
                             | NoRead => false
                             end) order = true).
      { apply existsb_exists. exists (ReadOf f). split.
        - apply Hin. auto.
        - rewrite str_eqb_refl, Er. reflexivity. }
      congruence.
  - intros q Hq. unfold d'.
    rewrite (deliverAll_get q (mkFile q q)).
    2:{ intros f' Hf' E. exfalso. apply Hq. apply Hin in Hf'.
        rewrite <- E. apply in_map. tauto. }
    match goal with |- context [existsb ?P order] =>
      destruct (existsb P order) eqn:Ex end; [|reflexivity].
    exfalso. apply existsb_exists in Ex. destruct Ex as [[|f'] [Hf' Hw]];
      [discriminate|].
    apply andb_true_iff in Hw. destruct Hw as [Ep _].
    apply str_eqb_eq in Ep. apply Hin in Hf'. apply Hq.
    rewrite <- Ep. apply in_map. tauto.
Qed.

(** X14.  After [loadAllFiles], in whatever order the reads are delivered:
    a file with the extension [.md] whose read succeeds has the group of
    its fresh extraction (absent when there is no item); a file whose read
    is rejected, or without the extension, keeps the entry it had, and so
    does every path that is not in the list.  The files have different
    paths. *)
Theorem loadAllFiles_lookup
  (d : Dict) (files : list TAbstractFile) (order : list Pending)
  (Hpaths : NoDup (map path files))
  (Horder : Permutation order (loadAllFiles files)) :
  let d' := deliverAll removeMd app d order in
  (forall f, In f files ->
     getFileFor d' (path f)
     = match contentFromDisk app f with
       | Some md => groupOf f (extract removeMd md)
       | None => getFileFor d (path f)
       end) /\
  (forall q, ~ In q (map path files) -> dictGet d' q = dictGet d q).
Proof. exact (deliverAll_lookup d files order Hpaths Horder). Qed.

End Loading.

(** A host with no view open, [b.md] on disk and the read of [a.md]
    rejected. *)
Lemma loadAllFiles_lookup_witness :
  let order := [ReadOf file_b; ReadOf file_a] in
  Permutation order (loadAllFiles [file_a; file_b]) /\
  getFileFor (deliverAll plain diskOnly twoNotes order) (js "b.md")
  = Some (mkGroup file_b [Str (js "y")]) /\
  getFileFor (deliverAll plain diskOnly twoNotes order) (js "a.md")
  = getFileFor twoNotes (js "a.md").
Proof.
  assert (Hp : Permutation [ReadOf file_b; ReadOf file_a]
                 (loadAllFiles [file_a; file_b]))
    by (vm_compute; apply perm_swap).
  assert (Hnd : NoDup (map path [file_a; file_b])).
  { vm_compute. repeat constructor; simpl; intuition discriminate. }
  destruct (loadAllFiles_lookup plain diskOnly twoNotes [file_a; file_b]
              [ReadOf file_b; ReadOf file_a] Hnd Hp) as [Hl _].
  split; [exact Hp|]. split.
  - exact (Hl file_b (or_intror (or_introl eq_refl))).
  - exact (Hl file_a (or_introl eq_refl)).
Defined.

Section ListingAgreement.

Variable removeMd : jsstring -> jsstring.
Variable app : App.

Lemma presentValues_dictSet_new d p v :
  dictGet d p = None ->
  presentValues (dictSet d p v)
  = presentValues d ++ match v with Some g => [g] | None => [] end.
Proof.
  induction d as [|[k w] d IH]; simpl.
  - intros _. destruct v; reflexivity.
  - destruct (str_eqb k p); [discriminate|]. intros H. simpl.
    rewrite (IH H). destruct w; reflexivity.
Qed.

Lemma loadAll_in_order : forall files groups d,
  (forall f, In f files ->
             str_eqb (Path.extname (path f)) (js ".md") = true) ->
  NoDup (map path files) ->
  (forall f, In f files -> dictGet d (path f) = None) ->
  promiseAll (map (getToDoGroupFromFile removeMd app) files) = Some groups ->
  presentValues (deliverAll removeMd app d (loadAllFiles files))
  = presentValues d
    ++ filter (fun grp => Nat.ltb 0 (List.length (items grp))) groups.
Proof.
  induction files as [|f files IH]; intros groups d Hext Hnd Hfree Hall.
  - simpl in Hall. injection Hall as <-. simpl. rewrite app_nil_r. reflexivity.
  - cbn [map promiseAll] in Hall. unfold getToDoGroupFromFile at 1 in Hall.
    destruct (read app (path f)) as [md|] eqn:Er; [|discriminate].
    destruct (promiseAll (map (getToDoGroupFromFile removeMd app) files))
      as [groups'|] eqn:Eg; [|discriminate].
    injection Hall as <-.
    inversion Hnd as [|? ? Hf Hnd']; subst.
    change (loadAllFiles (f :: files))
      with (loadFileFromDisk f :: loadAllFiles files).
    assert (El : loadFileFromDisk f = ReadOf f).
    { unfold loadFileFromDisk. rewrite (Hext f (or_introl eq_refl)).
      reflexivity. }
    rewrite El.
    change (deliverAll removeMd app d (ReadOf f :: loadAllFiles files))
      with (deliverAll removeMd app (deliver removeMd app d (ReadOf f))
              (loadAllFiles files)).
    cbn [deliver afterRead]. rewrite Er.
    rewrite (IH groups').
    + unfold loadFile.
      rewrite presentValues_dictSet_new by (apply Hfree; left; reflexivity).
      rewrite <- app_assoc. f_equal. cbn [filter items]. unfold groupOf.
      destruct (Nat.ltb 0 (List.length (extract removeMd md))); reflexivity.
    + intros f' Hf'. apply Hext. right. exact Hf'.
    + exact Hnd'.
    + intros f' Hf'. unfold loadFile. rewrite dictGet_set_other.
      * apply Hfree. right. exact Hf'.
      * intros E. apply Hf. rewrite E. apply in_map. exact Hf'.
    + reflexivity.
Qed.

Lemma promiseAll_In {A} : forall (l : list (option A)) r,
  promiseAll l = Some r -> forall x, In x r -> In (Some x) l.
Proof.
  induction l as [|[a|] l IH]; intros r H x Hx; simpl in H.
  - injection H as <-. contradiction.
  - destruct (promiseAll l) as [r'|]; [|discriminate]. injection H as <-.
    destruct Hx as [->|Hx]; [left; reflexivity | right; eapply IH; eauto].
  - discriminate.
Qed.

Lemma promiseAll_map_names : forall files groups,
  promiseAll (map (getToDoGroupFromFile removeMd app) files) = Some groups ->
  map file groups = files.
Proof.
  induction files as [|f files IH]; intros groups H; simpl in H.
  - injection H as <-. reflexivity.
  - unfold getToDoGroupFromFile at 1 in H.
    destruct (read app (path f)); [|discriminate].
    destruct (promiseAll (map (getToDoGroupFromFile removeMd app) files))
      as [groups'|]; [|discriminate].
    injection H as <-. simpl. rewrite (IH groups' eq_refl). reflexivity.
Qed.

Lemma NoDup_map_filter {A B} (f : A -> B) (p : A -> bool) : forall l,
  NoDup (map f l) -> NoDup (map f (filter p l)).
Proof.
  induction l as [|x l IH]; simpl; intros H; [constructor|].
  inversion H as [|? ? Hx Hl]; subst.
  destruct (p x); simpl; [|apply IH; exact Hl].
  constructor; [|apply IH; exact Hl].
  intros Hin. apply Hx. apply in_map_iff in Hin.
  destruct Hin as [y [E Hy]]. apply filter_In in Hy.
  apply in_map_iff. exists y. tauto.
Qed.

(** X15.  The listing without index and the index agree.  For markdown
    files of different paths whose reads all succeed, what
    [getToDoGroupsFromFiles] returns, sorted, is what [getFilesInOrder]
    returns after [loadAllFiles] on an empty index with the reads delivered
    in the order of the files; and when the file names differ too, in any
    order of delivery. *)
Theorem listing_agrees_with_index
  (files : list TAbstractFile) (groups : list IToDoGroup)
  (Hext : forall f, In f files ->
                    str_eqb (Path.extname (path f)) (js ".md") = true)
  (Hpaths : NoDup (map path files))
  (Hall : getToDoGroupsFromFiles removeMd app files = Some groups) :
  getFilesInOrder (deliverAll removeMd app [] (loadAllFiles files))
  = sort toDoGroupSorter groups /\
  (NoDup (map name files) ->
   forall order, Permutation order (loadAllFiles files) ->
     getFilesInOrder (deliverAll removeMd app [] order)
     = sort toDoGroupSorter groups).
Proof.
  unfold getToDoGroupsFromFiles in Hall.
  destruct (promiseAll (map (getToDoGroupFromFile removeMd app) files))
    as [all|] eqn:Eall; [|discriminate].
  injection Hall as <-.
  assert (Hpv : presentValues
                  (deliverAll removeMd app [] (loadAllFiles files))
                = filter (fun grp => Nat.ltb 0 (List.length (items grp))) all).
  { rewrite (loadAll_in_order files all []); auto. }
  assert (E0 : getFilesInOrder
                 (deliverAll removeMd app [] (loadAllFiles files))
               = sort toDoGroupSorter
                   (filter (fun grp => Nat.ltb 0 (List.length (items grp)))
                      all))
    by (unfold getFilesInOrder; rewrite Hpv; reflexivity).
  split; [exact E0|].
  intros Hnames order Horder. rewrite <- E0. symmetry.
  apply (listing_determined_by_lookup removeMd).
  - apply deliverAll_reachable. constructor.
  - apply deliverAll_reachable. constructor.
  - intros p.
    destruct (in_dec (list_eq_dec N.eq_dec) p (map path files)) as [Hin|Hout].
    + apply in_map_iff in Hin. destruct Hin as [f [<- Hf]].
      rewrite (proj1 (deliverAll_lookup removeMd app [] files order
                        Hpaths Horder) f Hf).
      rewrite (proj1 (deliverAll_lookup removeMd app [] files
                        (loadAllFiles files) Hpaths (Permutation_refl _)) f Hf).
      reflexivity.
    + unfold getFileFor.
      rewrite (proj2 (deliverAll_lookup removeMd app [] files order
                        Hpaths Horder) p Hout).
      rewrite (proj2 (deliverAll_lookup removeMd app [] files
                        (loadAllFiles files) Hpaths (Permutation_refl _))
                 p Hout).
      reflexivity.
  - rewrite Hpv. apply NoDup_map_filter.
    rewrite <- (map_map file name), (promiseAll_map_names _ _ Eall).
    exact Hnames.
Qed.

End ListingAgreement.

(** A host with no view open and both notes on disk. *)
Lemma listing_agrees_with_index_witness :
  let app := mkApp (fun _ => None) (fun p => Some (js "x TODO")) in
  getToDoGroupsFromFiles plain app [file_b; file_a]
  = Some [mkGroup file_b [Str (js "x")]; mkGroup file_a [Str (js "x")]] /\
  getFilesInOrder (deliverAll plain app [] (loadAllFiles [file_b; file_a]))
  = sort toDoGroupSorter
      [mkGroup file_b [Str (js "x")]; mkGroup file_a [Str (js "x")]].
Proof.
  intros app.
  assert (H : getToDoGroupsFromFiles plain app [file_b; file_a]
              = Some [mkGroup file_b [Str (js "x")];
                      mkGroup file_a [Str (js "x")]])
    by (vm_compute; reflexivity).
  split; [exact H|].
  assert (Hext : forall f, In f [file_b; file_a] ->
                   str_eqb (Path.extname (path f)) (js ".md") = true)
    by (intros f [<-|[<-|[]]]; vm_compute; reflexivity).
  assert (Hnd : NoDup (map path [file_b; file_a]))
    by (vm_compute; repeat constructor; simpl; intuition discriminate).
  exact (proj1 (listing_agrees_with_index plain app [file_b; file_a] _
                  Hext Hnd H)).
Defined.

(* ================================================================== *)
(** ** The display name *)
(* ================================================================== *)

Lemma dropWhile_head p (c : N) (s : jsstring) :
  p c = false -> Path.dropWhile p (c :: s) = c :: s.
Proof. intros H. simpl. rewrite H. reflexivity. Qed.

Lemma takeWhile_all p : forall s : jsstring,
  Forall (fun c => p c = true) s -> Path.takeWhile p s = s.
Proof.
  induction s as [|x s IH]; intros H; simpl; [reflexivity|].
  inversion H as [|? ? Hx Hs]; subst. rewrite Hx, IH by exact Hs. reflexivity.
Qed.

(** X16.  The name a group is displayed under is the name of its file
    without the extension [.md]: for a name that is a stem without
    separator, not empty, followed by [.md], [getBaseName] is the stem. *)
Theorem display_name_of_markdown_file (stem : jsstring)
  (Hstem : stem <> [])
  (Hsep : Forall (fun c => N.eqb c Path.SLASH = false) stem) :
  Path.extname (stem ++ js ".md") = js ".md" /\
  getBaseName (stem ++ js ".md") = stem.
Proof.
  assert (Hrev : Path.lastPortionRev (stem ++ js ".md")
                 = js "dm." ++ rev stem).
  { unfold Path.lastPortionRev. rewrite rev_app_distr.
    change (rev (js ".md")) with (js "dm.").
    change (js "dm." ++ rev stem)
      with (N_of_ascii "d" :: (js "m." ++ rev stem)).
    rewrite dropWhile_head by reflexivity.
    apply takeWhile_all. change (N_of_ascii "d" :: js "m." ++ rev stem)
      with (js "dm." ++ rev stem).
    apply Forall_app. split; [repeat constructor|].
    apply Forall_rev. eapply Forall_impl; [|exact Hsep].
    intros c Hc. cbv beta in Hc. rewrite Hc. reflexivity. }
  assert (Hext : Path.extname (stem ++ js ".md") = js ".md").
  { unfold Path.extname. rewrite Hrev.
    change (Path.takeWhile (fun c => negb (N.eqb c Path.DOT))
              (js "dm." ++ rev stem)) with (js "dm").
    change (existsb (N.eqb Path.DOT) (js "dm." ++ rev stem)) with true.
    rewrite length_app, length_rev. change (List.length (js "dm.")) with 3.
    change (List.length (js "dm")) with 2.
    replace (3 + List.length stem - 2 - 1) with (List.length stem) by lia.
    destruct stem as [|c stem']; [congruence|]. cbn [List.length Nat.eqb negb andb].
    rewrite rev_app_distr, rev_involutive.
    change (rev (js "dm.")) with (js ".md").
    assert (Hne : str_eqb ((c :: stem') ++ js ".md") [Path.DOT; Path.DOT]
                  = false).
    { apply str_eqb_neq. intros E. apply (f_equal (@List.length N)) in E.
      rewrite length_app in E. simpl in E. lia. }
    rewrite Hne. reflexivity. }
  split; [exact Hext|].
  unfold getBaseName, Path.basename. rewrite Hext.
  unfold Path.lastPortion. rewrite Hrev, rev_app_distr, rev_involutive.
  change (rev (js "dm.")) with (js ".md").
  change (truthy (js ".md")) with true.
  assert (Hlen : Nat.leb (List.length (js ".md"))
                   (List.length (stem ++ js ".md")) = true).
  { apply Nat.leb_le. rewrite length_app. lia. }
  rewrite Hlen. cbn [andb].
  assert (Hne : str_eqb (js ".md") (stem ++ js ".md") = false).
  { apply str_eqb_neq. intros E. apply (f_equal (@List.length N)) in E.
    rewrite length_app in E. destruct stem; [congruence | simpl in E; lia]. }
  rewrite Hne. unfold Path.stripSuffix.
  rewrite length_app. change (List.length (js ".md")) with 3.
  replace (List.length stem + 3 - 3) with (List.length stem) by lia.
  rewrite skipn_app, skipn_all, Nat.sub_diag. cbn [skipn app].
  rewrite str_eqb_refl, firstn_app, firstn_all, Nat.sub_diag.
  cbn [firstn]. rewrite app_nil_r.
  destruct stem; [congruence | reflexivity].
Qed.

Lemma display_name_of_markdown_file_witness :
  getBaseName (js "2024-01 notes.v2" ++ js ".md") = js "2024-01 notes.v2".
Proof.
  refine (proj2 (display_name_of_markdown_file (js "2024-01 notes.v2") _ _)).
  - discriminate.
  - repeat constructor.
Defined.

(* ================================================================== *)
(** ** The view *)
(* ================================================================== *)

Lemma hasId_build p g : hasId p (buildNodeFor g) = str_eqb (path (file g)) p.
Proof. reflexivity. Qed.

Lemma hasId_other p q node :
  hasId p node = true -> q <> p -> hasId q node = false.
Proof.
  destruct node as [|id h e]; simpl; [discriminate|].
  intros H Hq. apply str_eqb_eq in H. subst id.
  apply str_eqb_neq. congruence.
Qed.

Lemma find_hasId_ids p view :
  find (hasId p) view = None <-> ~ In p (nodeIds view).
Proof.
  induction view as [|[|id h e] view IH]; simpl.
  - split; [intros _ [] | reflexivity].
  - exact IH.
  - destruct (str_eqb id p) eqn:E.
    + apply str_eqb_eq in E. subst id. split; [discriminate|].
      intros H. exfalso. apply H. left. reflexivity.
    + rewrite IH. split.
      * intros H [H1|H1]; [|exact (H H1)]. subst id.
        rewrite str_eqb_refl in E. discriminate.
      * intros H H1. apply H. right. exact H1.
Qed.

Lemma find_hasId_some p view node :
  find (hasId p) view = Some node -> hasId p node = true /\ In node view.
Proof.
  intros H. apply find_some in H. destruct H as [H1 H2]. split; assumption.
Qed.

(** [removeChild] *)

Lemma nodeIds_removeChild p view q :
  In q (nodeIds (removeChild p view)) -> In q (nodeIds view).
Proof.
  induction view as [|[|id h e] view IH]; simpl; [tauto|exact IH|].
  destruct (str_eqb id p); simpl; [tauto|]. intros [H|H]; [left|right]; auto.
Qed.

Lemma NoDup_removeChild p view :
  NoDup (nodeIds view) -> NoDup (nodeIds (removeChild p view)).
Proof.
  induction view as [|[|id h e] view IH]; simpl; [tauto|exact IH|].
  intros H. inversion H as [|? ? Hid Hnd]; subst.
  destruct (str_eqb id p); simpl; [exact Hnd|].
  constructor; [|apply IH; exact Hnd].
  intros Hin. apply Hid. eapply nodeIds_removeChild; exact Hin.
Qed.

Lemma find_removeChild_same p view :
  NoDup (nodeIds view) -> find (hasId p) (removeChild p view) = None.
Proof.
  induction view as [|[|id h e] view IH]; simpl; [reflexivity|exact IH|].
  intros H. inversion H as [|? ? Hid Hnd]; subst.
  destruct (str_eqb id p) eqn:E; simpl.
  - apply str_eqb_eq in E. subst id. apply find_hasId_ids. exact Hid.
  - rewrite E. apply IH; exact Hnd.
Qed.

Lemma filter_removeChild p view :
  filter (fun n => negb (hasId p n)) (removeChild p view)
  = filter (fun n => negb (hasId p n)) view.
Proof.
  induction view as [|node view IH]; simpl; [reflexivity|].
  destruct (hasId p node) eqn:E; simpl; [reflexivity|].
  rewrite E. simpl. rewrite IH. reflexivity.
Qed.

(** [replaceChild] *)

Lemma nodeIds_replaceChild p newNode view :
  hasId p newNode = true ->
  nodeIds (replaceChild newNode p view) = nodeIds view.
Proof.
  intros Hn. induction view as [|[|id h e] view IH]; simpl;
    [reflexivity|exact IH|].
  destruct (str_eqb id p) eqn:E; simpl; [|rewrite IH; reflexivity].
  apply str_eqb_eq in E. subst id.
  destruct newNode as [|id' h' e']; simpl in Hn; [discriminate|].
  apply str_eqb_eq in Hn. subst id'. reflexivity.
Qed.

Lemma find_replaceChild_same p newNode view node :
  hasId p newNode = true -> find (hasId p) view = Some node ->
  find (hasId p) (replaceChild newNode p view) = Some newNode.
Proof.
  intros Hn. induction view as [|x view IH]; simpl; [discriminate|].
  destruct (hasId p x) eqn:E; simpl.
  - intros _. rewrite Hn. reflexivity.
  - rewrite E. exact IH.
Qed.

Lemma filter_replaceChild p newNode view :
  hasId p newNode = true ->
  filter (fun n => negb (hasId p n)) (replaceChild newNode p view)
  = filter (fun n => negb (hasId p n)) view.
Proof.
  intros Hn. induction view as [|node view IH]; simpl; [reflexivity|].
  destruct (hasId p node) eqn:E; simpl.
  - rewrite Hn. reflexivity.
  - rewrite E. simpl. rewrite IH. reflexivity.
Qed.

(** [insertBefore] *)

Lemma nodeIds_insertBefore p g sortedName view q :
  path (file g) = p ->
  In q (nodeIds (insertBefore (buildNodeFor g) sortedName view)) ->
  q = p \/ In q (nodeIds view).
Proof.
  intros Hp. induction view as [|[|id h e] view IH]; simpl.
  - rewrite Hp. intros [H|[]]. left. congruence.
  - exact IH.
  - destruct (truthy h && negb (str_gtb sortedName h)); simpl.
    + rewrite Hp. intros [H|H]; [left; congruence | right; exact H].
    + intros [H|H]; [right; left; exact H|].
      destruct (IH H) as [H1|H1]; [left | right; right]; exact H1.
Qed.

Lemma NoDup_insertBefore p g sortedName view :
  path (file g) = p -> ~ In p (nodeIds view) -> NoDup (nodeIds view) ->
  NoDup (nodeIds (insertBefore (buildNodeFor g) sortedName view)).
Proof.
  intros Hp. induction view as [|[|id h e] view IH]; simpl; intros Hin Hnd.
  - repeat constructor. intros [].
  - apply IH; assumption.
  - inversion Hnd as [|? ? Hid Hnd']; subst.
    destruct (truthy h && negb (str_gtb sortedName h)); simpl.
    + constructor; [exact Hin | exact Hnd].
    + constructor; [|apply IH; [tauto | exact Hnd']].
      intros H. destruct (nodeIds_insertBefore _ _ _ _ _ eq_refl H) as [H1|H1].
      * apply Hin. left. exact H1.
      * exact (Hid H1).
Qed.

Lemma find_insertBefore_same p newNode sortedName view :
  hasId p newNode = true -> find (hasId p) view = None ->
  find (hasId p) (insertBefore newNode sortedName view) = Some newNode.
Proof.
  intros Hn. induction view as [|[|id h e] view IH]; simpl.
  - intros _. rewrite Hn. reflexivity.
  - exact IH.
  - destruct (str_eqb id p) eqn:E; [discriminate|]. intros H.
    destruct (truthy h && negb (str_gtb sortedName h)); simpl.
    + rewrite Hn. reflexivity.
    + rewrite E. apply IH; exact H.
Qed.

Lemma filter_insertBefore p newNode sortedName view :
  hasId p newNode = true ->
  filter (fun n => negb (hasId p n)) (insertBefore newNode sortedName view)
  = filter (fun n => negb (hasId p n)) view.
Proof.
  intros Hn. induction view as [|[|id h e] view IH]; simpl.
  - rewrite Hn. reflexivity.
  - rewrite IH. reflexivity.
  - destruct (truthy h && negb (str_gtb sortedName h)); simpl.
    + rewrite Hn. reflexivity.
    + rewrite IH. reflexivity.
Qed.

(** Nodes of other paths, and the message, through the filter. *)

Lemma find_filter_other p q view :
  q <> p ->
  find (hasId q) (filter (fun n => negb (hasId p n)) view)
  = find (hasId q) view.
Proof.
  intros Hq. induction view as [|node view IH]; simpl; [reflexivity|].
  destruct (hasId p node) eqn:E; simpl.
  - rewrite (hasId_other p q node E Hq). exact IH.
  - destruct (hasId q node); [reflexivity | exact IH].
Qed.

Lemma In_message_filter p view :
  In ErrorMessage (filter (fun n => negb (hasId p n)) view)
  <-> In ErrorMessage view.
Proof.
  rewrite filter_In. simpl. split; [tauto | intros H; split; auto].
Qed.

Lemma getFileForValue_own d p :
  inheritedName p = false ->
  getFileForValue d p
  = match getFileFor d p with
    | Some g => IsGroup g
    | None => IsUndefined
    end.
Proof.
  intros H. unfold getFileForValue, getFileFor. rewrite H.
  destruct (dictGet d p) as [[g|]|]; reflexivity.
Qed.

Lemma getFileForValue_inherited d p :
  getFileForValue d p = IsInherited <->
  inheritedName p = true /\ dictGet d p = None.
Proof.
  unfold getFileForValue.
  destruct (dictGet d p) as [[g|]|]; [split; [discriminate | intros [_ H]; discriminate]..|].
  destruct (inheritedName p); split; try discriminate; auto.
  intros [H _]. discriminate.
Qed.

(** What a call that returns does to the view. *)
Lemma updateContentsFor_cases (removeMd : jsstring -> jsstring) d view p :
  reachable removeMd d -> selectorSafe p = true ->
  getFileForValue d p <> IsInherited ->
  exists view',
    updateContentsFor d view p = Some (Returns view') /\
    (NoDup (nodeIds view) ->
     find (hasId p) view' = option_map buildNodeFor (getFileFor d p) /\
     NoDup (nodeIds view')) /\
    filter (fun n => negb (hasId p n)) view'
    = filter (fun n => negb (hasId p n)) view.
Proof.
  intros Hd Hq Hv. unfold updateContentsFor, getHtmlNodeFor. rewrite Hq.
  assert (Hg : forall g, getFileFor d p = Some g -> path (file g) = p).
  { intros g H. apply getFileFor_In in H.
    destruct (reachable_wf removeMd d Hd) as [_ Hw].
    apply (Hw p g H). }
  revert Hv Hg. unfold getFileForValue, getFileFor.
  destruct (dictGet d p) as [[data|]|] eqn:Eg; intros Hv Hg.
  - assert (Hn : hasId p (buildNodeFor data) = true).
    { rewrite hasId_build, (Hg data eq_refl). apply str_eqb_refl. }
    destruct (find (hasId p) view) as [node|] eqn:Ef;
      eexists; (split; [reflexivity|]).
    + split; [|apply filter_replaceChild; exact Hn].
      intros Hnd. split.
      * eapply find_replaceChild_same; [exact Hn | exact Ef].
      * rewrite nodeIds_replaceChild by exact Hn. exact Hnd.
    + split; [|apply filter_insertBefore; exact Hn].
      intros Hnd. split.
      * apply find_insertBefore_same; [exact Hn | exact Ef].
      * apply (NoDup_insertBefore p); [apply Hg; reflexivity | | exact Hnd].
        apply find_hasId_ids. exact Ef.
  - destruct (find (hasId p) view) as [node|] eqn:Ef;
      eexists; (split; [reflexivity|]).
    + split; [|apply filter_removeChild].
      intros Hnd. split.
      * apply find_removeChild_same; exact Hnd.
      * apply NoDup_removeChild; exact Hnd.
    + split; [|reflexivity]. intros Hnd. split; [exact Ef | exact Hnd].
  - destruct (inheritedName p); [congruence|].
    destruct (find (hasId p) view) as [node|] eqn:Ef;
      eexists; (split; [reflexivity|]).
    + split; [|apply filter_removeChild].
      intros Hnd. split.
      * apply find_removeChild_same; exact Hnd.
      * apply NoDup_removeChild; exact Hnd.
    + split; [|reflexivity]. intros Hnd. split; [exact Ef | exact Hnd].
Qed.

(** A call that throws, and only such a call, finds an inherited value. *)
Lemma updateContentsFor_throws d view p :
  selectorSafe p = true ->
  (updateContentsFor d view p = Some Throws <->
   getFileForValue d p = IsInherited).
Proof.
  intros Hq. unfold updateContentsFor, getHtmlNodeFor. rewrite Hq.
  destruct (find (hasId p) view);
    destruct (getFileForValue d p); split; intros H;
    try discriminate; reflexivity.
Qed.

(** The view after [updateViewFor], whether the call returns or throws. *)
Lemma updateViewFor_frame (removeMd : jsstring -> jsstring) d view p :
  reachable removeMd d -> selectorSafe p = true ->
  exists view',
    updateViewFor d view p = Some view' /\
    filter (fun n => negb (hasId p n)) view'
    = filter (fun n => negb (hasId p n)) view.
Proof.
  intros Hd Hq. unfold updateViewFor.
  destruct (getFileForValue d p) eqn:Ev.
  - destruct (updateContentsFor_cases removeMd d view p Hd Hq)
      as [view' [E [_ H]]]; [congruence|].
    exists view'. rewrite E. split; [reflexivity | exact H].
  - destruct (updateContentsFor_cases removeMd d view p Hd Hq)
      as [view' [E [_ H]]]; [congruence|].
    exists view'. rewrite E. split; [reflexivity | exact H].
  - apply (updateContentsFor_throws d view p Hq) in Ev. rewrite Ev.
    exists view. split; reflexivity.
Qed.

(** X17.  [updateContentsFor] brings the view in line with the index at
    the path: in a state the index can be in, for a path whose code units
    stand for themselves in the selector and that is no name [_dict]
    inherits, and a view in which no two group nodes have the same id, the
    call returns, the first node with the id of the path is then the node
    built from what [getFileFor] returns (none when it returns nothing),
    and still no two group nodes have the same id. *)
Theorem view_update_sync (removeMd : jsstring -> jsstring)
  (d : Dict) (view : View) (p : jsstring)
  (Hd : reachable removeMd d)
  (Hq : selectorSafe p = true)
  (Hp : inheritedName p = false)
  (Hnd : NoDup (nodeIds view)) :
  exists view',
    updateContentsFor d view p = Some (Returns view') /\
    inSync d view' p /\
    NoDup (nodeIds view').
Proof.
  destruct (updateContentsFor_cases removeMd d view p Hd Hq)
    as [view' [E [H _]]].
  - rewrite (getFileForValue_own d p Hp).
    destruct (getFileFor d p); discriminate.
  - exists view'. split; [exact E|]. exact (H Hnd).
Qed.

Lemma view_update_sync_witness :
  exists view',
    updateContentsFor twoNotes [ErrorMessage] (js "a.md")
    = Some (Returns view') /\
    inSync twoNotes view' (js "a.md") /\
    NoDup (nodeIds view').
Proof.
  apply (view_update_sync plain twoNotes [ErrorMessage] (js "a.md")).
  - unfold twoNotes; repeat constructor.
  - reflexivity.
  - reflexivity.
  - simpl. constructor.
Defined.

(** X18.  [updateViewFor] touches the nodes of its path only: in a state
    the index can be in and for a path whose code units stand for
    themselves in the selector, the nodes that do not have the id of the
    path are the same, in the same order, after the call as before.  So
    the node of any other path is found as before, and the message that no
    item was found, once in the view, stays in it when a group node is
    inserted.  The call of [updateContentsFor] throws exactly when the
    path is a name [_dict] inherits and has no key of its own; the view is
    then as it was. *)
Theorem view_update_frame (removeMd : jsstring -> jsstring)
  (d : Dict) (view : View) (p : jsstring)
  (Hd : reachable removeMd d)
  (Hq : selectorSafe p = true) :
  exists view',
    updateViewFor d view p = Some view' /\
    filter (fun n => negb (hasId p n)) view'
    = filter (fun n => negb (hasId p n)) view /\
    (forall q, q <> p -> find (hasId q) view' = find (hasId q) view) /\
    (In ErrorMessage view' <-> In ErrorMessage view) /\
    (updateContentsFor d view p = Some Throws <->
     inheritedName p = true /\ dictGet d p = None) /\
    (updateContentsFor d view p = Some Throws -> view' = view).
Proof.
  destruct (updateViewFor_frame removeMd d view p Hd Hq) as [view' [E H]].
  exists view'. split; [exact E|]. split; [exact H|]. split; [|split; [|split]].
  - intros q Hne. rewrite <- (find_filter_other p q view' Hne), H.
    apply find_filter_other. exact Hne.
  - rewrite <- (In_message_filter p view'), H. apply In_message_filter.
  - rewrite (updateContentsFor_throws d view p Hq).
    apply getFileForValue_inherited.
  - intros Ht. unfold updateViewFor in E. rewrite Ht in E.
    injection E as <-. reflexivity.
Qed.

Lemma view_update_frame_witness :
  (exists view',
     updateViewFor twoNotes [ErrorMessage] (js "a.md") = Some view' /\
     In ErrorMessage view') /\
  updateContentsFor twoNotes (reloadContents twoNotes) (js "constructor")
  = Some Throws.
Proof.
  split.
  - destruct (view_update_frame plain twoNotes [ErrorMessage] (js "a.md"))
      as [view' [E [_ [_ [H _]]]]].
    + unfold twoNotes; repeat constructor.
    + reflexivity.
    + exists view'. split; [exact E|]. apply H. left. reflexivity.
  - destruct (view_update_frame plain twoNotes (reloadContents twoNotes)
                (js "constructor")) as [view' [_ [_ [_ [_ [H _]]]]]].
    + unfold twoNotes; repeat constructor.
    + reflexivity.
    + apply H. split; vm_compute; reflexivity.
Defined.

Lemma find_map_build p : forall l : list IToDoGroup,
  find (hasId p) (map buildNodeFor l)
  = option_map buildNodeFor
      (find (fun g => str_eqb (path (file g)) p) l).
Proof.
  induction l as [|g l IH]; simpl; [reflexivity|].
  destruct (str_eqb (path (file g)) p); [reflexivity | exact IH].
Qed.

Lemma nodeIds_map_build : forall l : list IToDoGroup,
  nodeIds (map buildNodeFor l) = map (fun g => path (file g)) l.
Proof.
  induction l as [|g l IH]; simpl; [reflexivity|]. rewrite IH. reflexivity.
Qed.

Lemma find_by_path_unique p : forall (l : list IToDoGroup) g,
  NoDup (map (fun g => path (file g)) l) ->
  In g l -> path (file g) = p ->
  find (fun g => str_eqb (path (file g)) p) l = Some g.
Proof.
  induction l as [|x l IH]; simpl; intros g Hnd Hin Hp; [contradiction|].
  inversion Hnd as [|? ? Hx Hnd']; subst.
  destruct Hin as [->|Hin].
  - rewrite str_eqb_refl. reflexivity.
  - destruct (str_eqb (path (file x)) (path (file g))) eqn:E.
    + apply str_eqb_eq in E. exfalso. apply Hx. rewrite E.
      apply in_map_iff. exists g. split; [reflexivity | exact Hin].
    + apply IH; [exact Hnd' | exact Hin | reflexivity].
Qed.

(** X19.  After [reloadContents] the view is in line with the index at
    every path: in a state the index can be in, the first node with the id
    of a path is the node built from the group [_dict] holds under it, and
    there is none when it holds [null], nothing, or only what it inherits
    under that name; so for every path that is no name [_dict] inherits
    the view shows what [getFileFor] returns; and no two group nodes have
    the same id. *)
Theorem reload_in_sync (removeMd : jsstring -> jsstring) (d : Dict)
  (Hd : reachable removeMd d) :
  (forall p, find (hasId p) (reloadContents d)
             = match getFileForValue d p with
               | IsGroup g => Some (buildNodeFor g)
               | _ => None
               end) /\
  (forall p, inheritedName p = false -> inSync d (reloadContents d) p) /\
  NoDup (nodeIds (reloadContents d)).
Proof.
  pose proof (fun g => listed_iff_lookup removeMd d g Hd) as Hl.
  pose proof (listed_paths_NoDup removeMd d Hd) as Hn.
  assert (Hg : forall p g, getFileFor d p = Some g -> path (file g) = p).
  { intros p g H. apply getFileFor_In in H.
    destruct (reachable_wf removeMd d Hd) as [_ Hw]. apply (Hw p g H). }
  assert (Hs : forall p,
    find (fun g => str_eqb (path (file g)) p) (getFilesInOrder d)
    = getFileFor d p).
  { intros p. destruct (getFileFor d p) as [g|] eqn:E.
    - apply find_by_path_unique; [exact Hn | | apply (Hg p); exact E].
      apply Hl. rewrite (Hg p g E). exact E.
    - destruct (find _ (getFilesInOrder d)) as [g|] eqn:F; [|reflexivity].
      apply find_some in F. destruct F as [Hin Hp].
      apply str_eqb_eq in Hp. apply Hl in Hin. congruence. }
  assert (Hf : forall p, find (hasId p) (reloadContents d)
                         = option_map buildNodeFor (getFileFor d p)).
  { intros p. unfold reloadContents.
    destruct (getFilesInOrder d) as [|g l] eqn:El.
    - rewrite <- Hs. reflexivity.
    - rewrite find_map_build, Hs. reflexivity. }
  split; [|split].
  - intros p. rewrite Hf. unfold getFileFor, getFileForValue.
    destruct (dictGet d p) as [[g|]|]; try reflexivity.
    destruct (inheritedName p); reflexivity.
  - intros p _. apply Hf.
  - unfold reloadContents. destruct (getFilesInOrder d) as [|g l] eqn:El.
    + constructor.
    + rewrite nodeIds_map_build. exact Hn.
Qed.

Lemma reload_in_sync_witness :
  inSync twoNotes (reloadContents twoNotes) (js "a.md").
Proof.
  refine (proj1 (proj2 (reload_in_sync plain twoNotes _)) (js "a.md") _).
  - unfold twoNotes; repeat constructor.
  - reflexivity.
Defined.

(* ================================================================== *)
(** ** The handlers of the vault events *)
(* ================================================================== *)

Lemma replaceChild_found p view node :
  find (hasId p) view = Some node -> replaceChild node p view = view.
Proof.
  induction view as [|x view IH]; simpl; [reflexivity|].
  destruct (hasId p x) eqn:E.
  - intros H; injection H as ->. reflexivity.
  - intros H. rewrite (IH H). reflexivity.
Qed.

(** A view in line with the index at a path is left as it is. *)
Lemma updateContentsFor_inSync d view p :
  selectorSafe p = true -> inheritedName p = false -> inSync d view p ->
  updateContentsFor d view p = Some (Returns view).
Proof.
  intros Hq Hp Hs. unfold updateContentsFor, getHtmlNodeFor. rewrite Hq.
  rewrite (getFileForValue_own d p Hp). unfold inSync in Hs.
  destruct (find (hasId p) view) as [node|] eqn:Ef;
    destruct (getFileFor d p) as [data|]; simpl in Hs; try discriminate;
    try reflexivity.
  injection Hs as <-. rewrite (replaceChild_found _ _ _ Ef). reflexivity.
Qed.

Lemma getFileFor_loadFile_same (removeMd : jsstring -> jsstring) d f md :
  getFileFor (loadFile removeMd d f md) (path f)
  = groupOf f (extract removeMd md).
Proof.
  unfold getFileFor, loadFile. rewrite dictGet_set_same.
  destruct (groupOf f (extract removeMd md)); reflexivity.
Qed.

Lemma not_inherited d p :
  inheritedName p = false -> getFileForValue d p <> IsInherited.
Proof.
  intros Hp. rewrite (getFileForValue_own d p Hp).
  destruct (getFileFor d p); discriminate.
Qed.

Lemma updateViewFor_returns d view p view' :
  updateContentsFor d view p = Some (Returns view') ->
  updateViewFor d view p = Some view'.
Proof. intros E. unfold updateViewFor. rewrite E. reflexivity. Qed.

(** X20.  The handler of [delete]: in a state the index can be in, for a
    path whose code units stand for themselves in the selector and that is
    no name [_dict] inherits, and a view in which no two group nodes have
    the same id, it leaves no entry and no node for the path of the file,
    and the node of any other path is found as before. *)
Theorem delete_handler (removeMd : jsstring -> jsstring)
  (d : Dict) (view : View) (f : TAbstractFile)
  (Hd : reachable removeMd d)
  (Hq : selectorSafe (path f) = true)
  (Hp : inheritedName (path f) = false)
  (Hnd : NoDup (nodeIds view)) :
  exists view',
    onDelete d view f = (deleteFile d f, Some view') /\
    getFileForValue (deleteFile d f) (path f) = IsUndefined /\
    getFileFor (deleteFile d f) (path f) = None /\
    find (hasId (path f)) view' = None /\
    (forall q, q <> path f -> find (hasId q) view' = find (hasId q) view).
Proof.
  assert (Hd' : reachable removeMd (deleteFile d f))
    by (unfold deleteFile; constructor; exact Hd).
  assert (Hg : getFileFor (deleteFile d f) (path f) = None).
  { unfold getFileFor, deleteFile. rewrite dictGet_delete_same. reflexivity. }
  destruct (updateContentsFor_cases removeMd _ view (path f) Hd' Hq
              (not_inherited _ _ Hp)) as [view' [E [Hs Hfr]]].
  exists view'. unfold onDelete.
  rewrite (updateViewFor_returns _ _ _ _ E).
  split; [reflexivity|]. split; [|split; [exact Hg|split]].
  - rewrite (getFileForValue_own _ _ Hp), Hg. reflexivity.
  - destruct (Hs Hnd) as [Hf _]. rewrite Hf, Hg. reflexivity.
  - intros q Hne. rewrite <- (find_filter_other (path f) q view' Hne), Hfr.
    apply find_filter_other. exact Hne.
Qed.

Lemma delete_handler_witness :
  exists view',
    onDelete twoNotes (reloadContents twoNotes) file_a
    = (deleteFile twoNotes file_a, Some view') /\
    find (hasId (js "a.md")) view' = None /\
    find (hasId (js "a-b.md")) view'
    = find (hasId (js "a-b.md")) (reloadContents twoNotes).
Proof.
  destruct (delete_handler plain twoNotes (reloadContents twoNotes) file_a)
    as [view' [E [_ [_ [H1 H2]]]]].
  - unfold twoNotes; repeat constructor.
  - reflexivity.
  - reflexivity.
  - vm_compute. repeat constructor; simpl; intuition discriminate.
  - exists view'. split; [exact E|]. split; [exact H1|].
    apply H2. discriminate.
Defined.

(** X21.  The handler of [create] and [modify] for a file that a view
    shows with a non-empty content: the index and the view are both
    updated when the handler returns, nothing is left to read, and the
    node of the path is the node built from the items extracted from the
    live content, none when nothing was extracted.  The code units of the
    path stand for themselves in the selector and the path is no name
    [_dict] inherits. *)
Theorem modify_handler_live (removeMd : jsstring -> jsstring)
  (app : App) (d : Dict) (view : View) (f : TAbstractFile) (v : jsstring)
  (Hd : reachable removeMd d)
  (Hq : selectorSafe (path f) = true)
  (Hp : inheritedName (path f) = false)
  (Hnd : NoDup (nodeIds view))
  (Hopen : openContent app (path f) = Some v)
  (Hv : truthy v = true) :
  exists view',
    onModify removeMd app d view f
    = (loadFile removeMd d f v, Some view', NoRead) /\
    find (hasId (path f)) view'
    = option_map buildNodeFor (groupOf f (extract removeMd v)) /\
    NoDup (nodeIds view').
Proof.
  assert (Hd' : reachable removeMd (loadFile removeMd d f v))
    by (constructor; exact Hd).
  destruct (updateContentsFor_cases removeMd _ view (path f) Hd' Hq
              (not_inherited _ _ Hp)) as [view' [E [Hs _]]].
  exists view'. unfold onModify, updateFile, loadFileFromWorkspace.
  rewrite Hopen, Hv. cbn [fst snd].
  rewrite (updateViewFor_returns _ _ _ _ E).
  split; [reflexivity|]. destruct (Hs Hnd) as [Hf Hn].
  rewrite getFileFor_loadFile_same in Hf. split; assumption.
Qed.

Lemma modify_handler_live_witness :
  exists view',
    onModify plain liveNote twoNotes (reloadContents twoNotes) file_a
    = (loadFile plain twoNotes file_a (js "TODO: z"), Some view', NoRead) /\
    find (hasId (js "a.md")) view'
    = Some (GroupNode (js "a.md") (js "a") [Str (js "z")]).
Proof.
  destruct (modify_handler_live plain liveNote twoNotes
              (reloadContents twoNotes) file_a (js "TODO: z"))
    as [view' [E [H _]]].
  - unfold twoNotes; repeat constructor.
  - reflexivity.
  - reflexivity.
  - vm_compute. repeat constructor; simpl; intuition discriminate.
  - reflexivity.
  - reflexivity.
  - exists view'. split; [exact E|].
    change (js "a.md") with (path file_a). rewrite H. vm_compute.
    reflexivity.
Defined.

(** X22.  The handler of [create] and [modify] for a markdown file that no
    view shows with a non-empty content: the view is updated when the
    handler returns, before the read is delivered, so from the index as it
    was.  A view that was in line with the index at the path is left as it
    is, and nothing updates it when the read is delivered and the index
    gets the new group: the view is then in line with the index at the
    path only if the node of the new group is the node of the old one.
    The code units of the path stand for themselves in the selector and
    the path is no name [_dict] inherits. *)
Theorem modify_handler_disk_stale (removeMd : jsstring -> jsstring)
  (app : App) (d : Dict) (view : View) (f : TAbstractFile) (md : jsstring)
  (Hq : selectorSafe (path f) = true)
  (Hp : inheritedName (path f) = false)
  (Hopen : forall v, openContent app (path f) = Some v -> truthy v = false)
  (Hext : Path.extname (path f) = js ".md")
  (Hread : read app (path f) = Some md)
  (Hsync : inSync d view (path f)) :
  onModify removeMd app d view f = (d, Some view, ReadOf f) /\
  settle removeMd app (updateFile removeMd app d f)
  = loadFile removeMd d f md /\
  (inSync (loadFile removeMd d f md) view (path f) <->
   option_map buildNodeFor (groupOf f (extract removeMd md))
   = option_map buildNodeFor (getFileFor d (path f))).
Proof.
  assert (Hu : updateFile removeMd app d f = (d, ReadOf f)).
  { unfold updateFile, loadFileFromWorkspace, loadFileFromDisk.
    rewrite Hext, str_eqb_refl. cbn [negb].
    destruct (openContent app (path f)) as [v|] eqn:E; [|reflexivity].
    rewrite (Hopen v eq_refl). reflexivity. }
  split; [|split].
  - unfold onModify. rewrite Hu. cbn [fst snd].
    rewrite (updateViewFor_returns _ _ _ _
               (updateContentsFor_inSync d view (path f) Hq Hp Hsync)).
    reflexivity.
  - rewrite Hu. unfold settle. cbn [fst snd afterRead]. rewrite Hread.
    reflexivity.
  - unfold inSync in *. rewrite getFileFor_loadFile_same, Hsync.
    split; intros H; symmetry; exact H.
Qed.

Lemma modify_handler_disk_stale_witness :
  onModify plain diskOnly [] [ErrorMessage] file_b
  = ([], Some [ErrorMessage], ReadOf file_b) /\
  ~ inSync (loadFile plain [] file_b (js "TODO: y")) [ErrorMessage]
      (js "b.md").
Proof.
  destruct (modify_handler_disk_stale plain diskOnly [] [ErrorMessage]
              file_b (js "TODO: y")) as [E [_ H]].
  - reflexivity.
  - reflexivity.
  - intros v Hv. vm_compute in Hv. discriminate.
  - vm_compute. reflexivity.
  - vm_compute. reflexivity.
  - reflexivity.
  - split; [exact E|]. intros Hs. apply H in Hs. vm_compute in Hs.
    discriminate.
Defined.

(** X23.  The handler of [rename]: in a state the index can be in, for an
    old and a new path that differ, whose code units stand for themselves
    in the selector and that are no names [_dict] inherits, and a view in
    which no two group nodes have the same id, when the handler returns
    there is no entry and no node for the old path, and the view is in
    line with the index at the new path as the index is then (for a file
    read from disk, before the read is delivered). *)
Theorem rename_handler (removeMd : jsstring -> jsstring)
  (app : App) (d : Dict) (view : View) (f : TAbstractFile)
  (filename : jsstring)
  (Hd : reachable removeMd d)
  (Hq : selectorSafe filename = true)
  (Hq' : selectorSafe (path f) = true)
  (Hp : inheritedName filename = false)
  (Hp' : inheritedName (path f) = false)
  (Hne : filename <> path f)
  (Hnd : NoDup (nodeIds view)) :
  exists view',
    onRename removeMd app d view f filename
    = (fst (renameFile removeMd app d f filename), Some view',
       snd (renameFile removeMd app d f filename)) /\
    getFileFor (fst (renameFile removeMd app d f filename)) filename = None /\
    find (hasId filename) view' = None /\
    inSync (fst (renameFile removeMd app d f filename)) view' (path f).
Proof.
  set (d1 := fst (renameFile removeMd app d f filename)).
  assert (Hd1 : reachable removeMd d1).
  { unfold d1, renameFile.
    apply (reachable_updateFile removeMd app (dictDelete d filename) f).
    constructor. exact Hd. }
  assert (Hg : getFileFor d1 filename = None).
  { unfold d1, renameFile, getFileFor.
    destruct (updateFile_cases removeMd app (dictDelete d filename) f)
      as [->|[md ->]].
    - rewrite dictGet_delete_same. reflexivity.
    - unfold loadFile. rewrite dictGet_set_other by congruence.
      rewrite dictGet_delete_same. reflexivity. }
  destruct (updateContentsFor_cases removeMd d1 view filename Hd1 Hq
              (not_inherited _ _ Hp)) as [view1 [E1 [Hs1 _]]].
  destruct (Hs1 Hnd) as [Hf1 Hn1].
  destruct (updateContentsFor_cases removeMd d1 view1 (path f) Hd1 Hq'
              (not_inherited _ _ Hp')) as [view2 [E2 [Hs2 Hfr2]]].
  destruct (Hs2 Hn1) as [Hf2 Hn2].
  exists view2. unfold onRename. fold d1.
  rewrite (updateViewFor_returns _ _ _ _ E1).
  rewrite (updateViewFor_returns _ _ _ _ E2).
  split; [reflexivity|]. split; [exact Hg|]. split; [|exact Hf2].
  rewrite <- (find_filter_other (path f) filename view2 Hne), Hfr2.
  rewrite (find_filter_other (path f) filename view1 Hne), Hf1, Hg.
  reflexivity.
Qed.

Lemma rename_handler_witness :
  exists view',
    snd (fst (onRename plain diskOnly twoNotes (reloadContents twoNotes)
                file_b (js "a.md"))) = Some view' /\
    find (hasId (js "a.md")) view' = None.
Proof.
  destruct (rename_handler plain diskOnly twoNotes (reloadContents twoNotes)
              file_b (js "a.md")) as [view' [E [_ [H _]]]].
  - unfold twoNotes; repeat constructor.
  - reflexivity.
  - reflexivity.
  - reflexivity.
  - reflexivity.
  - discriminate.
  - vm_compute. repeat constructor; simpl; intuition discriminate.
  - exists view'. split; [rewrite E; reflexivity | exact H].
Defined.
